(** * NICE: K-Means engine and dense-matrix helpers

    A shallow embedding of [cpp/include/kmeans.h] and of the size-checked
    element-wise operations of [cpp/include/cpu_operations.h], followed by
    the properties of the clustering engine.

    Numeric model.  The engine is a template over a floating-point type
    [T].  A value of [T] is a rational, an infinity or NaN.  Every
    arithmetic operation computes the exact result and rounds it to the
    format of [T]: the format gives the rounding function, the square root
    and the largest finite value.  The IEEE 754 formats binary32 ([float])
    and binary64 ([double]), with rounding to nearest, ties to even,
    gradual underflow and overflow to infinity, are defined in [IEEE].
    Signed zeros are not distinguished.  Conversions of counters and
    indices to [T] are taken exact, as they are for counts below 2^24. *)

From Stdlib Require Import List ZArith QArith Qround Qpower Bool Lia Lqa.
From Stdlib Require String.
From Stdlib Require Import Permutation Sorted.
Import ListNotations.

Local Open Scope nat_scope.

(** ** The scalar type [T] *)

Module Scalar.

Inductive T : Type :=
| Fin (q : Q)
| PInf
| NInf
| NaN.

Definition T_of_nat (n : nat) : T := Fin (inject_Z (Z.of_nat n)).

Definition Tzero : T := Fin 0.

Definition Topp (a : T) : T :=
  match a with
  | Fin x => Fin (- x)
  | PInf => NInf
  | NInf => PInf
  | NaN => NaN
  end.

(** *** Exact results

    The results of the operations before rounding, with the IEEE rules
    for the infinities and NaN. *)

Definition exact_add (a b : T) : T :=
  match a, b with
  | NaN, _ | _, NaN => NaN
  | Fin x, Fin y => Fin (x + y)
  | PInf, NInf | NInf, PInf => NaN
  | PInf, _ | _, PInf => PInf
  | NInf, _ | _, NInf => NInf
  end.

(** Sign of a rational: [Lt] negative, [Eq] zero, [Gt] positive. *)
Definition Qsign (x : Q) : comparison := (0 ?= x)%Q.

Definition Tinf_of_sign (c : comparison) : T :=
  match c with
  | Lt => PInf
  | Gt => NInf
  | Eq => NaN
  end.

Definition Tsign (a : T) : comparison :=
  match a with
  | Fin x => Qsign x
  | PInf => Lt
  | NInf => Gt
  | NaN => Eq
  end.

Definition sign_mul (c d : comparison) : comparison :=
  match c, d with
  | Eq, _ | _, Eq => Eq
  | Lt, Lt | Gt, Gt => Lt
  | Lt, Gt | Gt, Lt => Gt
  end.

Definition exact_mul (a b : T) : T :=
  match a, b with
  | NaN, _ | _, NaN => NaN
  | Fin x, Fin y => Fin (x * y)
  | _, _ => Tinf_of_sign (sign_mul (Tsign a) (Tsign b))
  end.

(** Division: a finite value over zero is an infinity of the sign of the
    numerator, zero over zero is NaN. *)
Definition exact_div (a b : T) : T :=
  match a, b with
  | NaN, _ | _, NaN => NaN
  | Fin x, Fin y =>
      if Qeq_bool y 0 then Tinf_of_sign (Qsign x) else Fin (x / y)
  | Fin _, _ => Fin 0
  | _, Fin y =>
      if Qeq_bool y 0 then a else Tinf_of_sign (sign_mul (Tsign a) (Qsign y))
  | _, _ => NaN
  end.

(** *** Comparisons, which are exact *)

(** [a < b]; every comparison with NaN is false. *)
Definition Tltb (a b : T) : bool :=
  match a, b with
  | NaN, _ | _, NaN => false
  | Fin x, Fin y => negb (Qle_bool y x)
  | NInf, NInf | PInf, _ | _, NInf => false
  | NInf, _ | _, PInf => true
  end.

(** [a == b]. *)
Definition Teqb (a b : T) : bool :=
  match a, b with
  | Fin x, Fin y => Qeq_bool x y
  | PInf, PInf | NInf, NInf => true
  | _, _ => false
  end.

Definition Tleb (a b : T) : bool := Tltb a b || Teqb a b.

Definition Tfinite (a : T) : Prop :=
  match a with
  | Fin _ => True
  | _ => False
  end.

(** *** The format of [T] and the rounded operations

    [round q] is the value of [T] nearest to the real [q], an infinity
    when [q] is beyond the largest finite value; [T_max] is
    [std::numeric_limits<T>::max()] and [Tsqrt] is [std::sqrt]. *)
Record Format : Type := mkFormat {
  T_max : Q;
  round : Q -> T;
  Tsqrt : T -> T
}.

(** The value of [T] for an exact result; also the conversion [(T)a] of a
    [double]. *)
Definition fl (F : Format) (a : T) : T :=
  match a with
  | Fin q => round F (Qred q)
  | _ => a
  end.

Definition Tadd (F : Format) (a b : T) : T := fl F (exact_add a b).

Definition Tsub (F : Format) (a b : T) : T := fl F (exact_add a (Topp b)).

Definition Tmul (F : Format) (a b : T) : T := fl F (exact_mul a b).

Definition Tdiv (F : Format) (a b : T) : T := fl F (exact_div a b).

End Scalar.
Export Scalar.

(** ** The IEEE 754 binary formats

    [prec] is the number of bits of the significand and [emax] the largest
    exponent: 24 and 127 for [float], 53 and 1023 for [double]. *)

Module IEEE.

Local Open Scope Q_scope.

(** [floor (log2 q)] for a positive rational. *)
Definition ilog2 (q : Q) : Z :=
  let e := (Z.log2 (Qnum q) - Z.log2 (Zpos (Qden q)))%Z in
  if Qle_bool (2 ^ e) q then e else (e - 1)%Z.

(** The integer nearest to a rational, the even one of the two when the
    rational lies half-way. *)
Definition nearest_even (x : Q) : Z :=
  let f := Qfloor x in
  match (x - inject_Z f ?= 1 # 2)%Q with
  | Lt => f
  | Gt => (f + 1)%Z
  | Eq => if Z.even f then f else (f + 1)%Z
  end.

(** The largest finite value. *)
Definition largest (prec emax : Z) : Q :=
  inject_Z (2 ^ prec - 1) * 2 ^ (emax - prec + 1).

(** The exponent of the unit in the last place of a positive rational:
    below the least normal value, that of the subnormal values. *)
Definition ulp_exponent (prec emax : Z) (q : Q) : Z :=
  (Z.max (ilog2 q) (1 - emax) - (prec - 1))%Z.

(** The multiple of the unit in the last place nearest to a positive
    rational, ties to even. *)
Definition nearest_value (prec emax : Z) (q : Q) : Q :=
  let ulp := 2 ^ ulp_exponent prec emax q in
  inject_Z (nearest_even (q / ulp)) * ulp.

(** Rounding of a positive rational; what rounds beyond the largest finite
    value is an infinity. *)
Definition round_positive (prec emax : Z) (q : Q) : T :=
  let v := Qred (nearest_value prec emax q) in
  if Qle_bool v (largest prec emax) then Fin v else PInf.

Definition round (prec emax : Z) (q : Q) : T :=
  match (Qnum q ?= 0)%Z with
  | Eq => Fin 0
  | Gt => round_positive prec emax q
  | Lt => Topp (round_positive prec emax (- q))
  end.

(** The correctly rounded square root.  For a positive rational, [s] is
    the integer part of the root scaled by [2^k]; [k] is large enough for
    every value of the format and every mid-point between two of them to
    be a multiple of [2^-k] in the range of the root, so the root, when it
    is not [s / 2^k], rounds as the middle of [s / 2^k] and
    [(s + 1) / 2^k] does. *)
Definition sqrt (prec emax : Z) (a : T) : T :=
  match a with
  | Fin q =>
      match Qnum q with
      | Z0 => Fin 0
      | Zneg _ => NaN
      | Zpos n =>
          let k := (prec + emax + 2)%Z in
          let scaled := (Zpos n * 4 ^ k)%Z in
          let s := Z.sqrt (scaled / Zpos (Qden q)) in
          let exact := (s * s * Zpos (Qden q) =? scaled)%Z in
          let approx := if exact then inject_Z s else inject_Z (2 * s + 1)%Z / 2 in
          round prec emax (Qred (approx / 2 ^ k))
      end
  | PInf => PInf
  | NInf | NaN => NaN
  end.

Definition format (prec emax : Z) : Format :=
  mkFormat (largest prec emax) (round prec emax) (sqrt prec emax).

(** [float] and [double]. *)
Definition binary32 : Format := format 24 127.

Definition binary64 : Format := format 53 1023.

End IEEE.

(** ** Eigen containers

    [Vector<T>] is a list of coefficients.  [Matrix<T>] keeps its row count
    and the list of its columns, so a matrix with rows and no column, or
    with columns and no row, is represented.  The reductions ([sum],
    [squaredNorm], [mean]) add the coefficients from the first to the
    last. *)

Module Eigen.

Definition Vec := list T.

Record Matrix (A : Type) : Type := mkMatrix {
  rows : nat;
  columns : list (list A)
}.
Arguments mkMatrix {A} _ _.
Arguments rows {A} _.
Arguments columns {A} _.

Definition cols {A} (m : Matrix A) : nat := length (columns m).

(** [m.col(i)], read.  Every read of the engine is in range; out of range,
    where Eigen asserts, the model reads an empty column. *)
Definition col {A} (m : Matrix A) (i : nat) : list A := nth i (columns m) [].

(** [m(r, c)]. *)
Definition coeff (m : Matrix T) (r c : nat) : T := nth r (col m c) NaN.

(** [Vector<T>::Zero(n)]. *)
Definition Zero (n : nat) : Vec := repeat Tzero n.

(** Coefficient-wise binary operation on two lists. *)
Fixpoint zip_with {A B C} (f : A -> B -> C) (u : list A) (v : list B) : list C :=
  match u, v with
  | a :: u', b :: v' => f a b :: zip_with f u' v'
  | _, _ => []
  end.

(** [m.row(r)]: the coefficients of row [r], column after column. *)
Definition row (m : Matrix T) (r : nat) : Vec :=
  map (fun c => nth r c NaN) (columns m).

Section Arithmetic.

Variable F : Format.

(** [v.sum()]. *)
Definition sum (v : Vec) : T := fold_left (Tadd F) v Tzero.

(** [u - v]; Eigen asserts that the operands have one size. *)
Definition Vsub (u v : Vec) : Vec := zip_with (Tsub F) u v.

Definition squaredNorm (v : Vec) : T := sum (map (fun x => Tmul F x x) v).

(** [v.norm()]. *)
Definition norm (v : Vec) : T := Tsqrt F (squaredNorm v).

(** [v / s], coefficient-wise. *)
Definition Vdiv (v : Vec) (s : T) : Vec := map (fun x => Tdiv F x s) v.

Definition mean (v : Vec) : T := Tdiv F (sum v) (T_of_nat (length v)).

Definition rowwise_mean (m : Matrix T) : Vec :=
  map (fun r => mean (row m r)) (seq 0 (rows m)).

End Arithmetic.

(** Minimum and maximum coefficient of a list, by a left-to-right scan
    that keeps the first extremum; Eigen asserts on an empty list, which
    yields NaN here. *)
Definition minCoeff (v : Vec) : T :=
  match v with
  | [] => NaN
  | x :: v' => fold_left (fun m y => if Tltb y m then y else m) v' x
  end.

Definition maxCoeff (v : Vec) : T :=
  match v with
  | [] => NaN
  | x :: v' => fold_left (fun m y => if Tltb m y then y else m) v' x
  end.

Definition rowwise_minCoeff (m : Matrix T) : Vec :=
  map (fun r => minCoeff (row m r)) (seq 0 (rows m)).

Definition rowwise_maxCoeff (m : Matrix T) : Vec :=
  map (fun r => maxCoeff (row m r)) (seq 0 (rows m)).

(** [l[i] = x] on a list; [None] when [i] is out of range (Eigen's
    bounds assertion). *)
Fixpoint list_set {A} (l : list A) (i : nat) (x : A) : option (list A) :=
  match l, i with
  | [], _ => None
  | _ :: l', O => Some (x :: l')
  | y :: l', S i' =>
      match list_set l' i' x with
      | Some l'' => Some (y :: l'')
      | None => None
      end
  end.

(** [m.col(i) = v]. *)
Definition set_col {A} (m : Matrix A) (i : nat) (v : list A) : option (Matrix A) :=
  match list_set (columns m) i v with
  | Some cs => Some (mkMatrix (rows m) cs)
  | None => None
  end.

(** [std::sort] over [operator<]: an insertion sort, ascending. *)
Fixpoint sort_insert (x : T) (l : list T) : list T :=
  match l with
  | [] => [x]
  | y :: l' => if Tltb y x then y :: sort_insert x l' else x :: y :: l'
  end.

Fixpoint sort (l : list T) : list T :=
  match l with
  | [] => []
  | x :: l' => sort_insert x (sort l')
  end.

End Eigen.
Export Eigen.
(** ** [CpuOperations]: size-checked element-wise operations *)

Module CpuOperations.

Import String.
Local Open Scope nat_scope.

(** A call either returns or ends the process through [exit(code)] after
    writing a message to the error stream. *)
Inductive call (A : Type) : Type :=
| Returns (a : A)
| Exits (code : Z) (stderr : String.string).
Arguments Returns {A} _.
Arguments Exits {A} _ _.

Definition elementwise {A} (f : A -> A -> A) (a b : Matrix A) : Matrix A :=
  mkMatrix (rows a) (zip_with (zip_with f) (columns a) (columns b)).


Section Arithmetic.

Variable F : Format.

(** [Add(const Matrix<T>&, const Matrix<T>&)]. *)
Definition Add (a b : Matrix T) : call (Matrix T) :=
  if negb (rows a =? rows b) || negb (cols a =? cols b) then
    Exits 1 "MATRICIES ARE NOT THE SAME SIZE"%string
  else if rows a =? 0 then
    Exits 1 "MATRICIES ARE EMPTY"%string
  else
    Returns (elementwise (Tadd F) a b).

(** [Subtract(const Matrix<T>&, const Matrix<T>&)]. *)
Definition Subtract (a b : Matrix T) : call (Matrix T) :=
  if negb (rows a =? rows b) || negb (cols a =? cols b) then
    Exits 1 "MATRICES ARE NOT THE SAME SIZE!"%string
  else if (rows b =? 0) || (cols b =? 0) || (rows a =? 0) || (cols a =? 0) then
    Exits 1 "EMPTY MATRIX AS ARGUMENT!"%string
  else
    Returns (elementwise (Tsub F) a b).

(** [Add(const Matrix<T>&, const T&)]. *)
Definition Add_scalar (a : Matrix T) (scalar : T) : call (Matrix T) :=
  if rows a =? 0 then
    Exits 1 "MATRICIES ARE EMPTY"%string
  else
    Returns (mkMatrix (rows a)
                      (map (map (fun x => Tadd F x scalar)) (columns a))).

(** [Subtract(const Matrix<T>&, const T&)]. *)
Definition Subtract_scalar (a : Matrix T) (scalar : T) : call (Matrix T) :=
  if (rows a =? 0) || (cols a =? 0) then
    Exits 1 "EMPTY MATRIX AS ARGUEMENT!"%string
  else
    Returns (mkMatrix (rows a)
                      (map (map (fun x => Tsub F x scalar)) (columns a))).

(** [a.dot(b)] and [a.trace()]. *)
Definition dot (a b : Vec) : T := sum F (zip_with (Tmul F) a b).

Definition trace (a : Matrix T) : T :=
  sum F (map (fun i => coeff a i i) (seq 0 (Nat.min (rows a) (cols a)))).

(** [Trace]. *)
Definition Trace (a : Matrix T) : T := trace a.

(** [DotProduct]. *)
Definition DotProduct (a b : Vec) : call T :=
  if negb (List.length a =? List.length b) then
    Exits 1 "VECTORS ARE NOT THE SAME SIZE!"%string
  else if List.length a =? 0 then
    Exits 1 "VECTORS ARE EMPTY!"%string
  else
    Returns (dot a b).

(** [OuterProduct]: [a * b.transpose()], whose coefficient at row [i] and
    column [j] is [a(i) * b(j)]. *)
Definition OuterProduct (a b : Vec) : call (Matrix T) :=
  if (List.length a =? 0) || (List.length b =? 0) then
    Exits 1 "EMPTY VECTOR AS ARGUMENT!"%string
  else
    Returns (mkMatrix (List.length a)
                      (map (fun bj => map (fun ai => Tmul F ai bj) a) b)).

End Arithmetic.

(** [LogicalOr]. *)
Definition LogicalOr (a b : Matrix bool) : call (Matrix bool) :=
  if negb (rows a =? rows b) || negb (cols a =? cols b) then
    Exits 1 "MATRICES ARE NOT THE SAME SIZE!"%string
  else if (rows b =? 0) || (cols b =? 0) || (rows a =? 0) || (cols a =? 0) then
    Exits 1 "EMPTY MATRIX AS ARGUMENT!"%string
  else
    Returns (elementwise orb a b).

(** [LogicalAnd]. *)
Definition LogicalAnd (a b : Matrix bool) : call (Matrix bool) :=
  if negb (rows a =? rows b) || negb (cols a =? cols b) then
    Exits 1 "MATRICES ARE NOT THE SAME SIZE!"%string
  else
    Returns (elementwise andb a b).

(** A matrix is empty when it has no row or no column. *)
Definition is_empty {A} (m : Matrix A) : bool := (rows m =? 0) || (cols m =? 0).

Definition same_size {A} (a b : Matrix A) : bool :=
  (rows a =? rows b) && (cols a =? cols b).

Definition is_exit {A} (c : call A) : bool :=
  match c with
  | Exits _ _ => true
  | Returns _ => false
  end.

(** [Transpose(const Matrix<T>&)]: the columns of the result are the rows
    of the operand. *)
Definition Transpose (a : Matrix T) : Matrix T :=
  mkMatrix (cols a) (map (row a) (seq 0 (rows a))).

(** [LogicalNot(const Matrix<bool>&)]: the copy is negated coefficient by
    coefficient, then tested. *)
Definition LogicalNot (a : Matrix bool) : call (Matrix bool) :=
  let b := mkMatrix (rows a) (map (map negb) (columns a)) in
  if (rows b =? 0) || (cols b =? 0) then
    Exits 1 "EMPTY MATRIX AS ARGUMENT!"%string
  else
    Returns b.

(** [LogicalOr(const Vector<bool>&, const Vector<bool>&)]. *)
Definition LogicalOr_vector (a b : list bool) : call (list bool) :=
  if negb (List.length a =? List.length b) then
    Exits 1 "VECTORS ARE NOT THE SAME SIZE!"%string
  else if (List.length a =? 0) || (List.length b =? 0) then
    Exits 1 "EMPTY VECTOR AS ARGUMENT!"%string
  else
    Returns (zip_with orb a b).

(** [LogicalNot(const Vector<bool>&)]. *)
Definition LogicalNot_vector (a : list bool) : call (list bool) :=
  let b := map negb a in
  if List.length a =? 0 then
    Exits 1 "EMPTY VECTOR AS ARGUMENT!"%string
  else
    Returns b.

(** The representation invariant of a matrix: each column has one
    coefficient per row. *)
Definition well_formed {A} (m : Matrix A) : Prop :=
  Forall (fun c => List.length c = rows m) (columns m).

(** [Matrix<T>::Constant(rows, cols, value)]. *)
Definition Constant (rows cols : nat) (value : T) : Matrix T :=
  mkMatrix rows (repeat (repeat value rows) cols).

End CpuOperations.

(** ** The C library's generators

    [drand48] is the 48-bit linear congruential generator of POSIX;
    [rand] is left to the platform: its [n]-th call in a process returns
    the [n]-th term of a sequence fixed by the platform, and no function of
    this repository reseeds it. *)

Module Libc.

Record Env : Type := mkEnv {
  xsubi : Z;          (* state of the rand48 family, 48 bits *)
  rand_calls : nat;   (* number of calls of rand() so far *)
  clock : Z           (* what time(NULL) returns *)
}.

Definition two48 : Z := 2 ^ 48.

(** [srand48(seed)]: the high 32 bits are the low 32 bits of the seed, the
    low 16 bits are 0x330E. *)
Definition srand48 (seed : Z) (e : Env) : Env :=
  mkEnv (Z.lor (Z.shiftl (seed mod 2 ^ 32) 16) 0x330E) (rand_calls e) (clock e).

Definition rand48_step (x : Z) : Z := (0x5DEECE66D * x + 0xB) mod two48.

(** [drand48()]: steps the generator and returns the new state over 2^48. *)
Definition drand48 (e : Env) : T * Env :=
  let x := rand48_step (xsubi e) in
  (Fin (Qmake x (2 ^ 48)), mkEnv x (rand_calls e) (clock e)).

(** [rand()], for the platform's sequence [rand_seq]. *)
Definition rand (rand_seq : nat -> Z) (e : Env) : Z * Env :=
  (rand_seq (rand_calls e), mkEnv (xsubi e) (S (rand_calls e)) (clock e)).

End Libc.
Export Libc.

(** ** The K-Means engine *)

Module KMeans.

(** What the engine takes from its platform: the format of [T], the
    content of coefficients left uninitialised by a resize, the sequence
    of [rand()], and whether the allocator grants a buffer of [n]
    coefficients of [T] ([operator new] throws [std::bad_alloc] when it
    does not). *)
Record Platform : Type := mkPlatform {
  format :> Format;
  uninit : T;
  rand_seq : nat -> Z;
  allocates : nat -> bool
}.

(** [enum InitMethodEnum {RANDOM, KMEANSPP, MANUAL}]; the field that holds
    it is an [int]. *)
Definition RANDOM : Z := 0.
Definition KMEANSPP : Z := 1.
Definition MANUAL : Z := 2.

(** The private fields of [KMeans<T>]. *)
Record KMeans : Type := mkKMeans {
  Labels : Vec;
  Random : bool;
  InitMethod : Z;
  K : nat;
  centers_ : Matrix T
}.

(** The engine together with the process-wide generators. *)
Record State : Type := mkState {
  self : KMeans;
  env : Env
}.

Inductive exn : Type :=
| too_few_points (points clusters : nat)  (* runtime_error, Cluster *)
| invalid_init_method                     (* runtime_error, Cluster *)
| sampler_reached_end                     (* runtime_error, SelectWeightedIndex *)
| bad_alloc                               (* std::bad_alloc, a resize *)
| index_out_of_range                      (* Eigen's bounds assertion *)
| division_by_zero                        (* integer remainder by zero *)
| out_of_fuel.                            (* the loop bound of the model was reached *)

Inductive outcome (A : Type) : Type :=
| Ok (a : A) (s : State)
| Throw (e : exn) (s : State).
Arguments Ok {A} _ _.
Arguments Throw {A} _ _.

Definition M (A : Type) : Type := State -> outcome A.

Definition ret {A} (a : A) : M A := fun s => Ok a s.

Definition bind {A B} (m : M A) (f : A -> M B) : M B :=
  fun s =>
    match m s with
    | Ok a s' => f a s'
    | Throw e s' => Throw e s'
    end.

Definition throw {A} (e : exn) : M A := fun s => Throw e s.

Definition get : M State := fun s => Ok s s.

Definition set_self (f : KMeans -> KMeans) : M unit :=
  fun s => Ok tt (mkState (f (self s)) (env s)).

Definition set_env (f : Env -> Env) : M unit :=
  fun s => Ok tt (mkState (self s) (f (env s))).

Declare Scope kmeans_scope.
Delimit Scope kmeans_scope with kmeans.
Notation "x <- m ;; k" := (bind m (fun x => k))
  (at level 61, m at next level, right associativity) : kmeans_scope.
Notation "m ;;; k" := (bind m (fun _ => k))
  (at level 61, right associativity) : kmeans_scope.
Local Open Scope kmeans_scope.

(** [for (x : l) body(x)]. *)
Fixpoint for_each {A} (l : list A) (body : A -> M unit) : M unit :=
  match l with
  | [] => ret tt
  | x :: l' => body x ;;; for_each l' body
  end.

Definition with_Labels (l : Vec) (k : KMeans) : KMeans :=
  mkKMeans l (Random k) (InitMethod k) (K k) (centers_ k).

Definition with_K (n : nat) (k : KMeans) : KMeans :=
  mkKMeans (Labels k) (Random k) (InitMethod k) n (centers_ k).

Definition with_centers (c : Matrix T) (k : KMeans) : KMeans :=
  mkKMeans (Labels k) (Random k) (InitMethod k) (K k) c.

(** [centers_.col(i) = v]. *)
Definition assign_center (i : nat) (v : Vec) : M unit :=
  s <- get ;;
  match set_col (centers_ (self s)) i v with
  | Some c => set_self (with_centers c)
  | None => throw index_out_of_range
  end.

(** [Labels(i) = x]. *)
Definition assign_label (i : nat) (x : T) : M unit :=
  s <- get ;;
  match list_set (Labels (self s)) i x with
  | Some l => set_self (with_Labels l)
  | None => throw index_out_of_range
  end.

Section Steps.

Variable F : Format.

(** [GetIndicesWithLabel]. *)
Definition GetIndicesWithLabel (labels : Vec) (label : T) : list nat :=
  filter (fun i => Teqb (nth i labels NaN) label) (seq 0 (length labels)).

(** [GetPointsWithLabel]. *)
Definition GetPointsWithLabel (input_data : Matrix T) (labels : Vec) (label : T)
  : Matrix T :=
  mkMatrix (rows input_data)
           (map (col input_data) (GetIndicesWithLabel labels label)).

(** *** [SelectWeightedIndex] *)

(** [std::map<T, unsigned int>]: two keys are the same key when neither is
    less than the other. *)
Definition weights_map : Type := list (T * nat).

Definition key_equiv (a b : T) : bool := negb (Tltb a b) && negb (Tltb b a).

(** [m[k] = v]. *)
Fixpoint map_assign (m : weights_map) (k : T) (v : nat) : weights_map :=
  match m with
  | [] => [(k, v)]
  | (k', v') :: m' =>
      if key_equiv k' k then (k', v) :: m' else (k', v') :: map_assign m' k v
  end.

Fixpoint map_find (m : weights_map) (k : T) : option nat :=
  match m with
  | [] => None
  | (k', v') :: m' => if key_equiv k' k then Some v' else map_find m' k
  end.

(** [m[k]], read: an absent key is inserted with value 0. *)
Definition map_at (m : weights_map) (k : T) : nat :=
  match map_find m k with
  | Some v => v
  | None => 0
  end.

Definition build_index_map (normalizedWeights : Vec) : weights_map :=
  fold_left (fun m i => map_assign m (nth i normalizedWeights NaN) i)
            (seq 0 (length normalizedWeights)) [].

(** The scan over the sorted weights; [None] when the end is reached. *)
Fixpoint scan_weights (randomValue : T) (m : weights_map) (runningTotal : T)
         (sorted : list T) : option nat :=
  match sorted with
  | [] => None
  | weight :: rest =>
      let runningTotal' := Tadd F runningTotal weight in
      if Tltb randomValue runningTotal' then Some (map_at m weight)
      else scan_weights randomValue m runningTotal' rest
  end.

(** The body of [SelectWeightedIndex] for the value drawn. *)
Definition SelectWeightedIndex_at (weights : Vec) (randomValue : T) : option nat :=
  let normalizedWeights := Vdiv F weights (sum F weights) in
  let weights_index_map := build_index_map normalizedWeights in
  scan_weights randomValue weights_index_map Tzero (sort normalizedWeights).

(** [(T)drand48()]. *)
Definition draw : M T :=
  fun s => let '(r, e) := drand48 (env s) in Ok (fl F r) (mkState (self s) e).

Definition SelectWeightedIndex (weights : Vec) : M nat :=
  randomValue <- draw ;;
  match SelectWeightedIndex_at weights randomValue with
  | Some i => ret i
  | None => throw sampler_reached_end
  end.

(** *** Assignment and update *)

(** [CheckChanged]. *)
Definition CheckChanged (labels oldLabels : Vec) : bool :=
  existsb (fun i => negb (Teqb (nth i labels NaN) (nth i oldLabels NaN)))
          (seq 0 (length labels)).

(** One turn of the loop of [FindClosestCluster]. *)
Definition closest_step (centers : Matrix T) (queryPoint : Vec)
           (acc : nat * T) (i : nat) : nat * T :=
  let dist := norm F (Vsub F (col centers i) queryPoint) in
  if Tltb dist (snd acc) then (i, dist) else acc.

(** [FindClosestCluster]. *)
Definition FindClosestCluster (centers : Matrix T) (queryPoint : Vec)
           (num_cluster : nat) : nat :=
  fst (fold_left (closest_step centers queryPoint) (seq 0 num_cluster)
                 (0, Fin (T_max F))).

(** [AssignLabels]. *)
Definition AssignLabels (input_data : Matrix T) : M unit :=
  for_each (seq 0 (cols input_data)) (fun point =>
    s <- get ;;
    let closestCluster :=
      FindClosestCluster (centers_ (self s)) (col input_data point) (K (self s)) in
    assign_label point (T_of_nat closestCluster)).

(** [EstimateNewCenters]. *)
Definition EstimateNewCenters (input_data : Matrix T) : M unit :=
  s0 <- get ;;
  let oldCenters := centers_ (self s0) in
  for_each (seq 0 (K (self s0))) (fun cluster =>
    s <- get ;;
    let classPoints :=
      GetPointsWithLabel input_data (Labels (self s)) (T_of_nat cluster) in
    let center :=
      if cols classPoints =? 0 then col oldCenters cluster
      else rowwise_mean F classPoints in
    assign_center cluster center).

(** *** Initialisation *)

(** [GetRandomPointInBounds]. *)
Fixpoint random_coordinates (bounds : list (T * T)) : M Vec :=
  match bounds with
  | [] => ret []
  | (lo, hi) :: rest =>
      let range := Tsub F hi lo in
      r <- draw ;;
      let randomValue := Tadd F (Tmul F r range) lo in
      v <- random_coordinates rest ;;
      ret (randomValue :: v)
  end.

Definition GetRandomPointInBounds (input_data : Matrix T) : M Vec :=
  let minVector := rowwise_minCoeff input_data in
  let maxVector := rowwise_maxCoeff input_data in
  random_coordinates (combine minVector maxVector).

(** [RandomInit]. *)
Definition RandomInit (input_data : Matrix T) : M unit :=
  s <- get ;;
  for_each (seq 0 (K (self s))) (fun i =>
    v <- GetRandomPointInBounds input_data ;;
    assign_center i v).

(** The weight of sample [i] while centroid [cluster] is chosen. *)
Definition kmeanspp_weight (centers : Matrix T) (input_data : Matrix T)
           (cluster i : nat) : T :=
  let currentPoint := col input_data i in
  let closestCluster := FindClosestCluster centers currentPoint cluster in
  squaredNorm F (Vsub F (col centers closestCluster) currentPoint).

(** *** The loop *)

(** The [do ... while (changed)] of [Cluster], bounded by [fuel] turns;
    it returns [iter]. *)
Fixpoint Cluster_loop (fuel : nat) (input_data : Matrix T) (oldLabels : Vec)
         (iter : nat) : M nat :=
  match fuel with
  | O => throw out_of_fuel
  | S fuel' =>
      AssignLabels input_data ;;;
      EstimateNewCenters input_data ;;;
      s <- get ;;
      let changed := CheckChanged (Labels (self s)) oldLabels in
      if changed then Cluster_loop fuel' input_data (Labels (self s)) (S iter)
      else ret (S iter)
  end.

(** *** Diagnostics *)

(** The contribution of cluster [i] in [ComputeMLEVariance]. *)
Definition cluster_variance (km : KMeans) (input_data : Matrix T) (i : nat) : T :=
  let indicesWithLabel := GetIndicesWithLabel (Labels km) (T_of_nat i) in
  let variance := Tzero in
  let clusterCenter := col (centers_ km) i in
  let variance :=
    fold_left (fun v j =>
                 Tadd F v (norm F (Vsub F clusterCenter (col input_data j))))
              indicesWithLabel variance in
  Tdiv F variance (T_of_nat (length indicesWithLabel)).

(** [ComputeMLEVariance]. *)
Definition ComputeMLEVariance (km : KMeans) (input_data : Matrix T) : T :=
  fold_left (fun overall_variance i =>
               Tadd F overall_variance (cluster_variance km input_data i))
            (seq 0 (K km)) Tzero.

(** [ClosestPointIndex]: the scan of [FindClosestCluster] over the samples
    of a dataset. *)
Definition ClosestPointIndex (input_data : Matrix T) (queryPoint : Vec) : nat :=
  fst (fold_left (closest_step input_data queryPoint)
                 (seq 0 (cols input_data)) (0, Fin (T_max F))).

(** Whether [pointId] is one of [excludedIds]. *)
Definition contains (excludedIds : list nat) (pointId : nat) : bool :=
  existsb (fun id => id =? pointId) excludedIds.

(** One turn of the loop of [ClosestPointDistanceExcludingIds]. *)
Definition excluding_step (input_data : Matrix T) (queryPoint : Vec)
           (excludedIds : list nat) (minDist : T) (pointId : nat) : T :=
  if contains excludedIds pointId then minDist
  else
    let dist := norm F (Vsub F (col input_data pointId) queryPoint) in
    if Tltb dist minDist then dist else minDist.

(** [ClosestPointDistanceExcludingIds]: the scan starts from infinity. *)
Definition ClosestPointDistanceExcludingIds (input_data : Matrix T)
           (queryPoint : Vec) (excludedIds : list nat) : T :=
  fold_left (excluding_step input_data queryPoint excludedIds)
            (seq 0 (cols input_data)) PInf.

(** [ClosestPointDistanceExcludingId]. *)
Definition ClosestPointDistanceExcludingId (input_data : Matrix T)
           (queryPoint : Vec) (excludedId : nat) : T :=
  ClosestPointDistanceExcludingIds input_data queryPoint [excludedId].

End Steps.

(** *** Resizes *)

(** [m.resize(r, c)] and [v.resize(n)].  Nothing happens when the shape
    is kept.  Eigen frees the buffer and allocates a new one when the
    number of coefficients changes and is not zero.  The coefficients are
    then unspecified (uninitialised memory, or the old buffer read in the
    new shape); the model fills them with [uninit]. *)
Definition reallocates (size size' : nat) : bool :=
  negb (size' =? size) && negb (size' =? 0).

Section Engine.

Variable P : Platform.

Definition resize_matrix (m : Matrix T) (r c : nat) : option (Matrix T) :=
  if reallocates (rows m * cols m) (r * c) && negb (allocates P (r * c)) then None
  else if (rows m =? r) && (cols m =? c) then Some m
  else Some (mkMatrix r (repeat (repeat (uninit P) r) c)).

Definition resize_vector (v : Vec) (n : nat) : option Vec :=
  if reallocates (length v) n && negb (allocates P n) then None
  else if length v =? n then Some v
  else Some (repeat (uninit P) n).

(** [centers_.resize(r, c)], [Labels.resize(n)]. *)
Definition resize_centers (r c : nat) : M unit :=
  s <- get ;;
  match resize_matrix (centers_ (self s)) r c with
  | Some m => set_self (with_centers m)
  | None => throw bad_alloc
  end.

Definition resize_Labels (n : nat) : M unit :=
  s <- get ;;
  match resize_vector (Labels (self s)) n with
  | Some l => set_self (with_Labels l)
  | None => throw bad_alloc
  end.

(** [KMeansPPInit]. *)
Definition KMeansPPInit (input_data : Matrix T) : M unit :=
  s <- get ;;
  let '(r, e) := rand (rand_seq P) (env s) in
  set_env (fun _ => e) ;;;
  if cols input_data =? 0 then throw division_by_zero else
  let randomId := Z.to_nat (Z.rem r (Z.of_nat (cols input_data))) in
  assign_center 0 (col input_data randomId) ;;;
  for_each (seq 1 (K (self s) - 1)) (fun cluster =>
    s' <- get ;;
    let weights :=
      map (kmeanspp_weight P (centers_ (self s')) input_data cluster)
          (seq 0 (cols input_data)) in
    selectedPointId <- SelectWeightedIndex P weights ;;
    assign_center cluster (col input_data selectedPointId)).

(** [Cluster]. *)
Definition Cluster (fuel : nat) (input_data : Matrix T) : M nat :=
  s <- get ;;
  if cols input_data <? K (self s) then
    throw (too_few_points (cols input_data) (K (self s)))
  else
    set_env (fun e => if Random (self s) then srand48 (clock e mod 2 ^ 32) e
                      else srand48 0 e) ;;;
    (if (InitMethod (self s) =? RANDOM)%Z then RandomInit P input_data
     else if (InitMethod (self s) =? KMEANSPP)%Z then KMeansPPInit input_data
     else if (InitMethod (self s) =? MANUAL)%Z then ret tt
     else throw invalid_init_method) ;;;
    let oldLabels := Zero (cols input_data) in
    resize_Labels (cols input_data) ;;;
    Cluster_loop P fuel input_data oldLabels 0.

(** [Fit]: the [int] argument is stored in an [unsigned int]. *)
Definition Fit (fuel : nat) (input_data : Matrix T) (k : Z) : M nat :=
  set_self (with_K (Z.to_nat (k mod 2 ^ 32))) ;;;
  s <- get ;;
  resize_centers (rows input_data) (K (self s)) ;;;
  Cluster fuel input_data.

End Engine.

(** [GetLabels]. *)
Definition GetLabels (km : KMeans) : Vec := Labels km.

(** [SetRandom], [SetInitMethod]. *)
Definition SetRandom (r : bool) (km : KMeans) : KMeans :=
  mkKMeans (Labels km) r (InitMethod km) (K km) (centers_ km).

Definition SetInitMethod (method : Z) (km : KMeans) : KMeans :=
  mkKMeans (Labels km) (Random km) method (K km) (centers_ km).


End KMeans.
Export KMeans.

(** ** A concrete platform, to run the model

    Doubles on x86-64 Linux with glibc: the first values that [rand()]
    returns in a process that never called [srand], and an allocator that
    cannot grant a buffer of 2^47 bytes, the size of the address space of
    a process, and is taken to grant every smaller one. *)

Module Glibc.

Definition rand_values : list Z :=
  [1804289383; 846930886; 1681692777; 1714636915; 1957747793]%Z.

Definition rand_sequence (n : nat) : Z := nth n rand_values 0%Z.

(** [sizeof(double)] is 8. *)
Definition grants (n : nat) : bool := (Z.of_nat n * 8 <? 2 ^ 47)%Z.

Definition platform : Platform :=
  mkPlatform IEEE.binary64 (Fin 0) rand_sequence grants.

(** A fresh engine (the defaults of the class: [Random = true],
    [InitMethod = KMEANSPP]) in a fresh process at time [now]. *)
Definition fresh_engine : KMeans :=
  mkKMeans [] true KMEANSPP 0 (mkMatrix 0 []).

Definition fresh_process (now : Z) : Env := mkEnv 0 0 now.

Definition start (r : bool) (method : Z) (now : Z) : State :=
  mkState (SetInitMethod method (SetRandom r fresh_engine)) (fresh_process now).

End Glibc.

(** * Notions used to state the properties *)

(** ** Formats *)

(** [a <= b], for two values that are not NaN. *)
Definition Tle (a b : T) : Prop :=
  Tltb b a = false /\ Teqb a a = true /\ Teqb b b = true.

(** What the properties that compare computed values use of the rounding
    of a format: it is monotone, it leaves the values of the format
    unchanged, zero is one of them, and it never gives NaN. *)
Record rounds_to_nearest (F : Format) : Prop := {
  round_monotone : forall x y, (x <= y)%Q -> Tle (round F x) (round F y);
  round_fixed : forall x y, round F x = Fin y -> round F (Qred y) = Fin y;
  round_zero : round F 0 = Fin 0
}.

(** [T] is [float] or [double]. *)
Definition ieee (F : Format) : Prop := F = IEEE.binary32 \/ F = IEEE.binary64.

(** A finite value of the format: rounding leaves it unchanged. *)
Definition value_of (F : Format) (a : T) : Prop :=
  exists q, a = Fin q /\ round F (Qred q) = Fin q.

(** ** Outcomes of [Fit] *)

(** The largest value of the [int] argument of [Fit]. *)
Definition INT_MAX : Z := 2 ^ 31 - 1.

(** Whether a call returned, the state and the engine it leaves. *)
Definition completed (o : outcome nat) : bool :=
  match o with
  | Ok _ _ => true
  | Throw _ _ => false
  end.

Definition state_after (o : outcome nat) : State :=
  match o with
  | Ok _ s => s
  | Throw _ s => s
  end.

Definition engine_after_fit (o : outcome nat) : KMeans := self (state_after o).

(** What a caller observes of a call of [Fit]: the iteration count and
    the labels when it returns, the error when it throws. *)
Definition observed (o : outcome nat) : nat * Vec + exn :=
  match o with
  | Ok n s => inl (n, GetLabels (self s))
  | Throw e _ => inr e
  end.

(** A call that, when it returns, leaves the part [F] of the engine as it
    found it. *)
Definition keeps {X A} (F : KMeans -> X) (m : M A) : Prop :=
  forall s a s', m s = Ok a s' -> F (self s') = F (self s).

(** ** The weighted sampler *)

(** The sampler as the specification words it: the cumulative sum runs
    over the normalized weights in their original order, and the first
    index whose cumulative sum exceeds the value drawn is returned. *)
Fixpoint first_exceeding (F : Format) (randomValue : T) (runningTotal : T)
         (i : nat) (normalizedWeights : list T) : option nat :=
  match normalizedWeights with
  | [] => None
  | weight :: rest =>
      let runningTotal' := Tadd F runningTotal weight in
      if Tltb randomValue runningTotal' then Some i
      else first_exceeding F randomValue runningTotal' (S i) rest
  end.

Definition first_cumulative_index (F : Format) (weights : Vec) (randomValue : T)
  : option nat :=
  first_exceeding F randomValue Tzero 0 (Vdiv F weights (sum F weights)).

(** A value that is not NaN. *)
Definition is_number (a : T) : Prop := Teqb a a = true.

(** Ascending order. *)
Definition ascending (l : list T) : Prop :=
  ForallOrdPairs (fun a b => Tltb b a = false) l.

(** The sum of the first [n] weights of a list, added one after the
    other from zero. *)
Definition cumulative (F : Format) (l : list T) (n : nat) : T :=
  fold_left (Tadd F) (firstn n l) Tzero.

(** Slot [p] is the first one of the list whose cumulative sum exceeds
    [r]. *)
Definition first_slot_exceeding (F : Format) (l : list T) (r : T) (p : nat)
  : Prop :=
  p < length l /\
  Tltb r (cumulative F l (S p)) = true /\
  forall p', p' < p -> Tltb r (cumulative F l (S p')) = false.

(** Index [i] is the last one of the vector to hold the value [w]. *)
Definition last_index_of (nw : Vec) (w : T) (i : nat) : Prop :=
  i < length nw /\
  Teqb (nth i nw NaN) w = true /\
  forall j, i < j -> j < length nw -> Teqb (nth j nw NaN) w = false.

(** The position, in a map, of the entry that a key reads and writes, and
    the index held at a position. *)
Fixpoint slot (m : weights_map) (k : T) : option nat :=
  match m with
  | [] => None
  | (k', _) :: m' =>
      if key_equiv k' k then Some 0 else option_map S (slot m' k)
  end.

Definition entry_at (m : weights_map) (p : nat) : T * nat := nth p m (NaN, 0).

Definition value_at (m : weights_map) (p : nat) : nat := snd (entry_at m p).

(** What holds of the map of [SelectWeightedIndex] once the first [n]
    normalized weights are entered: the entry of weight [t] holds [t] or a
    later index, every entry is the entry of the weight whose index it
    holds, and every key is one of the weights. *)
Definition index_map_invariant (nw : Vec) (n : nat) (m : weights_map) : Prop :=
  (forall t, t < n ->
     exists p, slot m (nth t nw NaN) = Some p /\ t <= value_at m p) /\
  (forall p, p < length m ->
     value_at m p < n /\ slot m (nth (value_at m p) nw NaN) = Some p) /\
  (forall p, p < length m ->
     exists t, t < n /\ fst (entry_at m p) = nth t nw NaN).

(** ** The assignment step *)

(** The Euclidean distance of two points as [T] computes it: the
    differences of the coordinates are squared and added from the first
    coordinate on, and the square root of the sum is taken, each result
    rounded to [T]. *)
Definition euclidean (F : Format) (u v : Vec) : T :=
  Tsqrt F (fold_left (fun acc d => Tadd F acc (Tmul F d d))
                     (zip_with (Tsub F) u v) Tzero).

(** The distance of [queryPoint] to column [i]. *)
Definition distance (F : Format) (centers : Matrix T) (queryPoint : Vec)
           (i : nat) : T :=
  euclidean F (col centers i) queryPoint.

(** Among the first [n] of the distances [dist], [c] is the lowest index
    of the least distance below [limit]; it is 0 when no distance is
    below [limit]. *)
Definition lowest_nearest (dist : nat -> T) (limit : T) (n c : nat) : Prop :=
  ((forall j, j < n -> Tltb (dist j) limit = false) -> c = 0) /\
  ((exists j, j < n /\ Tltb (dist j) limit = true) ->
   c < n /\
   Tltb (dist c) limit = true /\
   (forall j, j < n -> Tltb (dist j) (dist c) = false) /\
   (forall j, j < c -> Tleb (dist j) (dist c) = false)).

(** What holds of [closestCluster] and [minDist] after [n] turns of the
    loop of [FindClosestCluster]. *)
Definition scan_invariant (dist : nat -> T) (limit : T) (n : nat)
           (acc : nat * T) : Prop :=
  (forall j, j < n -> Tltb (dist j) (snd acc) = false) /\
  ((forall j, j < n -> Tltb (dist j) limit = false) /\ acc = (0, limit) \/
   fst acc < n /\ snd acc = dist (fst acc) /\
   Tltb (dist (fst acc)) limit = true /\
   forall j, j < fst acc -> Tleb (dist j) (dist (fst acc)) = false).

(** The square of the exact distance of two points with rational
    coordinates. *)
Definition exact_squared_distance (u v : list Q) : Q :=
  fold_right Qplus 0%Q (map (fun p => (fst p - snd p) * (fst p - snd p))%Q
                            (combine u v)).

(** The label that [AssignLabels] gives to sample [point]. *)
Definition assigned_label (P : Platform) (km : KMeans) (input_data : Matrix T)
           (point : nat) : T :=
  T_of_nat (FindClosestCluster P (centers_ km) (col input_data point) (K km)).

(** A label that names one of [k] clusters. *)
Definition label_in_range (k : nat) (l : T) : Prop :=
  exists c, l = T_of_nat c /\ c < k.

(** ** The update step *)

(** The column that [EstimateNewCenters] writes for [cluster]. *)
Definition new_center (P : Platform) (oldCenters : Matrix T) (labels : Vec)
           (input_data : Matrix T) (cluster : nat) : Vec :=
  let classPoints := GetPointsWithLabel input_data labels (T_of_nat cluster) in
  if cols classPoints =? 0 then col oldCenters cluster
  else rowwise_mean P classPoints.

(** The samples of cluster [c]: the indices, in ascending order, of the
    labels equal to [c]. *)
Definition members_of (labels : Vec) (c : nat) (members : list nat) : Prop :=
  StronglySorted lt members /\
  forall i, In i members <->
            i < length labels /\ Teqb (nth i labels NaN) (T_of_nat c) = true.

(** The arithmetic mean of feature [f] over the samples [members]: their
    coefficients are added in the order of [members] and the sum is
    divided by their number.  The vector of these means over the
    features. *)
Definition feature_mean (F : Format) (input_data : Matrix T)
           (members : list nat) (f : nat) : T :=
  Tdiv F (fold_left (Tadd F) (map (fun i => coeff input_data f i) members) Tzero)
       (T_of_nat (length members)).

Definition members_mean (F : Format) (input_data : Matrix T)
           (members : list nat) : Vec :=
  map (feature_mean F input_data members) (seq 0 (rows input_data)).

(** ** The random initialisation *)

(** The vectors that [GetRandomPointInBounds] and [RandomInit] draw when
    the state of [drand48] is [x], and the state they leave. *)
Fixpoint coordinates_from (F : Format) (bounds : list (T * T)) (x : Z) : Vec * Z :=
  match bounds with
  | [] => ([], x)
  | (lo, hi) :: rest =>
      let x1 := rand48_step x in
      let r := fl F (Fin (Qmake x1 (2 ^ 48))) in
      let '(v, x2) := coordinates_from F rest x1 in
      (Tadd F (Tmul F r (Tsub F hi lo)) lo :: v, x2)
  end.

Fixpoint points_from (F : Format) (bounds : list (T * T)) (n : nat) (x : Z)
  : list Vec * Z :=
  match n with
  | O => ([], x)
  | S n' =>
      let '(v, x1) := coordinates_from F bounds x in
      let '(vs, x2) := points_from F bounds n' x1 in
      (v :: vs, x2)
  end.

Definition bounding_box (input_data : Matrix T) : list (T * T) :=
  combine (rowwise_minCoeff input_data) (rowwise_maxCoeff input_data).

(** Two engines that the loop of [Cluster] cannot tell apart on a dataset:
    same [K], same centroids in [K] columns, and a label vector of one
    entry per sample. *)
Definition alike (input_data : Matrix T) (km km' : KMeans) : Prop :=
  K km = K km' /\
  centers_ km = centers_ km' /\
  cols (centers_ km) = K km /\
  length (Labels km) = cols input_data /\
  length (Labels km') = cols input_data.

(** The resizes of [Fit] on a dataset need no buffer that the allocator
    refuses. *)
Definition resizes_granted (P : Platform) (input_data : Matrix T) (k : nat)
  : Prop :=
  allocates P (rows input_data * k) = true /\
  allocates P (cols input_data) = true.

(** ** One round of the loop *)

(** A label that is the number of a cluster. *)
Definition cluster_id (l : T) : Prop := exists c, l = T_of_nat c.

(** The labels that an assignment step writes, the centroids that an
    update step writes, and the engine after both. *)
Definition assigned_labels (P : Platform) (km : KMeans) (input_data : Matrix T)
  : Vec :=
  map (assigned_label P km input_data) (seq 0 (cols input_data)).

Definition updated_centers (P : Platform) (centers : Matrix T) (labels : Vec)
           (input_data : Matrix T) (k : nat) : Matrix T :=
  mkMatrix (rows centers)
           (map (new_center P centers labels input_data) (seq 0 k)).

Definition lloyd_round (P : Platform) (input_data : Matrix T) (km : KMeans)
  : KMeans :=
  let labels := assigned_labels P km input_data in
  with_centers (updated_centers P (centers_ km) labels input_data (K km))
               (with_Labels labels km).

(** [AssignLabels] then [EstimateNewCenters], as in the body of the loop. *)
Definition one_round (P : Platform) (input_data : Matrix T) : M unit :=
  bind (AssignLabels P input_data) (fun _ => EstimateNewCenters P input_data).

(** What holds of the engine and of [oldLabels] at the head of the loop of
    [Cluster]: the sizes agree, and from the second turn on the labels are
    those of the turn before and the centroids are the update for them. *)
Definition at_loop_head (P : Platform) (input_data : Matrix T) (km : KMeans)
           (oldLabels : Vec) (iter : nat) : Prop :=
  cols (centers_ km) = K km /\
  length (Labels km) = cols input_data /\
  length oldLabels = cols input_data /\
  Forall cluster_id oldLabels /\
  (1 <= iter ->
   Labels km = oldLabels /\
   exists previous,
     centers_ km = updated_centers P previous oldLabels input_data (K km)).

(** ** Example data *)

(** Two samples, at 0 and at 10, of one feature. *)
Definition two_samples : Matrix T := mkMatrix 1 [[Fin 0]; [Fin 10]].

(** Two samples at the same place: with two clusters and the random
    initialisation under the fixed seed, [Fit] ends with both samples in
    cluster 0 and cluster 1 without member. *)
Definition two_equal_samples : Matrix T := mkMatrix 1 [[Fin 0]; [Fin 0]].

(** The engine on [two_samples] with the centroids at the samples, before
    an assignment step. *)
Definition before_assignment : State :=
  mkState (mkKMeans [Fin 0; Fin 0] false MANUAL 2 two_samples)
          (Glibc.fresh_process 0).

(** The engine on [two_samples] after an assignment that left cluster 0
    without member. *)
Definition before_update : State :=
  mkState (mkKMeans [Fin 1; Fin 1] false MANUAL 2
                    (mkMatrix 1 [[Fin 40]; [Fin 10]]))
          (Glibc.fresh_process 0).

(** The engine on [two_samples] with room for two centroids, before the
    k-means++ initialisation. *)
Definition before_initialisation : State :=
  mkState (mkKMeans [] false KMEANSPP 2 (mkMatrix 1 [[Fin 7]; [Fin 7]]))
          (srand48 0 (Glibc.fresh_process 0)).

(** A platform of doubles whose [rand()] follows [seq], and the sequence
    that returns 1 then 0. *)
Definition doubles_with_rand (seq : nat -> Z) : Platform :=
  mkPlatform IEEE.binary64 (Fin 0) seq Glibc.grants.

Definition one_then_zero (n : nat) : Z := nth n [1; 0]%Z 0%Z.

(** One sample at 3 and two centroids, at 10^16 and at -9999999999999992:
    the second centroid is the nearer one, and both differences round to
    the same double. *)
Definition sample_at_three : Matrix T := mkMatrix 1 [[Fin 3]].

Definition far_centroids : Matrix T :=
  mkMatrix 1 [[Fin 10000000000000000]; [Fin (-9999999999999992)]].

Definition before_far_assignment : State :=
  mkState (mkKMeans [Fin 0] false MANUAL 2 far_centroids)
          (Glibc.fresh_process 0).

(** A dataset of two samples of 2^20 features each. *)
Definition many_features : nat := Z.to_nat (2 ^ 20).

Definition two_long_samples : Matrix T :=
  mkMatrix many_features
           [repeat (Fin 0) many_features; repeat (Fin 1) many_features].

(** * Properties *)

(** ** Comparisons of [T] *)

Lemma Tltb_Fin (x y : Q) : Tltb (Fin x) (Fin y) = true <-> (x < y)%Q.
Proof.
  simpl. rewrite negb_true_iff. split; intro H.
  - apply Qnot_le_lt. intro L. apply Qle_bool_iff in L. congruence.
  - destruct (Qle_bool y x) eqn:E; [|reflexivity].
    apply Qle_bool_iff in E. exfalso. exact (Qlt_not_le _ _ H E).
Qed.

Lemma Tltb_Fin_false (x y : Q) : Tltb (Fin x) (Fin y) = false <-> (y <= x)%Q.
Proof.
  simpl. rewrite negb_false_iff. apply Qle_bool_iff.
Qed.

Lemma Teqb_Fin (x y : Q) : Teqb (Fin x) (Fin y) = true <-> (x == y)%Q.
Proof. simpl. apply Qeq_bool_iff. Qed.

Lemma Tltb_irrefl (a : T) : Tltb a a = false.
Proof.
  destruct a; try reflexivity. apply Tltb_Fin_false. apply Qle_refl.
Qed.

Lemma Tltb_trans (a b c : T) :
  Tltb a b = true -> Tltb b c = true -> Tltb a c = true.
Proof.
  destruct a as [x| | |], b as [y| | |], c as [z| | |];
    try discriminate; try reflexivity.
  rewrite !Tltb_Fin. intros H1 H2. lra.
Qed.

Lemma Tleb_Tltb_trans (a b c : T) :
  Tleb a b = true -> Tltb b c = true -> Tltb a c = true.
Proof.
  unfold Tleb. intro H. apply orb_true_iff in H. destruct H as [H|H].
  - apply Tltb_trans. exact H.
  - destruct a as [x| | |], b as [y| | |]; try discriminate H;
      try (intro H'; exact H').
    destruct c as [z| | |]; try discriminate; try reflexivity.
    apply Teqb_Fin in H. rewrite !Tltb_Fin. intro H'. lra.
Qed.

Lemma Tltb_asym (a b : T) : Tltb a b = true -> Tltb b a = false.
Proof.
  destruct a as [x| | |], b as [y| | |]; try discriminate; try reflexivity.
  rewrite Tltb_Fin, Tltb_Fin_false. apply Qlt_le_weak.
Qed.

(** On numbers, not being above is transitive. *)
Lemma Tltb_false_trans (a b c : T) :
  is_number b ->
  Tltb b a = false -> Tltb c b = false -> Tltb c a = false.
Proof.
  unfold is_number.
  destruct a as [x| | |], b as [y| | |], c as [z| | |];
    try discriminate; try reflexivity.
  intros _. rewrite !Tltb_Fin_false. intros H1 H2. lra.
Qed.

Lemma Tadd_NaN_r (F : Format) (a : T) : Tadd F a NaN = NaN.
Proof. destruct a; reflexivity. Qed.

(** ** The size checks of [Add] and [LogicalAnd] *)

Module CpuOperationsFacts.
Import CpuOperations.

Lemma Add_size_mismatch (F : Format) (a b : Matrix T) :
  same_size a b = false -> is_exit (Add F a b) = true.
Proof.
  unfold same_size, Add. intro H.
  apply andb_false_iff in H.
  destruct H as [H|H]; rewrite H; simpl; try reflexivity.
  rewrite orb_true_r. reflexivity.
Qed.

Lemma LogicalAnd_size_mismatch (a b : Matrix bool) :
  same_size a b = false -> is_exit (LogicalAnd a b) = true.
Proof.
  unfold same_size, LogicalAnd. intro H.
  apply andb_false_iff in H.
  destruct H as [H|H]; rewrite H; simpl; try reflexivity.
  rewrite orb_true_r. reflexivity.
Qed.

Lemma Add_no_row (F : Format) (a b : Matrix T) :
  rows a = 0 -> is_exit (Add F a b) = true.
Proof.
  unfold Add. intro H.
  destruct (negb (rows a =? rows b) || negb (cols a =? cols b)); [reflexivity|].
  rewrite H. reflexivity.
Qed.

(** What [Add] returns on operands of one size that have rows. *)
Lemma Add_returns (F : Format) (a b : Matrix T) :
  same_size a b = true -> rows a <> 0 ->
  Add F a b = Returns (elementwise (Tadd F) a b).
Proof.
  unfold same_size, Add. intros H R.
  apply andb_true_iff in H. destruct H as [H1 H2]. rewrite H1, H2. simpl.
  apply Nat.eqb_neq in R. rewrite R. reflexivity.
Qed.

(** What [LogicalAnd] returns on operands of one size, empty or not. *)
Lemma LogicalAnd_returns (a b : Matrix bool) :
  same_size a b = true -> LogicalAnd a b = Returns (elementwise andb a b).
Proof.
  unfold same_size, LogicalAnd. intro H.
  apply andb_true_iff in H. destruct H as [H1 H2]. rewrite H1, H2. reflexivity.
Qed.

(** C9.  The operands are two matrices with three rows and no column for
    [Add], and two matrices with no row and no column for [LogicalAnd]:
    each operand is empty, the sizes agree, and both operations return a
    (empty) matrix where the other checked operations, [Subtract] and
    [LogicalOr], exit.  This holds for every format of [T]. *)
Theorem Add_LogicalAnd_return_on_empty_operands (F : Format) :
  let a := mkMatrix 3 ([] : list (list T)) in
  let b := mkMatrix 0 ([] : list (list bool)) in
  (is_empty a = true /\ Add F a a = Returns (mkMatrix 3 []) /\
   is_exit (Subtract F a a) = true) /\
  (is_empty b = true /\ LogicalAnd b b = Returns (mkMatrix 0 []) /\
   is_exit (LogicalOr b b) = true).
Proof.
  repeat split; reflexivity.
Qed.

End CpuOperationsFacts.

(** ** The monad of the engine *)

Lemma bind_Ok {A B} (m : M A) (f : A -> M B) (s s' : State) (b : B) :
  bind m f s = Ok b s' ->
  exists a s1, m s = Ok a s1 /\ f a s1 = Ok b s'.
Proof.
  unfold bind. destruct (m s) as [a s1|e s1]; intro H; [|discriminate H].
  exists a, s1. split; [reflexivity | exact H].
Qed.

Lemma bind_step {A B} (m : M A) (f : A -> M B) (s : State) (a : A) (s1 : State) :
  m s = Ok a s1 -> bind m f s = f a s1.
Proof. unfold bind. intros ->. reflexivity. Qed.

(** ** The resizes and the check of [K] against the sample count *)

Section Resize.

Variable P : Platform.

Lemma resize_matrix_size (m m' : Matrix T) (r c : nat) :
  resize_matrix P m r c = Some m' -> rows m' = r /\ cols m' = c.
Proof.
  unfold resize_matrix.
  destruct (reallocates _ _ && negb _); [discriminate|].
  destruct ((rows m =? r) && (cols m =? c)) eqn:E; intro H; injection H as <-.
  - apply andb_true_iff in E. destruct E as [E1 E2].
    apply Nat.eqb_eq in E1. apply Nat.eqb_eq in E2. auto.
  - unfold cols. simpl. rewrite repeat_length. auto.
Qed.

Lemma length_resize_vector (v v' : Vec) (n : nat) :
  resize_vector P v n = Some v' -> length v' = n.
Proof.
  unfold resize_vector.
  destruct (reallocates _ _ && negb _); [discriminate|].
  destruct (length v =? n) eqn:E; intro H; injection H as <-.
  - apply Nat.eqb_eq. exact E.
  - apply repeat_length.
Qed.

(** A resize returns when the allocator grants the buffer. *)
Lemma resize_matrix_granted (m : Matrix T) (r c : nat) :
  allocates P (r * c) = true -> exists m', resize_matrix P m r c = Some m'.
Proof.
  unfold resize_matrix. intros ->. rewrite andb_false_r.
  destruct ((rows m =? r) && (cols m =? c)); eexists; reflexivity.
Qed.

Lemma resize_vector_granted (v : Vec) (n : nat) :
  allocates P n = true -> exists v', resize_vector P v n = Some v'.
Proof.
  unfold resize_vector. intros ->. rewrite andb_false_r.
  destruct (length v =? n); eexists; reflexivity.
Qed.

(** A resize that needs a buffer that the allocator refuses throws. *)
Lemma resize_matrix_refused (m : Matrix T) (r c : nat) :
  r * c <> rows m * cols m -> r * c <> 0 -> allocates P (r * c) = false ->
  resize_matrix P m r c = None.
Proof.
  unfold resize_matrix, reallocates. intros H1 H2 ->.
  apply Nat.eqb_neq in H1. apply Nat.eqb_neq in H2. rewrite H1, H2.
  reflexivity.
Qed.

(** [Fit] sets [K], resizes [centers_] and calls [Cluster]. *)
Lemma Fit_steps (fuel : nat) (input_data : Matrix T) (k : Z) (s : State) :
  let K' := Z.to_nat (k mod 2 ^ 32) in
  Fit P fuel input_data k s =
  match resize_matrix P (centers_ (self s)) (rows input_data) K' with
  | Some centers' =>
      Cluster P fuel input_data
              (mkState (with_centers centers' (with_K K' (self s))) (env s))
  | None => Throw bad_alloc (mkState (with_K K' (self s)) (env s))
  end.
Proof.
  intro K'. unfold Fit, resize_centers, bind, set_self, get, throw.
  cbn [self env K with_K centers_]. fold K'.
  destruct (resize_matrix P (centers_ (self s)) (rows input_data) K');
    reflexivity.
Qed.

Lemma int_as_unsigned (k : Z) : (0 <= k <= INT_MAX)%Z -> (k mod 2 ^ 32 = k)%Z.
Proof. unfold INT_MAX. intro H. apply Z.mod_small. lia. Qed.

(** [Cluster] throws at once when [K] exceeds the sample count. *)
Lemma Cluster_too_few_points (fuel : nat) (input_data : Matrix T) (s : State) :
  cols input_data < K (self s) ->
  Cluster P fuel input_data s =
  Throw (too_few_points (cols input_data) (K (self s))) s.
Proof.
  intro H. apply Nat.ltb_lt in H.
  unfold Cluster, bind, get, throw. rewrite H. reflexivity.
Qed.

(** C5.  When [k] exceeds the sample count, [Fit] throws whatever the
    method, the random mode and the bound on the turns of the loop are:
    the error of [Cluster] when [centers_] could be resized to [k] columns,
    and [std::bad_alloc] when it could not, for the resize comes before the
    check.  The resize succeeds when the allocator grants the buffer.
    The state at the throw is the state at the call but for [K] and, when
    it was resized, [centers_]: the generators are neither seeded nor drawn
    from and the labels are not written. *)
Theorem Fit_too_many_clusters
        (fuel : nat) (input_data : Matrix T) (k : Z) (s : State)
        (Hk : (Z.of_nat (cols input_data) < k <= INT_MAX)%Z) :
  let resized :=
    resize_matrix P (centers_ (self s)) (rows input_data) (Z.to_nat k) in
  (forall centers', resized = Some centers' ->
     Fit P fuel input_data k s =
     Throw (too_few_points (cols input_data) (Z.to_nat k))
           (mkState (with_centers centers' (with_K (Z.to_nat k) (self s)))
                    (env s))) /\
  (resized = None ->
     Fit P fuel input_data k s =
     Throw bad_alloc (mkState (with_K (Z.to_nat k) (self s)) (env s))) /\
  (allocates P (rows input_data * Z.to_nat k) = true -> resized <> None).
Proof.
  intro resized.
  assert (Hmod : (k mod 2 ^ 32 = k)%Z) by (apply int_as_unsigned; lia).
  pose proof (Fit_steps fuel input_data k s) as Hfit. cbv zeta in Hfit.
  rewrite Hmod in Hfit. fold resized in Hfit.
  split; [|split].
  - intros centers' Hres. rewrite Hfit, Hres.
    apply Cluster_too_few_points. cbn [self K with_centers with_K]. lia.
  - intro Hres. rewrite Hfit, Hres. reflexivity.
  - intros Hgrant Hres.
    destruct (resize_matrix_granted (centers_ (self s)) (rows input_data)
                (Z.to_nat k) Hgrant) as (m' & Hm').
    unfold resized in Hres. congruence.
Qed.

End Resize.

(** Scenario B: three clusters asked on two samples. *)
Lemma Fit_too_many_clusters_witness :
  Fit Glibc.platform 0 two_samples 3
      (Glibc.start true KMEANSPP 1700000000) =
  Throw (too_few_points 2 3)
        (mkState (mkKMeans [] true KMEANSPP 3
                           (mkMatrix 1 [[Fin 0]; [Fin 0]; [Fin 0]]))
                 (Glibc.fresh_process 1700000000)).
Proof.
  apply (proj1 (Fit_too_many_clusters Glibc.platform 0 two_samples 3
                  (Glibc.start true KMEANSPP 1700000000)
                  ltac:(unfold INT_MAX; simpl; lia))).
  reflexivity.
Defined.

(** The statement of C5 fails on a dataset of two samples of 2^20
    features when [INT_MAX] clusters are asked: the centroid matrix would
    hold 2^20 (2^31 - 1) doubles, the resize throws [std::bad_alloc], and
    the check of [K] against the sample count is not reached. *)
Lemma Fit_too_many_clusters_bad_alloc :
  let s := Glibc.start true KMEANSPP 1700000000 in
  (Z.of_nat (cols two_long_samples) < INT_MAX)%Z /\
  Fit Glibc.platform 0 two_long_samples INT_MAX s =
  Throw bad_alloc (mkState (with_K (Z.to_nat INT_MAX) (self s)) (env s)).
Proof.
  intro s. split; [unfold INT_MAX; simpl; lia|].
  pose proof (Fit_steps Glibc.platform 0 two_long_samples INT_MAX s) as Hfit.
  cbv zeta in Hfit.
  rewrite (int_as_unsigned INT_MAX) in Hfit by (unfold INT_MAX; lia).
  rewrite Hfit.
  assert (Hrows : Z.of_nat (rows two_long_samples) = (2 ^ 20)%Z)
    by (cbn [rows two_long_samples]; unfold many_features;
        apply Z2Nat.id; lia).
  assert (Hk : Z.of_nat (Z.to_nat INT_MAX) = (2 ^ 31 - 1)%Z)
    by (unfold INT_MAX; apply Z2Nat.id; lia).
  rewrite resize_matrix_refused; [reflexivity | | |].
  - change (rows (centers_ (self s)) * cols (centers_ (self s))) with 0. nia.
  - nia.
  - unfold Glibc.platform, allocates, Glibc.grants.
    apply Z.ltb_ge. rewrite Nat2Z.inj_mul, Hrows, Hk. lia.
Qed.

(** * The rounding of the IEEE formats *)

(** ** Order of the values *)

Lemma Tle_Fin (a b : Q) : (a <= b)%Q -> Tle (Fin a) (Fin b).
Proof.
  intro H. unfold Tle. cbn [Tltb Teqb]. rewrite !Qeq_bool_refl.
  apply Qle_bool_iff in H. rewrite H. repeat split.
Qed.

Lemma Tle_PInf (a : T) : Teqb a a = true -> Tle a PInf.
Proof. intro H. unfold Tle. destruct a; repeat split; exact H. Qed.

Lemma Tle_trans (a b c : T) : Tle a b -> Tle b c -> Tle a c.
Proof.
  intros (H1 & Na & Nb) (H2 & _ & Nc). repeat split; try assumption.
  exact (Tltb_false_trans a b c Nb H1 H2).
Qed.

Lemma Tle_opp (a b : T) : Tle a b -> Tle (Topp b) (Topp a).
Proof.
  unfold Tle. destruct a as [x| | |], b as [y| | |]; cbn [Topp Tltb Teqb];
    intros (H & Na & Nb); try discriminate; repeat split; try reflexivity;
    try apply Qeq_bool_refl.
  apply Tltb_Fin_false in H. apply (Tltb_Fin_false (- x)%Q (- y)%Q). lra.
Qed.

Lemma Qred_Qred (q : Q) : Qred (Qred q) = Qred q.
Proof. apply Qred_complete, Qred_correct. Qed.

(** ** Powers of two and the binade of a rational *)

Module IEEEFacts.
Import IEEE.
Local Open Scope Q_scope.

Lemma two_pow_pos (e : Z) : 0 < 2 ^ e.
Proof. apply Qpower_0_lt. reflexivity. Qed.

Lemma two_pow_le (a b : Z) : (a <= b)%Z -> 2 ^ a <= 2 ^ b.
Proof. intro H. apply Qpower_le_compat_l; [exact H | discriminate]. Qed.

Lemma two_pow_lt_inv (a b : Z) : 2 ^ a < 2 ^ b -> (a < b)%Z.
Proof. intro H. apply (Qpower_lt_compat_l_inv 2); [exact H | reflexivity]. Qed.

Lemma two_pow_add (a b : Z) : 2 ^ (a + b) == 2 ^ a * 2 ^ b.
Proof. apply Qpower_plus. discriminate. Qed.

Lemma two_pow_succ (a : Z) : 2 ^ (a + 1) == 2 * 2 ^ a.
Proof. rewrite two_pow_add. change (2 ^ 1) with 2. ring. Qed.

Lemma two_pow_Z (n : Z) : (0 <= n)%Z -> inject_Z (2 ^ n) == 2 ^ n.
Proof. intro H. exact (Zpower_Qpower 2 n H). Qed.

Lemma ilog2_spec (q : Q) : 0 < q -> 2 ^ ilog2 q <= q /\ q < 2 ^ (ilog2 q + 1).
Proof.
  intro Hq. destruct q as [n d]. unfold Qlt in Hq. simpl in Hq.
  assert (Hn : (0 < n)%Z) by lia.
  destruct (Z.log2_spec n Hn) as [Hn1 Hn2].
  destruct (Z.log2_spec (Zpos d) eq_refl) as [Hd1 Hd2].
  assert (Ha := Z.log2_nonneg n). assert (Hb := Z.log2_nonneg (Zpos d)).
  unfold ilog2. cbn [Qnum Qden].
  set (a := Z.log2 n) in *. set (b := Z.log2 (Zpos d)) in *.
  assert (A1 : 2 ^ a <= inject_Z n)
    by (rewrite <- two_pow_Z by exact Ha; rewrite <- Zle_Qle; exact Hn1).
  assert (A2 : inject_Z n < 2 * 2 ^ a).
  { rewrite <- two_pow_succ, <- two_pow_Z by lia. rewrite <- Zlt_Qlt. exact Hn2. }
  assert (B1 : 2 ^ b <= inject_Z (Zpos d))
    by (rewrite <- two_pow_Z by exact Hb; rewrite <- Zle_Qle; exact Hd1).
  assert (B2 : inject_Z (Zpos d) < 2 * 2 ^ b).
  { rewrite <- two_pow_succ, <- two_pow_Z by lia. rewrite <- Zlt_Qlt. exact Hd2. }
  assert (Pa := two_pow_pos a). assert (Pb := two_pow_pos b).
  assert (Hqd : (n # d) * inject_Z (Zpos d) == inject_Z n).
  { rewrite (Qmake_Qdiv n d). field. discriminate. }
  assert (He : 2 ^ (a - b) * 2 ^ b == 2 ^ a).
  { rewrite <- two_pow_add. replace (a - b + b)%Z with a by lia. reflexivity. }
  assert (Pe := two_pow_pos (a - b)).
  assert (Pq : 0 < n # d) by (unfold Qlt; simpl; lia).
  destruct (Qle_bool (2 ^ (a - b)) (n # d)) eqn:E.
  - apply Qle_bool_iff in E. split; [exact E|].
    rewrite two_pow_succ. nra.
  - assert (E' : n # d < 2 ^ (a - b)).
    { apply Qnot_le_lt. intro H. apply Qle_bool_iff in H. congruence. }
    replace (a - b - 1 + 1)%Z with (a - b)%Z by lia. split; [|exact E'].
    assert (H2 : 2 ^ (a - b) == 2 * 2 ^ (a - b - 1)).
    { rewrite <- two_pow_succ. replace (a - b - 1 + 1)%Z with (a - b)%Z by lia.
      reflexivity. }
    nra.
Qed.

Lemma ilog2_unique (q : Q) (e : Z) :
  0 < q -> 2 ^ e <= q -> q < 2 ^ (e + 1) -> ilog2 q = e.
Proof.
  intros Hq H1 H2. destruct (ilog2_spec q Hq) as [S1 S2].
  assert (ilog2 q < e + 1)%Z by (apply two_pow_lt_inv; lra).
  assert (e < ilog2 q + 1)%Z by (apply two_pow_lt_inv; lra).
  lia.
Qed.

Lemma ilog2_comp (x y : Q) : 0 < x -> x == y -> ilog2 x = ilog2 y.
Proof.
  intros Hx E. assert (Hy : 0 < y) by (rewrite <- E; exact Hx).
  destruct (ilog2_spec y Hy) as [S1 S2].
  apply ilog2_unique; [exact Hx | rewrite E; exact S1 | rewrite E; exact S2].
Qed.

Lemma ilog2_mono (x y : Q) : 0 < x -> x <= y -> (ilog2 x <= ilog2 y)%Z.
Proof.
  intros Hx Hxy. assert (Hy : 0 < y) by lra.
  destruct (ilog2_spec x Hx) as [X1 _]. destruct (ilog2_spec y Hy) as [_ Y2].
  assert (ilog2 x < ilog2 y + 1)%Z by (apply two_pow_lt_inv; lra).
  lia.
Qed.

Lemma ilog2_ge (q : Q) (e : Z) : 0 < q -> (e <= ilog2 q)%Z -> 2 ^ e <= q.
Proof.
  intros Hq He. destruct (ilog2_spec q Hq) as [S1 _].
  apply Qle_trans with (2 ^ ilog2 q); [apply two_pow_le; exact He | exact S1].
Qed.

Lemma ilog2_lt (q : Q) (e : Z) : 0 < q -> (ilog2 q < e)%Z -> q < 2 ^ e.
Proof.
  intros Hq He. destruct (ilog2_spec q Hq) as [_ S2].
  apply Qlt_le_trans with (2 ^ (ilog2 q + 1)); [exact S2 | apply two_pow_le; lia].
Qed.

(** ** The nearest integer *)

Lemma nearest_even_comp (x y : Q) : x == y -> nearest_even x = nearest_even y.
Proof.
  intro E. unfold nearest_even. rewrite (Qfloor_comp x y E).
  assert (C : (x - inject_Z (Qfloor y) ?= 1 # 2) = (y - inject_Z (Qfloor y) ?= 1 # 2))
    by (apply Qcompare_comp; [rewrite E; reflexivity | reflexivity]).
  rewrite C. reflexivity.
Qed.

Lemma nearest_even_Z (z : Z) : nearest_even (inject_Z z) = z.
Proof.
  unfold nearest_even. rewrite Qfloor_Z.
  assert (C : (inject_Z z - inject_Z z ?= 1 # 2) = Lt)
    by (apply Qlt_alt; setoid_replace (inject_Z z - inject_Z z) with 0 by ring;
        reflexivity).
  rewrite C. reflexivity.
Qed.

Lemma nearest_even_floor (x : Q) :
  (nearest_even x = Qfloor x /\ x - inject_Z (Qfloor x) <= 1 # 2) \/
  (nearest_even x = (Qfloor x + 1)%Z /\ 1 # 2 <= x - inject_Z (Qfloor x)).
Proof.
  unfold nearest_even.
  destruct (Qcompare_spec (x - inject_Z (Qfloor x)) (1 # 2)) as [C|C|C].
  - destruct (Z.even (Qfloor x)); [left | right]; (split; [reflexivity | lra]).
  - left. split; [reflexivity | lra].
  - right. split; [reflexivity | lra].
Qed.

Lemma nearest_even_mono (x y : Q) : x <= y -> (nearest_even x <= nearest_even y)%Z.
Proof.
  intro Hxy. assert (Hf := Qfloor_resp_le x y Hxy).
  destruct (Z.eq_dec (Qfloor x) (Qfloor y)) as [E|N].
  - unfold nearest_even. rewrite E.
    destruct (Qcompare_spec (x - inject_Z (Qfloor y)) (1 # 2)) as [Cx|Cx|Cx];
      destruct (Qcompare_spec (y - inject_Z (Qfloor y)) (1 # 2)) as [Cy|Cy|Cy];
      try (exfalso; lra); destruct (Z.even (Qfloor y)); lia.
  - destruct (nearest_even_floor x) as [[-> _]|[-> _]];
      destruct (nearest_even_floor y) as [[-> _]|[-> _]]; lia.
Qed.

Lemma nearest_even_le (x : Q) (z : Z) : x <= inject_Z z -> (nearest_even x <= z)%Z.
Proof.
  intro H. rewrite <- (nearest_even_Z z). apply nearest_even_mono. exact H.
Qed.

Lemma nearest_even_ge (x : Q) (z : Z) : inject_Z z <= x -> (z <= nearest_even x)%Z.
Proof.
  intro H. rewrite <- (nearest_even_Z z). apply nearest_even_mono. exact H.
Qed.


(** ** The nearest value of a format *)

Section Rounding.

Variables prec emax : Z.
Hypothesis Hprec : (1 <= prec)%Z.

Lemma ulp_exponent_mono (x y : Q) :
  0 < x -> x <= y -> (ulp_exponent prec emax x <= ulp_exponent prec emax y)%Z.
Proof.
  intros Hx Hxy. unfold ulp_exponent. assert (H := ilog2_mono x y Hx Hxy). lia.
Qed.

Lemma ulp_exponent_comp (x y : Q) :
  0 < x -> x == y -> ulp_exponent prec emax x = ulp_exponent prec emax y.
Proof.
  intros Hx E. unfold ulp_exponent. rewrite (ilog2_comp x y Hx E). reflexivity.
Qed.

Lemma nearest_value_comp (x y : Q) :
  0 < x -> x == y -> nearest_value prec emax x == nearest_value prec emax y.
Proof.
  intros Hx E. unfold nearest_value. rewrite (ulp_exponent_comp x y Hx E).
  rewrite (nearest_even_comp (x / 2 ^ ulp_exponent prec emax y)
                             (y / 2 ^ ulp_exponent prec emax y))
    by (rewrite E; reflexivity).
  reflexivity.
Qed.

(** A multiple of the unit in the last place is left unchanged. *)
Lemma nearest_value_multiple (q : Q) (z : Z) :
  q == inject_Z z * 2 ^ ulp_exponent prec emax q -> nearest_value prec emax q == q.
Proof.
  intro E. unfold nearest_value.
  assert (P := two_pow_pos (ulp_exponent prec emax q)).
  rewrite (nearest_even_comp (q / 2 ^ ulp_exponent prec emax q) (inject_Z z)).
  - rewrite nearest_even_Z. symmetry. exact E.
  - rewrite E at 1. field. lra.
Qed.

(** Where the nearest value lies with respect to a power of two. *)
Lemma nearest_value_le (q : Q) (k : Z) :
  0 < q -> q <= 2 ^ k -> (ulp_exponent prec emax q <= k)%Z ->
  nearest_value prec emax q <= 2 ^ k.
Proof.
  intros Hq Hk Hu. unfold nearest_value.
  set (e := ulp_exponent prec emax q) in *. assert (P := two_pow_pos e).
  assert (E : 2 ^ k == inject_Z (2 ^ (k - e)) * 2 ^ e).
  { rewrite two_pow_Z by lia. rewrite <- two_pow_add.
    replace (k - e + e)%Z with k by lia. reflexivity. }
  assert (H : (nearest_even (q / 2 ^ e) <= 2 ^ (k - e))%Z).
  { apply nearest_even_le. apply Qle_shift_div_r; [exact P|].
    rewrite <- E. exact Hk. }
  rewrite E. apply Qmult_le_compat_r; [|lra]. rewrite <- Zle_Qle. exact H.
Qed.

Lemma nearest_value_ge (q : Q) (k : Z) :
  0 < q -> 2 ^ k <= q -> (ulp_exponent prec emax q <= k)%Z ->
  2 ^ k <= nearest_value prec emax q.
Proof.
  intros Hq Hk Hu. unfold nearest_value.
  set (e := ulp_exponent prec emax q) in *. assert (P := two_pow_pos e).
  assert (E : 2 ^ k == inject_Z (2 ^ (k - e)) * 2 ^ e).
  { rewrite two_pow_Z by lia. rewrite <- two_pow_add.
    replace (k - e + e)%Z with k by lia. reflexivity. }
  assert (H : (2 ^ (k - e) <= nearest_even (q / 2 ^ e))%Z).
  { apply nearest_even_ge. apply Qle_shift_div_l; [exact P|].
    rewrite <- E. exact Hk. }
  rewrite E. apply Qmult_le_compat_r; [|lra]. rewrite <- Zle_Qle. exact H.
Qed.

Lemma nearest_value_nonneg (q : Q) : 0 < q -> 0 <= nearest_value prec emax q.
Proof.
  intro Hq. unfold nearest_value.
  assert (P := two_pow_pos (ulp_exponent prec emax q)).
  apply Qmult_le_0_compat; [|lra].
  change 0 with (inject_Z 0). rewrite <- Zle_Qle. apply nearest_even_ge.
  change (inject_Z 0) with 0. apply Qle_shift_div_l; [exact P | lra].
Qed.

(** The binade of a positive rational. *)
Lemma below_next_binade (q : Q) :
  0 < q -> q < 2 ^ (ulp_exponent prec emax q + prec).
Proof.
  intro Hq. apply ilog2_lt; [exact Hq|]. unfold ulp_exponent. lia.
Qed.

Lemma nearest_value_mono (x y : Q) :
  0 < x -> x <= y -> nearest_value prec emax x <= nearest_value prec emax y.
Proof.
  intros Hx Hxy. assert (Hy : 0 < y) by lra.
  assert (Hu := ulp_exponent_mono x y Hx Hxy).
  destruct (Z.eq_dec (ulp_exponent prec emax x) (ulp_exponent prec emax y)) as [E|N].
  - unfold nearest_value. rewrite E.
    assert (P := two_pow_pos (ulp_exponent prec emax y)).
    apply Qmult_le_compat_r; [|lra]. rewrite <- Zle_Qle.
    apply nearest_even_mono. apply Qmult_le_compat_r; [exact Hxy|].
    apply Qlt_le_weak, Qinv_lt_0_compat. exact P.
  - set (k := (ulp_exponent prec emax x + prec)%Z).
    assert (Hk : (k <= ilog2 y)%Z) by (unfold k, ulp_exponent in *; lia).
    apply Qle_trans with (2 ^ k).
    + apply nearest_value_le; [exact Hx | | unfold k; lia].
      apply Qlt_le_weak, below_next_binade. exact Hx.
    + apply Qle_trans with (2 ^ ilog2 y); [apply two_pow_le; exact Hk|].
      apply nearest_value_ge; [exact Hy | | unfold k, ulp_exponent in *; lia].
      apply ilog2_ge; [exact Hy | lia].
Qed.

(** A multiple of a power of two that is not below the least unit, by a
    significand of [prec] bits, is a value of the format. *)
Lemma nearest_value_significand (q : Q) (m k : Z) :
  0 < q -> q == inject_Z m * 2 ^ k -> (m <= 2 ^ prec)%Z ->
  (1 - emax - (prec - 1) <= k)%Z ->
  nearest_value prec emax q == q.
Proof.
  intros Hq E Hm Hk.
  destruct (Z_le_gt_dec (ulp_exponent prec emax q) k) as [Hu|Hu].
  - apply (nearest_value_multiple q (m * 2 ^ (k - ulp_exponent prec emax q))).
    rewrite inject_Z_mult, two_pow_Z by lia. rewrite <- Qmult_assoc, <- two_pow_add.
    replace (k - ulp_exponent prec emax q + ulp_exponent prec emax q)%Z with k by lia.
    exact E.
  - assert (Hlow : (k + prec <= ilog2 q)%Z) by (unfold ulp_exponent in Hu; lia).
    assert (Hle : q <= 2 ^ (k + prec)).
    { rewrite E, two_pow_add, (Qmult_comm (2 ^ k)).
      apply Qmult_le_compat_r; [|apply Qlt_le_weak, two_pow_pos].
      rewrite <- two_pow_Z by lia. rewrite <- Zle_Qle. exact Hm. }
    assert (Hge : 2 ^ (k + prec) <= q) by (apply ilog2_ge; assumption).
    assert (Hil : ilog2 q = (k + prec)%Z).
    { destruct (ilog2_spec q Hq) as [S1 _].
      assert (ilog2 q < k + prec + 1)%Z; [|lia].
      apply two_pow_lt_inv. apply Qle_lt_trans with q; [exact S1|].
      apply Qle_lt_trans with (2 ^ (k + prec)); [exact Hle|].
      rewrite two_pow_succ. assert (P := two_pow_pos (k + prec)). lra. }
    assert (Hu' : ulp_exponent prec emax q = (k + 1)%Z)
      by (unfold ulp_exponent; lia).
    apply (nearest_value_multiple q (2 ^ (prec - 1))).
    rewrite Hu', two_pow_Z by lia. rewrite <- two_pow_add.
    replace (prec - 1 + (k + 1))%Z with (k + prec)%Z by lia.
    apply Qle_antisym; assumption.
Qed.

Lemma nearest_value_fixed (x : Q) :
  0 < x -> 0 < nearest_value prec emax x ->
  nearest_value prec emax (nearest_value prec emax x) == nearest_value prec emax x.
Proof.
  intros Hx Hv.
  apply (nearest_value_significand _
           (nearest_even (x / 2 ^ ulp_exponent prec emax x))
           (ulp_exponent prec emax x)).
  - exact Hv.
  - reflexivity.
  - apply nearest_even_le. assert (P := two_pow_pos (ulp_exponent prec emax x)).
    apply Qle_shift_div_r; [exact P|].
    rewrite two_pow_Z by lia. rewrite <- two_pow_add, Z.add_comm.
    apply Qlt_le_weak, below_next_binade. exact Hx.
  - unfold ulp_exponent. lia.
Qed.

(** ** Rounding *)

Lemma round_positive_cases (q : Q) :
  (round_positive prec emax q = Fin (Qred (nearest_value prec emax q)) /\
   nearest_value prec emax q <= largest prec emax) \/
  (round_positive prec emax q = PInf /\
   largest prec emax < nearest_value prec emax q).
Proof.
  unfold round_positive. cbv zeta.
  destruct (Qle_bool (Qred (nearest_value prec emax q)) (largest prec emax)) eqn:E.
  - left. split; [reflexivity|]. apply Qle_bool_iff in E.
    rewrite Qred_correct in E. exact E.
  - right. split; [reflexivity|]. apply Qnot_le_lt. intro H.
    rewrite <- (Qred_correct (nearest_value prec emax q)) in H.
    apply Qle_bool_iff in H. congruence.
Qed.

Lemma round_positive_comp (x y : Q) :
  0 < x -> x == y -> round_positive prec emax x = round_positive prec emax y.
Proof.
  intros Hx E. unfold round_positive.
  rewrite (Qred_complete _ _ (nearest_value_comp x y Hx E)). reflexivity.
Qed.

Lemma round_positive_mono (x y : Q) :
  0 < x -> x <= y -> Tle (round_positive prec emax x) (round_positive prec emax y).
Proof.
  intros Hx Hxy. assert (H := nearest_value_mono x y Hx Hxy).
  destruct (round_positive_cases x) as [[-> X]|[-> X]];
    destruct (round_positive_cases y) as [[-> Y]|[-> Y]].
  - apply Tle_Fin. rewrite !Qred_correct. exact H.
  - apply Tle_PInf. apply Qeq_bool_refl.
  - exfalso. lra.
  - apply Tle_PInf. reflexivity.
Qed.

Lemma round_positive_nonneg (q : Q) :
  0 < q -> Tle (Fin 0) (round_positive prec emax q).
Proof.
  intro Hq. destruct (round_positive_cases q) as [[-> _]|[-> _]].
  - apply Tle_Fin. rewrite Qred_correct. apply nearest_value_nonneg. exact Hq.
  - apply Tle_PInf. reflexivity.
Qed.

Lemma round_positive_fixed (x y : Q) :
  0 < x -> round_positive prec emax x = Fin y ->
  Qred y = y /\ 0 <= y /\ (0 < y -> round_positive prec emax y = Fin y).
Proof.
  intros Hx H. destruct (round_positive_cases x) as [[E L]|[E _]];
    rewrite E in H; [|discriminate H].
  assert (Hy : y = Qred (nearest_value prec emax x)) by congruence.
  subst y. clear H. assert (N := nearest_value_nonneg x Hx).
  split; [apply Qred_Qred|]. split; [rewrite Qred_correct; exact N|].
  intro Hv. rewrite Qred_correct in Hv.
  assert (F := nearest_value_fixed x Hx Hv).
  rewrite (round_positive_comp (Qred (nearest_value prec emax x))
                               (nearest_value prec emax x))
    by first [rewrite Qred_correct; exact Hv | apply Qred_correct].
  unfold round_positive. rewrite (Qred_complete _ _ F).
  assert (B : Qle_bool (Qred (nearest_value prec emax x)) (largest prec emax) = true)
    by (apply Qle_bool_iff; rewrite Qred_correct; exact L).
  rewrite B. reflexivity.
Qed.

Lemma round_cases (x : Q) :
  (x == 0 /\ round prec emax x = Fin 0) \/
  (0 < x /\ round prec emax x = round_positive prec emax x) \/
  (x < 0 /\ round prec emax x = Topp (round_positive prec emax (- x))).
Proof.
  unfold round. destruct x as [n d]. cbn [Qnum].
  destruct (Z.compare_spec n 0) as [E|L|G].
  - left. split; [|reflexivity]. subst n. reflexivity.
  - right. right. split; [|reflexivity]. unfold Qlt. simpl. lia.
  - right. left. split; [|reflexivity]. unfold Qlt. simpl. lia.
Qed.

Lemma round_is_monotone (x y : Q) :
  x <= y -> Tle (round prec emax x) (round prec emax y).
Proof.
  intro Hxy.
  assert (Z0 : Tle (Fin 0) (Fin 0)) by (apply Tle_Fin; lra).
  destruct (round_cases x) as [[Hx ->]|[[Hx ->]|[Hx ->]]];
    destruct (round_cases y) as [[Hy ->]|[[Hy ->]|[Hy ->]]];
    try (exfalso; lra).
  - exact Z0.
  - apply round_positive_nonneg. exact Hy.
  - apply round_positive_mono; assumption.
  - apply (Tle_opp (Fin 0)). apply round_positive_nonneg. lra.
  - apply Tle_trans with (Fin 0).
    + apply (Tle_opp (Fin 0)). apply round_positive_nonneg. lra.
    + apply round_positive_nonneg. exact Hy.
  - apply Tle_opp. apply round_positive_mono; lra.
Qed.

Lemma round_fixes_values (x y : Q) :
  round prec emax x = Fin y -> round prec emax (Qred y) = Fin y.
Proof.
  destruct (round_cases x) as [[Hx ->]|[[Hx ->]|[Hx ->]]]; intro H.
  - injection H as <-. reflexivity.
  - destruct (round_positive_fixed x y Hx H) as (R & N & F). rewrite R.
    destruct (round_cases y) as [[Hy E]|[[Hy E]|[Hy E]]]; rewrite E.
    + f_equal. rewrite <- R. symmetry. apply (Qred_complete y 0 Hy).
    + apply F. exact Hy.
    + exfalso. lra.
  - destruct (round_positive prec emax (- x)) as [v| | |] eqn:E;
      try discriminate H.
    cbn [Topp] in H. assert (Hy : y = - v) by congruence. subst y. clear H.
    assert (Hx' : 0 < - x) by lra.
    destruct (round_positive_fixed (- x) v Hx' E) as (R & N & F).
    destruct (round_cases (Qred (- v))) as [[Hy E']|[[Hy E']|[Hy E']]];
      rewrite E'; rewrite Qred_correct in Hy.
    + f_equal. assert (V : v == 0) by lra.
      rewrite <- R, (Qred_complete v 0 V). reflexivity.
    + exfalso. lra.
    + assert (Hv : 0 < v) by lra.
      rewrite (round_positive_comp (- Qred (- v)) v).
      * rewrite (F Hv). reflexivity.
      * rewrite Qred_correct. lra.
      * rewrite Qred_correct. ring.
Qed.

End Rounding.

Lemma format_rounds_to_nearest (prec emax : Z) :
  (1 <= prec)%Z -> rounds_to_nearest (format prec emax).
Proof.
  intro H. split; cbn [Scalar.round format].
  - apply round_is_monotone. exact H.
  - apply round_fixes_values. exact H.
  - reflexivity.
Qed.

Lemma ieee_rounds_to_nearest (F : Format) : ieee F -> rounds_to_nearest F.
Proof.
  intros [->| ->]; apply format_rounds_to_nearest; lia.
Qed.

End IEEEFacts.
(** ** [ComputeMLEVariance] on a cluster without member *)

Section Variance.

Variable P : Platform.

Lemma fold_Tadd_from_NaN {A} (f : A -> T) (l : list A) :
  fold_left (fun acc i => Tadd P acc (f i)) l NaN = NaN.
Proof.
  induction l as [|x l IH]; simpl; [reflexivity | exact IH].
Qed.

(** A cluster without member contributes zero divided by zero. *)
Lemma cluster_variance_no_member (km : KMeans) (input_data : Matrix T) (c : nat) :
  GetIndicesWithLabel (Labels km) (T_of_nat c) = [] ->
  cluster_variance P km input_data c = NaN.
Proof.
  unfold cluster_variance. intro H. rewrite H. reflexivity.
Qed.

(** The contribution of a cluster with members is the mean of the
    distances of its members to its centroid. *)
Lemma cluster_variance_members (km : KMeans) (input_data : Matrix T) (c : nat) :
  cluster_variance P km input_data c =
  Tdiv P (fold_left (Tadd P)
            (map (fun j => norm P (Vsub P (col (centers_ km) c) (col input_data j)))
                 (GetIndicesWithLabel (Labels km) (T_of_nat c)))
            Tzero)
       (T_of_nat (length (GetIndicesWithLabel (Labels km) (T_of_nat c)))).
Proof.
  unfold cluster_variance. f_equal.
  generalize Tzero.
  induction (GetIndicesWithLabel (Labels km) (T_of_nat c)) as [|j l IH];
    intro acc; simpl; [reflexivity | apply IH].
Qed.

(** C4.  As soon as one of the [K] clusters has no member, the value
    returned is NaN: the empty cluster does not contribute zero. *)
Theorem ComputeMLEVariance_empty_cluster
        (km : KMeans) (input_data : Matrix T) (c : nat)
        (Hc : c < K km)
        (Hempty : GetIndicesWithLabel (Labels km) (T_of_nat c) = []) :
  ComputeMLEVariance P km input_data = NaN.
Proof.
  unfold ComputeMLEVariance.
  replace (K km) with (c + (1 + (K km - c - 1))) by lia.
  rewrite seq_app, fold_left_app. simpl seq at 2. simpl fold_left at 1.
  rewrite (cluster_variance_no_member km input_data c Hempty).
  rewrite Tadd_NaN_r. apply fold_Tadd_from_NaN.
Qed.

End Variance.

Lemma ComputeMLEVariance_empty_cluster_witness :
  let o := Fit Glibc.platform 5 two_equal_samples 2 (Glibc.start false RANDOM 0) in
  completed o = true /\
  Labels (engine_after_fit o) = [Fin 0; Fin 0] /\
  ComputeMLEVariance Glibc.platform (engine_after_fit o) two_equal_samples = NaN.
Proof.
  split; [vm_compute; reflexivity|].
  split; [vm_compute; reflexivity|].
  apply (ComputeMLEVariance_empty_cluster Glibc.platform _ two_equal_samples 1).
  - vm_compute. lia.
  - vm_compute. reflexivity.
Defined.

(** ** The sampler on the weights of Scenario C *)

(** In [float] and in [double], 0, 1/2, 1 and 2 are values of [T]. *)
Lemma ieee_small_values (F : Format) :
  ieee F ->
  round F 0 = Fin 0 /\ round F (1 # 2) = Fin (1 # 2) /\
  round F 1 = Fin 1 /\ round F 2 = Fin 2.
Proof.
  intros [-> | ->]; repeat split; vm_compute; reflexivity.
Qed.



(** ** The scan of [FindClosestCluster] *)

Lemma fold_left_map {A B C} (f : A -> B -> A) (g : C -> B) (l : list C) (a : A) :
  fold_left f (map g l) a = fold_left (fun acc x => f acc (g x)) l a.
Proof.
  revert a. induction l as [|x l IH]; intro a; simpl; [reflexivity | apply IH].
Qed.

(** The norm of a difference is the Euclidean distance of the points. *)
Lemma norm_Vsub (F : Format) (u v : Vec) : norm F (Vsub F u v) = euclidean F u v.
Proof.
  unfold norm, squaredNorm, sum, Vsub, euclidean. f_equal. apply fold_left_map.
Qed.

Section Scan.

Variable dist : nat -> T.
Variable limit : T.

Lemma scan_invariant_start : scan_invariant dist limit 0 (0, limit).
Proof.
  split; [intros j Hj; lia|]. left. split; [intros j Hj; lia | reflexivity].
Qed.

Lemma scan_invariant_step (n : nat) (acc : nat * T) :
  scan_invariant dist limit n acc ->
  scan_invariant dist limit (S n)
                 (if Tltb (dist n) (snd acc) then (n, dist n) else acc).
Proof.
  intros [Hall Hacc].
  destruct (Tltb (dist n) (snd acc)) eqn:E.
  - split; cbn [fst snd].
    + intros j Hj. destruct (Nat.eq_dec j n) as [->|Hne];
        [apply Tltb_irrefl|].
      destruct (Tltb (dist j) (dist n)) eqn:Ej; [|reflexivity].
      specialize (Hall j ltac:(lia)).
      rewrite (Tltb_trans _ _ _ Ej E) in Hall. discriminate Hall.
    + right. split; [lia|]. split; [reflexivity|]. split.
      * destruct Hacc as [[_ ->] | (_ & Hm & Hc & _)]; [exact E|].
        rewrite Hm in E. exact (Tltb_trans _ _ _ E Hc).
      * intros j Hj.
        destruct (Tleb (dist j) (dist n)) eqn:Ej; [|reflexivity].
        specialize (Hall j Hj).
        rewrite (Tleb_Tltb_trans _ _ _ Ej E) in Hall. discriminate Hall.
  - split.
    + intros j Hj. destruct (Nat.eq_dec j n) as [->|Hne]; [exact E|].
      apply Hall. lia.
    + destruct Hacc as [[Hnone ->] | (Hc & Hm & Hlim & Hlow)].
      * left. split; [|reflexivity].
        intros j Hj. destruct (Nat.eq_dec j n) as [->|Hne]; [exact E|].
        apply Hnone. lia.
      * right. split; [lia|]. auto.
Qed.

Lemma scan_invariant_lowest_nearest (n : nat) (acc : nat * T) :
  scan_invariant dist limit n acc -> lowest_nearest dist limit n (fst acc).
Proof.
  intros [Hall Hacc]. split.
  - intro Hnone. destruct Hacc as [[_ ->] | (Hc & _ & Hlim & _)]; [reflexivity|].
    rewrite (Hnone _ Hc) in Hlim. discriminate Hlim.
  - intros (j & Hj & Hjlim).
    destruct Hacc as [[Hnone _] | (Hc & Hm & Hlim & Hlow)].
    + rewrite (Hnone j Hj) in Hjlim. discriminate Hjlim.
    + rewrite Hm in Hall. auto.
Qed.

End Scan.

Section ClosestCluster.

Variable P : Platform.
Variable centers : Matrix T.
Variable queryPoint : Vec.

Lemma closest_step_distance (acc : nat * T) (i : nat) :
  closest_step P centers queryPoint acc i =
  if Tltb (distance P centers queryPoint i) (snd acc)
  then (i, distance P centers queryPoint i) else acc.
Proof.
  unfold closest_step, distance. rewrite norm_Vsub. reflexivity.
Qed.

Lemma closest_scan_invariant (n : nat) :
  scan_invariant (distance P centers queryPoint) (Fin (T_max P)) n
                 (fold_left (closest_step P centers queryPoint) (seq 0 n)
                            (0, Fin (T_max P))).
Proof.
  induction n as [|n IH].
  - apply scan_invariant_start.
  - rewrite seq_S, fold_left_app. cbn [fold_left Nat.add].
    rewrite closest_step_distance. apply scan_invariant_step. exact IH.
Qed.

(** The index returned is below the number of clusters scanned, whatever
    the distances are. *)
Lemma closest_scan_range (n : nat) (l : list nat) (acc : nat * T) :
  Forall (fun i => i < n) l -> fst acc < n ->
  fst (fold_left (closest_step P centers queryPoint) l acc) < n.
Proof.
  revert acc. induction l as [|x l IH]; intros acc Hl Hacc; simpl.
  - exact Hacc.
  - inversion Hl as [|? ? Hx Hl']; subst.
    apply IH; [exact Hl'|].
    unfold closest_step. destruct (Tltb _ _); simpl; assumption.
Qed.

Lemma FindClosestCluster_range (n : nat) :
  0 < n -> FindClosestCluster P centers queryPoint n < n.
Proof.
  intro Hn. unfold FindClosestCluster. apply closest_scan_range.
  - apply Forall_forall. intros x Hx. apply in_seq in Hx. lia.
  - simpl. exact Hn.
Qed.

(** The index returned is the lowest index of the least distance below
    the largest finite value, and 0 when no distance is below it. *)
Lemma FindClosestCluster_lowest_nearest (n : nat) :
  lowest_nearest (distance P centers queryPoint) (Fin (T_max P)) n
                 (FindClosestCluster P centers queryPoint n).
Proof.
  unfold FindClosestCluster. apply scan_invariant_lowest_nearest.
  apply closest_scan_invariant.
Qed.

End ClosestCluster.

(** ** The assignment step *)

Lemma list_set_middle {A} (pre : list A) (x : A) (rest : list A) (v : A) :
  list_set (pre ++ x :: rest) (length pre) v = Some (pre ++ v :: rest).
Proof.
  induction pre as [|y pre IH]; simpl; [reflexivity|].
  rewrite IH. reflexivity.
Qed.

Section Assignment.

Variable P : Platform.
Variable input_data : Matrix T.

(** The loop of [AssignLabels] from sample [length done] on: the labels
    already written are kept, the others are overwritten one by one. *)
Lemma AssignLabels_loop (km : KMeans) (e : Env) (n : nat) :
  forall done rest,
    length rest = n ->
    for_each (seq (length done) n)
      (fun point =>
         bind get (fun s =>
           assign_label point
             (T_of_nat (FindClosestCluster P (centers_ (self s))
                          (col input_data point) (K (self s))))))
      (mkState (with_Labels (done ++ rest) km) e) =
    Ok tt (mkState
             (with_Labels
                (done ++ map (assigned_label P km input_data)
                             (seq (length done) n)) km) e).
Proof.
  induction n as [|n IH]; intros done rest Hlen.
  - destruct rest; [|discriminate Hlen]. reflexivity.
  - destruct rest as [|x rest]; [discriminate Hlen|].
    injection Hlen as Hlen.
    cbn [seq for_each]. unfold bind at 1 2. unfold get at 1.
    unfold assign_label at 1. unfold bind at 1. unfold get at 1.
    cbn [self with_Labels Labels centers_ K].
    rewrite list_set_middle. unfold set_self. cbn [self env with_Labels Labels
      Random InitMethod K centers_].
    specialize (IH (done ++ [T_of_nat (FindClosestCluster P (centers_ km)
                                         (col input_data (length done)) (K km))])
                   rest Hlen).
    rewrite length_app in IH. simpl length in IH.
    rewrite Nat.add_1_r in IH.
    rewrite <- app_assoc in IH. simpl app in IH.
    etransitivity; [exact IH|].
    rewrite <- app_assoc. reflexivity.
Qed.

(** [AssignLabels] always returns when the label vector has one entry per
    sample, and writes every entry. *)
Lemma AssignLabels_closed (s : State) :
  length (Labels (self s)) = cols input_data ->
  AssignLabels P input_data s =
  Ok tt (mkState
           (with_Labels (map (assigned_label P (self s) input_data)
                             (seq 0 (cols input_data)))
                        (self s))
           (env s)).
Proof.
  intro Hlen. destruct s as [km e]. destruct km as [l r i k c].
  simpl in Hlen. unfold AssignLabels.
  exact (AssignLabels_loop (mkKMeans l r i k c) e (cols input_data) [] l Hlen).
Qed.

(** C7, for the distances that [T] computes.  On a label vector of one
    entry per sample, the assignment step returns and writes only the
    labels.  The label of a sample is the lowest index among the centroids
    whose computed distance to the sample is the least, the centroids
    whose computed distance is not below the largest finite value of [T]
    left aside; it is 0 when none is left, and so when there is no
    centroid.  The computed distance is [euclidean]: rounded differences,
    squares, sum and square root. *)
Theorem AssignLabels_nearest_centroid (s : State)
        (Hlen : length (Labels (self s)) = cols input_data) :
  exists labels,
    AssignLabels P input_data s =
      Ok tt (mkState (with_Labels labels (self s)) (env s)) /\
    length labels = cols input_data /\
    forall point, point < cols input_data ->
      exists c,
        nth point labels NaN = T_of_nat c /\
        lowest_nearest
          (fun j => euclidean P (col (centers_ (self s)) j) (col input_data point))
          (Fin (T_max P)) (K (self s)) c.
Proof.
  exists (map (assigned_label P (self s) input_data) (seq 0 (cols input_data))).
  split; [apply AssignLabels_closed; exact Hlen|].
  split; [rewrite length_map, length_seq; reflexivity|].
  intros point Hpoint.
  exists (FindClosestCluster P (centers_ (self s)) (col input_data point)
                             (K (self s))).
  split.
  - rewrite (nth_indep _ NaN (assigned_label P (self s) input_data 0))
      by (rewrite length_map, length_seq; exact Hpoint).
    rewrite map_nth, seq_nth by exact Hpoint. reflexivity.
  - exact (FindClosestCluster_lowest_nearest P (centers_ (self s))
             (col input_data point) (K (self s))).
Qed.

End Assignment.

Lemma AssignLabels_nearest_centroid_witness :
  exists labels,
    AssignLabels Glibc.platform two_samples before_assignment =
      Ok tt (mkState (with_Labels labels (self before_assignment))
                     (env before_assignment)) /\
    length labels = cols two_samples /\
    forall point, point < cols two_samples ->
      exists c,
        nth point labels NaN = T_of_nat c /\
        lowest_nearest
          (fun j => euclidean Glibc.platform
                      (col (centers_ (self before_assignment)) j)
                      (col two_samples point))
          (Fin (T_max Glibc.platform)) (K (self before_assignment)) c.
Proof.
  apply (AssignLabels_nearest_centroid Glibc.platform two_samples
           before_assignment).
  reflexivity.
Defined.

(** The statement of C7 fails in [double] on the sample 3 with the
    centroids 10^16 and -9999999999999992.  The second centroid is the
    nearer one, at 9999999999999995 against 9999999999999997, but both
    differences round to 9999999999999996: the computed distances are
    equal and the sample gets label 0. *)
Lemma AssignLabels_not_nearest :
  let s := before_far_assignment in
  K (self s) = 2 /\
  (exact_squared_distance [-9999999999999992] [3] <
   exact_squared_distance [10000000000000000] [3])%Q /\
  AssignLabels Glibc.platform sample_at_three s =
  Ok tt (mkState (with_Labels [T_of_nat 0] (self s)) (env s)).
Proof.
  split; [reflexivity|]. split; vm_compute; reflexivity.
Qed.

(** ** What the steps of [Fit] leave unchanged *)


Section Keeps.

Variable P : Platform.

Context {X : Type} (F : KMeans -> X).

Lemma keeps_ret {A} (a : A) : keeps F (ret a).
Proof. intros s a' s' H. injection H as _ <-. reflexivity. Qed.

Lemma keeps_throw {A} (e : exn) : keeps F (@throw A e).
Proof. intros s a' s' H. discriminate H. Qed.

Lemma keeps_get : keeps F get.
Proof. intros s a' s' H. injection H as _ <-. reflexivity. Qed.

Lemma keeps_bind {A B} (m : M A) (f : A -> M B) :
  keeps F m -> (forall a, keeps F (f a)) -> keeps F (bind m f).
Proof.
  intros Hm Hf s b s' H.
  apply bind_Ok in H. destruct H as (a & s1 & H1 & H2).
  rewrite (Hf a s1 b s' H2). exact (Hm s a s1 H1).
Qed.

Lemma keeps_for_each {A} (l : list A) (body : A -> M unit) :
  (forall x, keeps F (body x)) -> keeps F (for_each l body).
Proof.
  intro Hb. induction l as [|x l IH]; simpl.
  - apply keeps_ret.
  - apply keeps_bind; [apply Hb | intros _; exact IH].
Qed.

Lemma keeps_set_env (f : Env -> Env) : keeps F (set_env f).
Proof. intros s a' s' H. injection H as _ <-. reflexivity. Qed.

Lemma keeps_draw : keeps F (draw P).
Proof.
  intros s a' s'. unfold draw. destruct (drand48 (env s)) as [r e].
  intro H. injection H as _ <-. reflexivity.
Qed.

Lemma keeps_SelectWeightedIndex (weights : Vec) :
  keeps F (SelectWeightedIndex P weights).
Proof.
  unfold SelectWeightedIndex. apply keeps_bind; [apply keeps_draw|].
  intro r. destruct (SelectWeightedIndex_at P weights r);
    [apply keeps_ret | apply keeps_throw].
Qed.

(** The parts of the engine that a write to [centers_] leaves alone. *)
Hypothesis F_centers : forall c km, F (with_centers c km) = F km.

Lemma keeps_assign_center (i : nat) (v : Vec) : keeps F (assign_center i v).
Proof.
  unfold assign_center. apply keeps_bind; [apply keeps_get|].
  intro s0. destruct (set_col (centers_ (self s0)) i v) as [c|].
  - intros s a' s' H. injection H as _ <-. simpl. apply F_centers.
  - apply keeps_throw.
Qed.

Lemma keeps_random_coordinates (bounds : list (T * T)) :
  keeps F (random_coordinates P bounds).
Proof.
  induction bounds as [|[lo hi] rest IH]; simpl.
  - apply keeps_ret.
  - apply keeps_bind; [apply keeps_draw|]. intro r.
    apply keeps_bind; [exact IH|]. intro v. apply keeps_ret.
Qed.

Lemma keeps_RandomInit (input_data : Matrix T) :
  keeps F (RandomInit P input_data).
Proof.
  unfold RandomInit. apply keeps_bind; [apply keeps_get|]. intro s0.
  apply keeps_for_each. intro i.
  apply keeps_bind; [apply keeps_random_coordinates|].
  intro v. apply keeps_assign_center.
Qed.

Lemma keeps_KMeansPPInit (input_data : Matrix T) :
  keeps F (KMeansPPInit P input_data).
Proof.
  unfold KMeansPPInit. apply keeps_bind; [apply keeps_get|]. intro s0.
  destruct (rand (rand_seq P) (env s0)) as [r e].
  apply keeps_bind; [apply keeps_set_env|]. intros _.
  destruct (cols input_data =? 0); [apply keeps_throw|].
  apply keeps_bind; [apply keeps_assign_center|]. intros _.
  apply keeps_for_each. intro cluster.
  apply keeps_bind; [apply keeps_get|]. intro s1.
  apply keeps_bind; [apply keeps_SelectWeightedIndex|]. intro i.
  apply keeps_assign_center.
Qed.

Lemma keeps_EstimateNewCenters (input_data : Matrix T) :
  keeps F (EstimateNewCenters P input_data).
Proof.
  unfold EstimateNewCenters. apply keeps_bind; [apply keeps_get|]. intro s0.
  apply keeps_for_each. intro cluster.
  apply keeps_bind; [apply keeps_get|]. intro s1.
  apply keeps_assign_center.
Qed.

(** The initialisation selected by [InitMethod]. *)
Lemma keeps_initialisation (input_data : Matrix T) (method : Z) :
  keeps F (if (method =? RANDOM)%Z then RandomInit P input_data
           else if (method =? KMEANSPP)%Z then KMeansPPInit P input_data
           else if (method =? MANUAL)%Z then ret tt
           else throw invalid_init_method).
Proof.
  destruct (method =? RANDOM)%Z; [apply keeps_RandomInit|].
  destruct (method =? KMEANSPP)%Z; [apply keeps_KMeansPPInit|].
  destruct (method =? MANUAL)%Z; [apply keeps_ret | apply keeps_throw].
Qed.

End Keeps.
(** ** The labels that [Fit] returns *)

Section Labels.

Variable P : Platform.
Variable input_data : Matrix T.

(** What [Labels.resize] leaves when it returns. *)
Lemma resize_Labels_Ok (n : nat) (s s' : State) :
  resize_Labels P n s = Ok tt s' ->
  exists l, length l = n /\ s' = mkState (with_Labels l (self s)) (env s).
Proof.
  unfold resize_Labels, bind, get, set_self, throw.
  destruct (resize_vector P (Labels (self s)) n) as [l|] eqn:E;
    intro H; [|discriminate H].
  injection H as <-. exists l. split; [|reflexivity].
  exact (length_resize_vector P _ _ _ E).
Qed.

(** After an assignment step with at least one cluster the label vector
    has one entry per sample and every entry names a cluster. *)
Lemma AssignLabels_range (s : State) :
  0 < K (self s) ->
  length (Labels (self s)) = cols input_data ->
  exists s',
    AssignLabels P input_data s = Ok tt s' /\
    K (self s') = K (self s) /\
    length (Labels (self s')) = cols input_data /\
    Forall (label_in_range (K (self s))) (Labels (self s')).
Proof.
  intros HK Hlen. eexists. split; [apply AssignLabels_closed; exact Hlen|].
  cbn [self Labels K with_Labels].
  split; [reflexivity|].
  split; [rewrite length_map, length_seq; reflexivity|].
  apply Forall_forall. intros l Hl. apply in_map_iff in Hl.
  destruct Hl as (point & <- & _).
  eexists. split; [reflexivity|].
  apply FindClosestCluster_range. exact HK.
Qed.

Lemma Cluster_loop_labels (fuel : nat) :
  forall oldLabels iter s r s',
    0 < K (self s) ->
    length (Labels (self s)) = cols input_data ->
    Cluster_loop P fuel input_data oldLabels iter s = Ok r s' ->
    K (self s') = K (self s) /\
    length (Labels (self s')) = cols input_data /\
    Forall (label_in_range (K (self s))) (Labels (self s')).
Proof.
  induction fuel as [|fuel IH]; intros oldLabels iter s r s' HK Hlen H.
  - discriminate H.
  - simpl in H.
    apply bind_Ok in H. destruct H as ([] & s1 & HA & H).
    apply bind_Ok in H. destruct H as ([] & s2 & HE & H).
    apply bind_Ok in H. destruct H as (s3 & s4 & HG & H).
    injection HG as <- <-.
    destruct (AssignLabels_range s HK Hlen) as (s1' & HA' & HK1 & Hlen1 & Hrange).
    rewrite HA in HA'. injection HA' as <-.
    assert (HK2 : K (self s2) = K (self s1))
      by exact (keeps_EstimateNewCenters P K (fun _ _ => eq_refl)
                  input_data _ _ _ HE).
    assert (HL2 : Labels (self s2) = Labels (self s1))
      by exact (keeps_EstimateNewCenters P Labels (fun _ _ => eq_refl)
                  input_data _ _ _ HE).
    destruct (CheckChanged (Labels (self s2)) oldLabels).
    + apply IH in H; [|lia|congruence].
      destruct H as (H1 & H2 & H3).
      rewrite HK2, HK1 in H1, H3. auto.
    + injection H as _ <-. rewrite HL2, HK2. auto.
Qed.

Lemma Cluster_labels (fuel : nat) (s : State) (r : nat) (s' : State) :
  0 < K (self s) ->
  Cluster P fuel input_data s = Ok r s' ->
  K (self s') = K (self s) /\
  length (Labels (self s')) = cols input_data /\
  Forall (label_in_range (K (self s))) (Labels (self s')).
Proof.
  intros HK H. unfold Cluster in H.
  apply bind_Ok in H. destruct H as (s0 & s0' & HG & H).
  injection HG as <- <-.
  destruct (cols input_data <? K (self s)); [discriminate H|].
  apply bind_Ok in H. destruct H as ([] & s1 & Hseed & H).
  injection Hseed as <-.
  apply bind_Ok in H. destruct H as ([] & s2 & Hinit & H).
  apply bind_Ok in H. destruct H as ([] & s3 & Hres & H).
  apply resize_Labels_Ok in Hres. destruct Hres as (l & Hl & ->).
  assert (HK2 : K (self s2) = K (self s)).
  { exact (keeps_initialisation P K (fun _ _ => eq_refl) input_data
             (InitMethod (self s)) _ _ _ Hinit). }
  apply Cluster_loop_labels in H.
  - cbn [self K with_Labels] in H. rewrite HK2 in H. exact H.
  - cbn [self K with_Labels]. lia.
  - cbn [self Labels with_Labels]. exact Hl.
Qed.

(** C8, from one cluster on.  When [Fit] returns for [1 <= k] and [k] at
    most the sample count, the label vector has one entry per sample and
    every entry is the number of one of the [k] clusters.  The same holds
    after an assignment step of the loop, which runs with [K = k] on a
    label vector of one entry per sample, and the update step that follows
    does not touch the labels. *)
Theorem Fit_labels_in_range
        (fuel : nat) (k : Z) (s : State) (iter : nat) (s' : State)
        (Hk : (1 <= k <= INT_MAX)%Z)
        (Hcols : (k <= Z.of_nat (cols input_data))%Z)
        (Hfit : Fit P fuel input_data k s = Ok iter s') :
  (K (self s') = Z.to_nat k /\
   length (Labels (self s')) = cols input_data /\
   Forall (label_in_range (Z.to_nat k)) (Labels (self s'))) /\
  (forall s1,
      K (self s1) = Z.to_nat k ->
      length (Labels (self s1)) = cols input_data ->
      exists s2,
        AssignLabels P input_data s1 = Ok tt s2 /\
        K (self s2) = Z.to_nat k /\
        length (Labels (self s2)) = cols input_data /\
        Forall (label_in_range (Z.to_nat k)) (Labels (self s2)) /\
        forall s3, EstimateNewCenters P input_data s2 = Ok tt s3 ->
                   K (self s3) = Z.to_nat k /\
                   Labels (self s3) = Labels (self s2)).
Proof.
  assert (Hmod : (k mod 2 ^ 32 = k)%Z) by (apply int_as_unsigned; lia).
  split.
  - rewrite Fit_steps in Hfit. rewrite Hmod in Hfit.
    destruct (resize_matrix P (centers_ (self s)) (rows input_data) (Z.to_nat k))
      as [centers'|]; [|discriminate Hfit].
    apply Cluster_labels in Hfit.
    + exact Hfit.
    + cbn [self K with_centers with_K]. lia.
  - intros s1 HK1 Hlen1.
    destruct (AssignLabels_range s1 ltac:(lia) Hlen1)
      as (s2 & HA & HK2 & Hlen2 & Hrange).
    exists s2. rewrite HK1 in HK2, Hrange.
    repeat split; try assumption.
    + rewrite <- HK2.
      exact (keeps_EstimateNewCenters P K (fun _ _ => eq_refl) input_data _ _ _ H).
    + exact (keeps_EstimateNewCenters P Labels (fun _ _ => eq_refl)
               input_data _ _ _ H).
Qed.

End Labels.

Lemma Fit_labels_in_range_witness :
  let o := Fit Glibc.platform 5 two_samples 2 (Glibc.start false RANDOM 0) in
  completed o = true /\
  K (engine_after_fit o) = 2 /\
  length (Labels (engine_after_fit o)) = 2 /\
  Forall (label_in_range 2) (Labels (engine_after_fit o)).
Proof.
  destruct (Fit Glibc.platform 5 two_samples 2 (Glibc.start false RANDOM 0))
    as [iter s'|e s'] eqn:Hfit; [|vm_compute in Hfit; discriminate Hfit].
  split; [reflexivity|].
  refine (proj1 (Fit_labels_in_range Glibc.platform two_samples 5 2
                   (Glibc.start false RANDOM 0) iter s' _ _ Hfit)).
  - unfold INT_MAX. lia.
  - simpl. lia.
Defined.

(** The statement of C8 fails at [K = 0], which is at most the sample
    count: with the random initialisation [Fit] returns, and every sample
    has label 0, which names none of the zero clusters. *)
Lemma Fit_labels_zero_clusters :
  let o := Fit Glibc.platform 5 two_samples 0 (Glibc.start false RANDOM 0) in
  (0 <= Z.of_nat (cols two_samples))%Z /\
  completed o = true /\
  K (engine_after_fit o) = 0 /\
  Labels (engine_after_fit o) = [Fin 0; Fin 0] /\
  ~ Forall (label_in_range (K (engine_after_fit o))) (Labels (engine_after_fit o)).
Proof.
  split; [simpl; lia|].
  split; [vm_compute; reflexivity|].
  split; [vm_compute; reflexivity|].
  split; [vm_compute; reflexivity|].
  replace (Labels _) with [Fin 0; Fin 0] by (vm_compute; reflexivity).
  replace (K _) with 0 by (vm_compute; reflexivity).
  intro H. inversion H as [|? ? (c & _ & Hc) _]. lia.
Qed.

(** ** The samples of a cluster *)

Lemma filter_seq_ascending (f : nat -> bool) (n : nat) :
  forall a, StronglySorted lt (filter f (seq a n)).
Proof.
  induction n as [|n IH]; intro a; simpl; [constructor|].
  destruct (f a); [|apply IH].
  constructor; [apply IH|].
  apply Forall_forall. intros x Hx. apply filter_In in Hx.
  destruct Hx as [Hx _]. apply in_seq in Hx. lia.
Qed.

Lemma In_GetIndicesWithLabel (labels : Vec) (label : T) (i : nat) :
  In i (GetIndicesWithLabel labels label) <->
  i < length labels /\ Teqb (nth i labels NaN) label = true.
Proof.
  unfold GetIndicesWithLabel. rewrite filter_In, in_seq. split.
  - intros [H1 H2]. split; [lia | exact H2].
  - intros [H1 H2]. split; [lia | exact H2].
Qed.

(** Two ascending lists without repetition that have the same elements
    are equal. *)
Lemma StronglySorted_lt_ext (l l' : list nat) :
  StronglySorted lt l -> StronglySorted lt l' ->
  (forall i, In i l <-> In i l') -> l = l'.
Proof.
  intro Hl. revert l'. induction Hl as [|a l Hl IH Ha]; intros l' Hl' Hin.
  - destruct l' as [|b l']; [reflexivity|].
    exfalso. apply (proj2 (Hin b)). left. reflexivity.
  - destruct Hl' as [|b l' Hl' Hb].
    + exfalso. apply (proj1 (Hin a)). left. reflexivity.
    + rewrite Forall_forall in Ha, Hb.
      assert (Hab : a = b).
      { destruct (proj1 (Hin a) (or_introl eq_refl)) as [E|E]; [auto|].
        destruct (proj2 (Hin b) (or_introl eq_refl)) as [E'|E']; [auto|].
        specialize (Ha b E'). specialize (Hb a E). lia. }
      subst b. f_equal. apply IH; [exact Hl'|].
      intro i. split; intro Hi.
      * destruct (proj1 (Hin i) (or_intror Hi)) as [E|E]; [|exact E].
        subst i. specialize (Ha a Hi). lia.
      * destruct (proj2 (Hin i) (or_intror Hi)) as [E|E]; [|exact E].
        subst i. specialize (Hb a Hi). lia.
Qed.

(** The samples of a cluster are those that [GetIndicesWithLabel] lists. *)
Lemma members_of_GetIndicesWithLabel (labels : Vec) (c : nat) (members : list nat) :
  members_of labels c members <->
  members = GetIndicesWithLabel labels (T_of_nat c).
Proof.
  split.
  - intros [Hsorted Hin]. apply StronglySorted_lt_ext.
    + exact Hsorted.
    + apply filter_seq_ascending.
    + intro i. rewrite Hin, In_GetIndicesWithLabel. reflexivity.
  - intros ->. split; [apply filter_seq_ascending|].
    intro i. apply In_GetIndicesWithLabel.
Qed.

(** ** The update step *)

Section Update.

Variable P : Platform.
Variable input_data : Matrix T.

(** The loop of [EstimateNewCenters] from cluster [length done] on. *)
Lemma EstimateNewCenters_loop (oldCenters : Matrix T) (km : KMeans) (e : Env)
      (r n : nat) :
  forall done rest,
    length rest = n ->
    for_each (seq (length done) n)
      (fun cluster =>
         bind get (fun s =>
           assign_center cluster
             (new_center P oldCenters (Labels (self s)) input_data cluster)))
      (mkState (with_centers (mkMatrix r (done ++ rest)) km) e) =
    Ok tt (mkState
             (with_centers
                (mkMatrix r
                   (done ++ map (new_center P oldCenters (Labels km) input_data)
                                (seq (length done) n)))
                km) e).
Proof.
  induction n as [|n IH]; intros done rest Hlen.
  - destruct rest; [|discriminate Hlen]. reflexivity.
  - destruct rest as [|x rest]; [discriminate Hlen|].
    injection Hlen as Hlen.
    cbn [seq for_each]. unfold bind at 1 2. unfold get at 1.
    unfold assign_center at 1. unfold bind at 1. unfold get at 1.
    cbn [self with_centers Labels centers_]. unfold set_col.
    cbn [columns rows].
    rewrite list_set_middle. unfold set_self.
    specialize (IH (done ++ [new_center P oldCenters (Labels km) input_data
                                        (length done)])
                   rest Hlen).
    rewrite length_app in IH. simpl length in IH.
    rewrite Nat.add_1_r in IH.
    rewrite <- app_assoc in IH. simpl app in IH.
    etransitivity; [exact IH|].
    rewrite <- app_assoc. reflexivity.
Qed.

(** [EstimateNewCenters] returns when [centers_] has its [K] columns, and
    rewrites each of them. *)
Lemma EstimateNewCenters_closed (s : State) :
  cols (centers_ (self s)) = K (self s) ->
  EstimateNewCenters P input_data s =
  Ok tt (mkState
           (with_centers
              (mkMatrix (rows (centers_ (self s)))
                 (map (new_center P (centers_ (self s)) (Labels (self s))
                                  input_data)
                      (seq 0 (K (self s)))))
              (self s))
           (env s)).
Proof.
  intro Hcols. destruct s as [km e]. destruct km as [l rd i k [r cs]].
  unfold cols in Hcols. simpl in Hcols.
  unfold EstimateNewCenters. unfold bind at 1. unfold get at 1.
  cbn [self centers_ K Labels env rows].
  exact (EstimateNewCenters_loop (mkMatrix r cs) (mkKMeans l rd i k (mkMatrix r cs))
           e r k [] cs Hcols).
Qed.

(** The row-wise mean of the samples of a cluster is the vector of the
    means of the features over these samples. *)
Lemma rowwise_mean_GetPointsWithLabel (labels : Vec) (label : T) :
  rowwise_mean P (GetPointsWithLabel input_data labels label) =
  members_mean P input_data (GetIndicesWithLabel labels label).
Proof.
  unfold rowwise_mean, members_mean, GetPointsWithLabel. cbn [rows].
  apply map_ext. intro f.
  unfold mean, feature_mean, row, sum. cbn [columns].
  rewrite map_map, length_map. reflexivity.
Qed.

(** C3.  In the update step, with [centers_] holding its [K] columns, a
    cluster without sample keeps its centroid and the centroid of a
    cluster with samples becomes the mean, feature by feature, of its
    samples; nothing else of the engine changes.  The samples of cluster
    [c] are the indices [i] with [Labels(i) == c]; the mean adds their
    coefficients in ascending order of the indices and divides the sum by
    their number. *)
Theorem EstimateNewCenters_columns (s : State)
        (Hcols : cols (centers_ (self s)) = K (self s)) :
  exists centers',
    EstimateNewCenters P input_data s =
      Ok tt (mkState (with_centers centers' (self s)) (env s)) /\
    cols centers' = K (self s) /\
    forall c members,
      c < K (self s) ->
      members_of (Labels (self s)) c members ->
      (members = [] -> col centers' c = col (centers_ (self s)) c) /\
      (members <> [] -> col centers' c = members_mean P input_data members).
Proof.
  eexists. split; [apply EstimateNewCenters_closed; exact Hcols|].
  split; [unfold cols; cbn [columns]; rewrite length_map, length_seq; reflexivity|].
  intros c members Hc Hmembers.
  apply members_of_GetIndicesWithLabel in Hmembers.
  assert (Hcol : col (mkMatrix (rows (centers_ (self s)))
                        (map (new_center P (centers_ (self s)) (Labels (self s))
                                         input_data)
                             (seq 0 (K (self s))))) c =
                 new_center P (centers_ (self s)) (Labels (self s)) input_data c).
  { unfold col. cbn [columns].
    rewrite (nth_indep _ []
               (new_center P (centers_ (self s)) (Labels (self s)) input_data 0))
      by (rewrite length_map, length_seq; exact Hc).
    rewrite map_nth, seq_nth by exact Hc. reflexivity. }
  rewrite Hcol. unfold new_center.
  replace (cols (GetPointsWithLabel input_data (Labels (self s)) (T_of_nat c)))
    with (length members)
    by (rewrite Hmembers; unfold cols, GetPointsWithLabel; cbn [columns];
        rewrite length_map; reflexivity).
  split; intro Hm.
  - rewrite Hm. reflexivity.
  - destruct members as [|i members'] eqn:E; [contradiction|].
    cbn [length Nat.eqb]. rewrite rowwise_mean_GetPointsWithLabel.
    rewrite <- Hmembers. reflexivity.
Qed.

End Update.

(** On [two_samples] with both labels equal to 1: cluster 0 has no sample
    and keeps its centroid 40, cluster 1 has both samples and its centroid
    becomes their mean 5. *)
Lemma EstimateNewCenters_columns_witness :
  exists centers',
    EstimateNewCenters Glibc.platform two_samples before_update =
      Ok tt (mkState (with_centers centers' (self before_update))
                     (env before_update)) /\
    cols centers' = 2 /\
    (col centers' 0 = [Fin 40]) /\
    (col centers' 1 = [Fin 5]).
Proof.
  destruct (EstimateNewCenters_columns Glibc.platform two_samples before_update
              eq_refl) as (centers' & Hrun & Hcols & Hcol).
  exists centers'. split; [exact Hrun|]. split; [exact Hcols|]. split.
  - apply (proj1 (Hcol 0 [] ltac:(simpl; lia)
                    ltac:(split; [constructor | intro i; simpl; split;
                            [contradiction | intros [Hi Hb];
                             destruct i as [|[|i]];
                             [discriminate Hb | discriminate Hb | simpl in Hi; lia]]]))).
    reflexivity.
  - rewrite (proj2 (Hcol 1 [0; 1] ltac:(simpl; lia)
                    ltac:(split; [repeat constructor; lia | intro i; simpl; split;
                            [intros [<-|[<-|[]]]; split; (lia || reflexivity)
                            | intros [Hi Hb]; lia]]))).
    + vm_compute. reflexivity.
    + discriminate.
Defined.

(** ** The map from weights to indices *)

Lemma key_equiv_refl (k : T) : key_equiv k k = true.
Proof. unfold key_equiv. rewrite Tltb_irrefl. reflexivity. Qed.

Lemma Teqb_Tltb_r (a b k : T) : Teqb a b = true -> Tltb k a = Tltb k b.
Proof.
  destruct a as [x| | |], b as [y| | |]; simpl; intro H;
    try discriminate H; try reflexivity.
  destruct k as [z| | |]; simpl; try reflexivity.
  apply Qeq_bool_iff in H. rewrite H. reflexivity.
Qed.

Lemma Teqb_Tltb_l (a b k : T) : Teqb a b = true -> Tltb a k = Tltb b k.
Proof.
  destruct a as [x| | |], b as [y| | |]; simpl; intro H;
    try discriminate H; try reflexivity.
  destruct k as [z| | |]; simpl; try reflexivity.
  apply Qeq_bool_iff in H. rewrite H. reflexivity.
Qed.

(** Two equal values read and write the same entry. *)
Lemma Teqb_slot (m : weights_map) (a b : T) :
  Teqb a b = true -> slot m a = slot m b.
Proof.
  intro H. induction m as [|[k v] m IH]; simpl; [reflexivity|].
  unfold key_equiv.
  rewrite (Teqb_Tltb_r a b k H), (Teqb_Tltb_l a b k H), IH. reflexivity.
Qed.

Lemma slot_lt (m : weights_map) (k : T) (p : nat) :
  slot m k = Some p -> p < length m.
Proof.
  revert p. induction m as [|[k' v'] m IH]; simpl; intros p H; [discriminate H|].
  destruct (key_equiv k' k).
  - injection H as <-. lia.
  - destruct (slot m k) as [q|]; [|discriminate H].
    injection H as <-. specialize (IH q eq_refl). lia.
Qed.

Lemma map_find_slot (m : weights_map) (k : T) :
  map_find m k = option_map (value_at m) (slot m k).
Proof.
  induction m as [|[k' v'] m IH]; simpl; [reflexivity|].
  destruct (key_equiv k' k); [reflexivity|].
  rewrite IH. destruct (slot m k); reflexivity.
Qed.

(** A write keeps the entry of every key that has one. *)
Lemma slot_map_assign_kept (m : weights_map) (k : T) (v : nat) (k' : T) (p : nat) :
  slot m k' = Some p -> slot (map_assign m k v) k' = Some p.
Proof.
  revert p. induction m as [|[k0 v0] m IH]; simpl; intros p H; [discriminate H|].
  destruct (key_equiv k0 k) eqn:E; simpl.
  - exact H.
  - destruct (key_equiv k0 k'); [exact H|].
    destruct (slot m k') as [q|]; [|discriminate H].
    rewrite (IH q eq_refl). exact H.
Qed.

(** The entry written: it is the entry of the key, holds the value, and
    its key is the key written or the key already there. *)
Lemma map_assign_written (m : weights_map) (k : T) (v : nat) :
  exists p,
    slot (map_assign m k v) k = Some p /\
    value_at (map_assign m k v) p = v /\
    (fst (entry_at (map_assign m k v) p) = k \/
     p < length m /\ fst (entry_at (map_assign m k v) p) = fst (entry_at m p)).
Proof.
  induction m as [|[k0 v0] m IH]; simpl.
  - exists 0. rewrite key_equiv_refl. auto.
  - destruct (key_equiv k0 k) eqn:E; simpl.
    + exists 0. rewrite E. split; [reflexivity|]. split; [reflexivity|].
      right. split; [lia | reflexivity].
    + destruct IH as (p & Hs & Hv & Hk). exists (S p).
      rewrite E, Hs. split; [reflexivity|]. split; [exact Hv|].
      destruct Hk as [Hk|[Hp Hk]]; [left; exact Hk | right].
      split; [lia | exact Hk].
Qed.

(** The other entries are those of the map before the write. *)
Lemma map_assign_others (m : weights_map) (k : T) (v : nat) (q : nat) :
  q < length (map_assign m k v) ->
  slot (map_assign m k v) k <> Some q ->
  q < length m /\ entry_at (map_assign m k v) q = entry_at m q.
Proof.
  revert q. induction m as [|[k0 v0] m IH]; simpl; intros q Hq Hs.
  - rewrite key_equiv_refl in Hs. destruct q; [congruence | lia].
  - destruct (key_equiv k0 k) eqn:E; simpl in *.
    + rewrite E in Hs. destruct q; [congruence|].
      split; [lia | reflexivity].
    + rewrite E in Hs. destruct q as [|q]; [split; [lia | reflexivity]|].
      destruct (IH q) as [H1 H2].
      * lia.
      * intro H. apply Hs. rewrite H. reflexivity.
      * split; [lia | exact H2].
Qed.

(** Each turn of the loop that fills the map keeps its invariant. *)
Lemma index_map_invariant_step (nw : Vec) (n : nat) (m : weights_map) :
  index_map_invariant nw n m ->
  index_map_invariant nw (S n) (map_assign m (nth n nw NaN) n).
Proof.
  intros (I1 & I2 & I3).
  set (k := nth n nw NaN). set (m' := map_assign m k n).
  destruct (map_assign_written m k n) as (pn & Hslot & Hval & Hkey).
  fold m' in Hslot, Hval, Hkey.
  assert (Hother : forall q, q < length m' -> q <> pn ->
                     q < length m /\ entry_at m' q = entry_at m q).
  { intros q Hq Hne. apply map_assign_others; [exact Hq|].
    fold m'. rewrite Hslot. congruence. }
  split; [|split].
  - intros t Ht. destruct (Nat.eq_dec t n) as [->|Hne].
    + exists pn. fold k. rewrite Hval. auto.
    + destruct (I1 t ltac:(lia)) as (p & Hp & Hle).
      exists p. split; [apply slot_map_assign_kept; exact Hp|].
      destruct (Nat.eq_dec p pn) as [->|Hpn].
      * rewrite Hval. lia.
      * assert (Hlt : p < length m') by
            (apply slot_lt with (k := nth t nw NaN);
             apply slot_map_assign_kept; exact Hp).
        destruct (Hother p Hlt Hpn) as [_ He].
        unfold value_at. rewrite He. exact Hle.
  - intros p Hp. destruct (Nat.eq_dec p pn) as [->|Hpn].
    + rewrite Hval. split; [lia | exact Hslot].
    + destruct (Hother p Hp Hpn) as [Hlt He].
      unfold value_at. rewrite He.
      destruct (I2 p Hlt) as [Hv Hs]. split; [unfold value_at in Hv; lia|].
      apply slot_map_assign_kept. exact Hs.
  - intros p Hp. destruct (Nat.eq_dec p pn) as [->|Hpn].
    + destruct Hkey as [Hk|[Hlt Hk]].
      * exists n. split; [lia | exact Hk].
      * rewrite Hk. destruct (I3 pn Hlt) as (t & Ht & Hkt).
        exists t. split; [lia | exact Hkt].
    + destruct (Hother p Hp Hpn) as [Hlt He]. rewrite He.
      destruct (I3 p Hlt) as (t & Ht & Hkt).
      exists t. split; [lia | exact Hkt].
Qed.

Lemma build_index_map_invariant (nw : Vec) :
  index_map_invariant nw (length nw) (build_index_map nw).
Proof.
  unfold build_index_map.
  induction (length nw) as [|n IH].
  - simpl. split; [|split]; intros x Hx; simpl in Hx; lia.
  - rewrite seq_S, fold_left_app. simpl.
    apply index_map_invariant_step. exact IH.
Qed.

(** ** The sort and the scan of [SelectWeightedIndex] *)

Lemma sort_insert_perm (x : T) (l : list T) : Permutation (sort_insert x l) (x :: l).
Proof.
  induction l as [|y l IH]; simpl; [apply Permutation_refl|].
  destruct (Tltb y x).
  - apply perm_trans with (y :: x :: l).
    + apply perm_skip. exact IH.
    + apply perm_swap.
  - apply Permutation_refl.
Qed.

Lemma sort_perm (l : list T) : Permutation (sort l) l.
Proof.
  induction l as [|x l IH]; simpl; [apply perm_nil|].
  apply perm_trans with (x :: sort l).
  - apply sort_insert_perm.
  - apply perm_skip. exact IH.
Qed.

(** The index returned by the scan is read in the map at one of the
    weights scanned. *)
Lemma scan_weights_reads (P : Platform) (r : T) (m : weights_map)
      (sorted : list T) :
  forall runningTotal i,
    scan_weights P r m runningTotal sorted = Some i ->
    exists w, In w sorted /\ i = map_at m w.
Proof.
  induction sorted as [|w rest IH]; intros runningTotal i H; simpl in H.
  - discriminate H.
  - destruct (Tltb r (Tadd P runningTotal w)).
    + injection H as <-. exists w. split; [left; reflexivity | reflexivity].
    + destruct (IH _ _ H) as (w' & Hin & Hi).
      exists w'. split; [right; exact Hin | exact Hi].
Qed.




(** ** Order of the sorted weights *)

Lemma Teqb_sym (a b : T) : Teqb a b = Teqb b a.
Proof.
  destruct a, b; simpl; try reflexivity. apply Qeq_bool_comm.
Qed.

Lemma Teqb_trans (a b c : T) :
  Teqb a b = true -> Teqb b c = true -> Teqb a c = true.
Proof.
  destruct a as [x| | |], b as [y| | |], c as [z| | |];
    try discriminate; try reflexivity.
  rewrite !Teqb_Fin. intros H1 H2. rewrite H1. exact H2.
Qed.

(** On numbers, two keys are the same key of the map exactly when they
    are equal. *)
Lemma key_equiv_Teqb (a b : T) :
  is_number a -> is_number b -> key_equiv a b = Teqb a b.
Proof.
  unfold is_number, key_equiv.
  destruct a as [x| | |], b as [y| | |]; try discriminate; try reflexivity.
  intros _ _.
  destruct (Teqb (Fin x) (Fin y)) eqn:E.
  - apply Teqb_Fin in E. rewrite andb_true_iff, !negb_true_iff, !Tltb_Fin_false.
    rewrite E. split; apply Qle_refl.
  - destruct (negb (Tltb (Fin x) (Fin y)) && negb (Tltb (Fin y) (Fin x))) eqn:E';
      [|reflexivity].
    rewrite andb_true_iff, !negb_true_iff, !Tltb_Fin_false in E'.
    destruct E' as [H1 H2].
    assert (H : Teqb (Fin x) (Fin y) = true)
      by (apply Teqb_Fin; apply Qle_antisym; assumption).
    congruence.
Qed.

Lemma sort_insert_ascending (x : T) (l : list T) :
  Forall is_number l -> ascending l -> ascending (sort_insert x l).
Proof.
  intros Hl Hasc. induction Hasc as [|y l Hy Hasc IH]; simpl.
  - constructor; constructor.
  - inversion Hl as [|? ? Hfy Hfl]; subst.
    destruct (Tltb y x) eqn:E.
    + constructor; [|apply IH; exact Hfl].
      apply (Permutation_Forall (Permutation_sym (sort_insert_perm x l))).
      constructor; [|exact Hy].
      apply Tltb_asym. exact E.
    + constructor; [|constructor; assumption].
      constructor; [exact E|].
      rewrite Forall_forall in *. intros z Hz.
      apply (Tltb_false_trans x y z); auto.
Qed.

(** [std::sort] puts weights that are numbers in ascending order. *)
Lemma sort_ascending (l : list T) : Forall is_number l -> ascending (sort l).
Proof.
  induction 1 as [|x l Hx Hl IH]; simpl; [constructor|].
  apply sort_insert_ascending; [|exact IH].
  apply (Permutation_Forall (Permutation_sym (sort_perm l))). exact Hl.
Qed.

(** ** Where the scan of the sampler stops *)

Section SamplerScan.

Variable P : Platform.
Variable r : T.
Variable m : weights_map.

(** The cumulative sums from a running total. *)
Lemma scan_weights_first (sorted : list T) :
  forall runningTotal i,
    scan_weights P r m runningTotal sorted = Some i <->
    exists p,
      p < length sorted /\
      Tltb r (fold_left (Tadd P) (firstn (S p) sorted) runningTotal) = true /\
      (forall p', p' < p ->
         Tltb r (fold_left (Tadd P) (firstn (S p') sorted) runningTotal) = false) /\
      i = map_at m (nth p sorted NaN).
Proof.
  induction sorted as [|w rest IH]; intros runningTotal i.
  - simpl. split; [discriminate|]. intros (p & Hp & _). lia.
  - cbn [scan_weights]. destruct (Tltb r (Tadd P runningTotal w)) eqn:E.
    + split.
      * intro H. injection H as <-. exists 0. cbn [firstn fold_left length nth].
        split; [lia|]. split; [exact E|]. split; [intros p' Hp'; lia | reflexivity].
      * intros (p & Hp & Hhigh & Hlow & ->).
        destruct p as [|p]; [reflexivity|].
        specialize (Hlow 0 ltac:(lia)). cbn [firstn fold_left] in Hlow.
        congruence.
    + rewrite IH. split.
      * intros (p & Hp & Hhigh & Hlow & ->). exists (S p).
        cbn [length nth]. split; [lia|]. split; [exact Hhigh|].
        split; [|reflexivity].
        intros [|p'] Hp'; [exact E|]. apply Hlow. lia.
      * intros (p & Hp & Hhigh & Hlow & ->).
        destruct p as [|p].
        -- cbn [firstn fold_left] in Hhigh. congruence.
        -- exists p. cbn [length] in Hp. split; [lia|].
           split; [exact Hhigh|]. split; [|reflexivity].
           intros p' Hp'. apply (Hlow (S p')). lia.
Qed.

End SamplerScan.

(** ** The index read back from the map *)

Lemma slot_key_equiv (m : weights_map) (k : T) (p : nat) :
  slot m k = Some p -> key_equiv (fst (entry_at m p)) k = true.
Proof.
  revert p. induction m as [|[k' v'] m IH]; simpl; intros p H; [discriminate H|].
  destruct (key_equiv k' k) eqn:E.
  - injection H as <-. exact E.
  - destruct (slot m k) as [q|]; [|discriminate H].
    injection H as <-. exact (IH q eq_refl).
Qed.

(** The index read in the map at a weight of the vector is the last index
    of the vector that holds this weight. *)
Lemma map_at_last_index (nw : Vec) (w : T) :
  Forall is_number nw -> In w nw ->
  last_index_of nw w (map_at (build_index_map nw) w).
Proof.
  intros Hnum Hin. rewrite Forall_forall in Hnum.
  destruct (build_index_map_invariant nw) as (I1 & I2 & I3).
  destruct (In_nth nw w NaN Hin) as (t & Ht & Hw).
  destruct (I1 t Ht) as (p & Hp & Hle). rewrite Hw in Hp.
  assert (Hlt : p < length (build_index_map nw)) by exact (slot_lt _ _ _ Hp).
  destruct (I2 p Hlt) as [Hv Hs]. destruct (I3 p Hlt) as (t' & Ht' & Hk).
  assert (Hi : map_at (build_index_map nw) w = value_at (build_index_map nw) p)
    by (unfold map_at; rewrite map_find_slot, Hp; reflexivity).
  rewrite Hi. set (i := value_at (build_index_map nw) p) in *.
  split; [exact Hv|]. split.
  - apply slot_key_equiv in Hp. apply slot_key_equiv in Hs.
    rewrite Hk in Hp, Hs.
    rewrite key_equiv_Teqb in Hp, Hs
      by (apply Hnum; try apply nth_In; assumption).
    rewrite Teqb_sym in Hs. exact (Teqb_trans _ _ _ Hs Hp).
  - intros j Hij Hj.
    destruct (Teqb (nth j nw NaN) w) eqn:E; [|reflexivity].
    exfalso.
    destruct (I1 j Hj) as (p' & Hp' & Hle').
    rewrite (Teqb_slot _ _ _ E), Hp in Hp'. injection Hp' as <-.
    fold i in Hle'. lia.
Qed.

Lemma last_index_of_unique (nw : Vec) (w : T) (i j : nat) :
  last_index_of nw w i -> last_index_of nw w j -> i = j.
Proof.
  intros (Hi & Ei & Li) (Hj & Ej & Lj).
  destruct (Nat.lt_trichotomy i j) as [H|[H|H]]; [|exact H|].
  - rewrite (Li j H Hj) in Ej. discriminate Ej.
  - rewrite (Lj i H Hi) in Ei. discriminate Ei.
Qed.

(** ** The sampler in ascending order of the weights *)

(** C1, for normalized weights that are numbers (none is NaN, as with
    finite weights whose sum is finite and not zero).  The normalized
    weights are sorted in ascending order and added in that order; the
    sampler stops at the first slot of the sorted weights whose cumulative
    sum exceeds the value drawn, and returns the last index, in the vector
    it was given, that holds the weight of this slot.  It returns no index
    when no cumulative sum exceeds the value drawn.  The cumulative sums
    are those that [T] computes, each addition rounded. *)
Theorem SelectWeightedIndex_ascending_order
        (P : Platform) (weights : Vec) (r : T)
        (Hnum : Forall is_number (Vdiv P weights (sum P weights))) :
  let normalizedWeights := Vdiv P weights (sum P weights) in
  let sorted := sort normalizedWeights in
  Permutation sorted normalizedWeights /\
  ascending sorted /\
  forall i,
    SelectWeightedIndex_at P weights r = Some i <->
    exists p, first_slot_exceeding P sorted r p /\
              last_index_of normalizedWeights (nth p sorted NaN) i.
Proof.
  intros nw sorted.
  assert (Hperm : Permutation sorted nw) by apply sort_perm.
  split; [exact Hperm|]. split; [apply sort_ascending; exact Hnum|].
  intro i. unfold SelectWeightedIndex_at. fold nw. fold sorted.
  rewrite scan_weights_first. unfold first_slot_exceeding, cumulative.
  split.
  - intros (p & Hp & Hhigh & Hlow & ->). exists p.
    split; [auto|].
    apply map_at_last_index; [exact Hnum|].
    apply (Permutation_in _ Hperm). apply nth_In. exact Hp.
  - intros (p & (Hp & Hhigh & Hlow) & Hlast). exists p.
    split; [exact Hp|]. split; [exact Hhigh|]. split; [exact Hlow|].
    apply (last_index_of_unique nw (nth p sorted NaN)); [exact Hlast|].
    apply map_at_last_index; [exact Hnum|].
    apply (Permutation_in _ Hperm). apply nth_In. exact Hp.
Qed.

(** On the weights 3, 1 and the value 1/8: the sorted normalized weights
    are 1/4, 3/4, the first cumulative sum exceeds 1/8, and 1/4 is the
    weight of index 1. *)
Lemma SelectWeightedIndex_ascending_order_witness :
  SelectWeightedIndex_at Glibc.platform [Fin 3; Fin 1] (Fin (1 # 8)) = Some 1 <->
  exists p,
    first_slot_exceeding Glibc.platform [Fin (1 # 4); Fin (3 # 4)] (Fin (1 # 8)) p /\
    last_index_of [Fin (3 # 4); Fin (1 # 4)] (nth p [Fin (1 # 4); Fin (3 # 4)] NaN) 1.
Proof.
  apply (proj2 (proj2 (SelectWeightedIndex_ascending_order Glibc.platform
                         [Fin 3; Fin 1] (Fin (1 # 8))
                         ltac:(repeat constructor))) 1).
Defined.

(** The statement of C1 fails on the weights 3, 1 and the value 1/8, which
    [drand48] can return.  The normalized weights are 3/4 and 1/4: the
    cumulative sum in the original order exceeds 1/8 at index 0, and the
    sampler returns index 1. *)
Lemma SelectWeightedIndex_not_original_order :
  let weights := [Fin 3; Fin 1] in
  let r := Fin (1 # 8) in
  Tltb Tzero (sum Glibc.platform weights) = true /\
  Tleb Tzero r = true /\ Tltb r (Fin 1) = true /\
  first_cumulative_index Glibc.platform weights r = Some 0 /\
  SelectWeightedIndex_at Glibc.platform weights r = Some 1.
Proof.
  repeat split; vm_compute; reflexivity.
Qed.

(** ** Two successive runs under the fixed seed *)

(** [Fit] uses [rand()] once at most, and only its remainder modulo the
    sample count. *)
Lemma Fit_rand_remainder (F : Format) (fill : T) (seq seq' : nat -> Z)
      (grants : nat -> bool) (fuel : nat) (input_data : Matrix T) (k : Z)
      (s : State) :
  Z.rem (seq (rand_calls (env s))) (Z.of_nat (cols input_data)) =
  Z.rem (seq' (rand_calls (env s))) (Z.of_nat (cols input_data)) ->
  Fit (mkPlatform F fill seq grants) fuel input_data k s =
  Fit (mkPlatform F fill seq' grants) fuel input_data k s.
Proof.
  intro H. destruct s as [km e]. destruct km as [l rd method k0 c].
  unfold Fit, resize_centers, resize_matrix, Cluster, resize_Labels,
    resize_vector, bind, get, set_self, set_env, throw.
  cbn [self env K InitMethod Random with_centers with_K uninit allocates
       format centers_].
  destruct (reallocates _ _ && negb _); [reflexivity|].
  destruct ((rows c =? _) && _);
    cbn [self env K InitMethod Random with_centers with_K centers_];
    (destruct (cols input_data <? Z.to_nat (k mod 2 ^ 32)); [reflexivity|]);
    (destruct (method =? RANDOM)%Z; [reflexivity|]);
    (destruct (method =? KMEANSPP)%Z; [|reflexivity]);
    unfold KMeansPPInit, bind, get, set_env, rand;
    cbn [self env K rand_seq format];
    simpl in H;
    destruct rd; cbn [rand_calls srand48]; rewrite H; reflexivity.
Qed.

(** C2.  Random mode off, method KMEANSPP, two samples at 0 and 10 and two
    clusters, [Fit] called twice in a process whose first two values of
    [rand()] are odd then even: both calls return, the first with labels
    1, 0 and the second with labels 0, 1.  [srand48(0)] reseeds [drand48]
    at each call, but the first centroid is drawn with [rand()]. *)
Theorem Fit_KMeansPP_not_repeatable (seq : nat -> Z)
        (Hodd : Z.rem (seq 0) 2 = 1%Z) (Heven : Z.rem (seq 1) 2 = 0%Z) :
  let P := doubles_with_rand seq in
  let first := Fit P 5 two_samples 2 (Glibc.start false KMEANSPP 0) in
  let second := Fit P 5 two_samples 2 (state_after first) in
  completed first = true /\ completed second = true /\
  GetLabels (engine_after_fit first) = [Fin 1; Fin 0] /\
  GetLabels (engine_after_fit second) = [Fin 0; Fin 1].
Proof.
  intros P first second.
  assert (E1 : first =
               Fit (doubles_with_rand one_then_zero) 5 two_samples 2
                   (Glibc.start false KMEANSPP 0)).
  { apply Fit_rand_remainder. exact Hodd. }
  assert (E2 : second =
               Fit (doubles_with_rand one_then_zero) 5 two_samples 2
                   (state_after first)).
  { apply Fit_rand_remainder. rewrite E1. exact Heven. }
  rewrite E1 in E2. rewrite E2, E1.
  repeat split; vm_compute; reflexivity.
Qed.

(** The first two values of glibc's [rand()] are 1804289383 and
    846930886. *)
Lemma Fit_KMeansPP_not_repeatable_witness :
  let P := doubles_with_rand Glibc.rand_sequence in
  let first := Fit P 5 two_samples 2 (Glibc.start false KMEANSPP 0) in
  let second := Fit P 5 two_samples 2 (state_after first) in
  completed first = true /\ completed second = true /\
  GetLabels (engine_after_fit first) = [Fin 1; Fin 0] /\
  GetLabels (engine_after_fit second) = [Fin 0; Fin 1].
Proof.
  apply (Fit_KMeansPP_not_repeatable Glibc.rand_sequence).
  - reflexivity.
  - reflexivity.
Defined.

(** ** Runs with the random initialisation under the fixed seed *)

Section Repeatable.

Variable P : Platform.
Variable input_data : Matrix T.

(** The loop observes the centroids and [K] only. *)
Lemma Cluster_loop_alike (fuel : nat) :
  forall oldLabels iter km km' e e',
    alike input_data km km' ->
    observed (Cluster_loop P fuel input_data oldLabels iter (mkState km e)) =
    observed (Cluster_loop P fuel input_data oldLabels iter (mkState km' e')).
Proof.
  induction fuel as [|fuel IH];
    intros oldLabels iter km km' e e' (HK & Hc & Hcols & Hl & Hl').
  - reflexivity.
  - cbn [Cluster_loop].
    rewrite (bind_step _ _ _ _ _
               (AssignLabels_closed P input_data (mkState km e) Hl)).
    rewrite (bind_step _ _ _ _ _
               (AssignLabels_closed P input_data (mkState km' e') Hl')).
    cbn [self env].
    rewrite (bind_step _ _ _ _ _
               (EstimateNewCenters_closed P input_data
                  (mkState (with_Labels _ km) e) Hcols)).
    assert (Hcols' : cols (centers_ km') = K km')
      by (rewrite <- Hc, <- HK; exact Hcols).
    rewrite (bind_step _ _ _ _ _
               (EstimateNewCenters_closed P input_data
                  (mkState (with_Labels _ km') e') Hcols')).
    cbn [self env centers_ with_Labels with_centers K Labels].
    unfold bind, get. cbn [self Labels with_centers with_Labels].
    assert (EL : map (assigned_label P km' input_data) (seq 0 (cols input_data)) =
                 map (assigned_label P km input_data) (seq 0 (cols input_data))).
    { apply map_ext. intro point. unfold assigned_label.
      rewrite Hc, HK. reflexivity. }
    rewrite EL, <- Hc, <- HK.
    destruct (CheckChanged _ oldLabels).
    + apply IH. unfold alike. cbn [K centers_ Labels with_centers with_Labels].
      repeat split; try reflexivity; try exact HK;
        unfold cols; cbn [columns]; rewrite ?length_map, ?length_seq; reflexivity.
    + reflexivity.
Qed.

Lemma random_coordinates_closed (bounds : list (T * T)) (km : KMeans) (e : Env) :
  random_coordinates P bounds (mkState km e) =
  Ok (fst (coordinates_from P bounds (xsubi e)))
     (mkState km (mkEnv (snd (coordinates_from P bounds (xsubi e)))
                        (rand_calls e) (clock e))).
Proof.
  revert e. induction bounds as [|[lo hi] rest IH]; intro e; simpl.
  - destruct e. reflexivity.
  - unfold bind at 1. unfold draw at 1. cbn [env self drand48].
    unfold bind at 1. rewrite IH. cbn [xsubi rand_calls clock].
    destruct (coordinates_from P rest (rand48_step (xsubi e))) as [v x2].
    reflexivity.
Qed.

(** The loop of [RandomInit] from centroid [length done] on. *)
Lemma RandomInit_loop (km : KMeans) (r n : nat) :
  forall done rest e,
    length rest = n ->
    for_each (seq (length done) n)
      (fun i => bind (GetRandomPointInBounds P input_data)
                     (fun v => assign_center i v))
      (mkState (with_centers (mkMatrix r (done ++ rest)) km) e) =
    Ok tt (mkState
             (with_centers
                (mkMatrix r
                   (done ++ fst (points_from P (bounding_box input_data) n
                                             (xsubi e))))
                km)
             (mkEnv (snd (points_from P (bounding_box input_data) n (xsubi e)))
                    (rand_calls e) (clock e))).
Proof.
  induction n as [|n IH]; intros done rest e Hlen.
  - destruct rest; [|discriminate Hlen]. destruct e. reflexivity.
  - destruct rest as [|x rest]; [discriminate Hlen|].
    injection Hlen as Hlen.
    cbn [seq for_each points_from]. unfold bind at 1 2.
    unfold GetRandomPointInBounds. fold (bounding_box input_data).
    rewrite random_coordinates_closed.
    destruct (coordinates_from P (bounding_box input_data) (xsubi e)) as [v x1].
    cbn [fst snd].
    unfold assign_center at 1. unfold bind at 1. unfold get at 1.
    cbn [self with_centers centers_]. unfold set_col. cbn [columns rows].
    rewrite list_set_middle. unfold set_self. cbn [self env].
    specialize (IH (done ++ [v]) rest
                   (mkEnv x1 (rand_calls e) (clock e)) Hlen).
    rewrite length_app in IH. simpl length in IH.
    rewrite Nat.add_1_r in IH.
    rewrite <- app_assoc in IH. simpl app in IH.
    etransitivity; [exact IH|]. cbn [xsubi rand_calls clock].
    destruct (points_from P (bounding_box input_data) n x1) as [vs x2].
    cbn [fst snd]. rewrite <- app_assoc. reflexivity.
Qed.

(** [RandomInit] rewrites the [K] columns of [centers_] with vectors that
    depend on the dataset and on the state of [drand48] only. *)
Lemma RandomInit_closed (km : KMeans) (e : Env) :
  cols (centers_ km) = K km ->
  RandomInit P input_data (mkState km e) =
  Ok tt (mkState
           (with_centers
              (mkMatrix (rows (centers_ km))
                        (fst (points_from P (bounding_box input_data) (K km)
                                          (xsubi e))))
              km)
           (mkEnv (snd (points_from P (bounding_box input_data) (K km) (xsubi e)))
                  (rand_calls e) (clock e))).
Proof.
  intro Hcols. destruct km as [l rd i k [r cs]].
  unfold cols in Hcols. simpl in Hcols.
  unfold RandomInit. unfold bind at 1. unfold get at 1. cbn [self K].
  exact (RandomInit_loop (mkKMeans l rd i k (mkMatrix r cs)) r k [] cs e Hcols).
Qed.

Lemma points_from_length (bounds : list (T * T)) (n : nat) (x : Z) :
  length (fst (points_from P bounds n x)) = n.
Proof.
  revert x. induction n as [|n IH]; intro x; simpl; [reflexivity|].
  destruct (coordinates_from P bounds x) as [v x1].
  specialize (IH x1).
  destruct (points_from P bounds n x1) as [vs x2].
  simpl in *. rewrite IH. reflexivity.
Qed.

(** With the random mode off and the method RANDOM, what [Fit] returns
    depends on the dataset and on [k] only when the allocator grants the
    resizes: neither the state of the generators nor what the engine held
    before matters. *)
Lemma Fit_random_init_repeatable (fuel : nat) (k : Z) (s s' : State) :
  resizes_granted P input_data (Z.to_nat (k mod 2 ^ 32)) ->
  Random (self s) = false -> Random (self s') = false ->
  InitMethod (self s) = RANDOM -> InitMethod (self s') = RANDOM ->
  observed (Fit P fuel input_data k s) = observed (Fit P fuel input_data k s').
Proof.
  intros [Hg1 Hg2] HR HR' HM HM'.
  rewrite !Fit_steps. set (K' := Z.to_nat (k mod 2 ^ 32)) in *.
  destruct (resize_matrix_granted P (centers_ (self s)) _ _ Hg1) as (c1 & Hc1).
  destruct (resize_matrix_granted P (centers_ (self s')) _ _ Hg1) as (c2 & Hc2).
  rewrite Hc1, Hc2.
  destruct (resize_matrix_size P _ _ _ _ Hc1) as [Hr1 Hk1].
  destruct (resize_matrix_size P _ _ _ _ Hc2) as [Hr2 Hk2].
  destruct s as [[l rd method k0 c] e], s' as [[l' rd' method' k0' c'] e'].
  simpl in HR, HR', HM, HM'. subst rd rd' method method'.
  unfold Cluster, bind, get, set_self, set_env, throw.
  cbn [self env K InitMethod Random with_centers with_K centers_].
  destruct (cols input_data <? K'); [reflexivity|].
  change ((RANDOM =? RANDOM)%Z) with true. cbv iota.
  rewrite !RandomInit_closed by (cbn [centers_ K]; assumption).
  cbn [self env K centers_ with_centers Labels with_Labels Random InitMethod
       xsubi srand48].
  unfold resize_Labels, bind, get, set_self, throw.
  cbn [self env K centers_ with_centers Labels with_Labels with_K].
  destruct (resize_vector_granted P l _ Hg2) as (v1 & Hv1).
  destruct (resize_vector_granted P l' _ Hg2) as (v2 & Hv2).
  rewrite Hv1, Hv2, Hr1, Hr2.
  apply Cluster_loop_alike. unfold alike.
  cbn [K centers_ Labels with_Labels with_centers self].
  repeat split; try reflexivity.
  - unfold cols. cbn [columns]. apply points_from_length.
  - exact (length_resize_vector P _ _ _ Hv1).
  - exact (length_resize_vector P _ _ _ Hv2).
Qed.

End Repeatable.

(** * Further properties of the engine *)

(** ** What the sampler returns and when it throws *)

(** The index read in the map at a weight of the vector is an index of the
    vector, and its weight is the same key. *)
Lemma map_at_weight (nw : Vec) (w : T) :
  In w nw ->
  map_at (build_index_map nw) w < length nw /\
  exists k, key_equiv k w = true /\
            key_equiv k (nth (map_at (build_index_map nw) w) nw NaN) = true /\
            In k nw.
Proof.
  intro Hin.
  destruct (build_index_map_invariant nw) as (I1 & I2 & I3).
  destruct (In_nth nw w NaN Hin) as (t & Ht & Hw).
  destruct (I1 t Ht) as (p & Hp & _). rewrite Hw in Hp.
  unfold map_at. rewrite map_find_slot, Hp. simpl.
  assert (Hlt : p < length (build_index_map nw)) by exact (slot_lt _ _ _ Hp).
  destruct (I2 p Hlt) as [Hv Hs]. destruct (I3 p Hlt) as (t' & Ht' & Hk).
  split; [exact Hv|].
  exists (fst (entry_at (build_index_map nw) p)).
  split; [exact (slot_key_equiv _ _ _ Hp)|].
  split; [exact (slot_key_equiv _ _ _ Hs)|].
  rewrite Hk. apply nth_In. exact Ht'.
Qed.

(** The sampler never returns an index outside the weight vector, whatever
    the weights and the value drawn are. *)
Theorem SelectWeightedIndex_at_in_range
        (P : Platform) (weights : Vec) (r : T) (i : nat)
        (H : SelectWeightedIndex_at P weights r = Some i) :
  i < length weights.
Proof.
  unfold SelectWeightedIndex_at in H.
  apply scan_weights_reads in H. destruct H as (w & Hin & ->).
  apply (Permutation_in w (sort_perm _)) in Hin.
  destruct (map_at_weight _ w Hin) as [Hlt _].
  unfold Vdiv in Hlt at 2. rewrite length_map in Hlt. exact Hlt.
Qed.

Lemma SelectWeightedIndex_at_in_range_witness :
  SelectWeightedIndex_at Glibc.platform [Fin 3; Fin 1] (Fin (1 # 8)) = Some 1 /\
  1 < 2.
Proof.
  split; [vm_compute; reflexivity|].
  apply (SelectWeightedIndex_at_in_range Glibc.platform [Fin 3; Fin 1]
           (Fin (1 # 8)) 1).
  vm_compute. reflexivity.
Defined.

(** ** The sampler under rounding *)

Section RoundedSampler.

Variable F : Format.
Hypothesis HF : rounds_to_nearest F.

Lemma round_number (q : Q) : is_number (round F q).
Proof. destruct (round_monotone F HF q q (Qle_refl q)) as (_ & H & _). exact H. Qed.

Lemma round_nonpositive (q : Q) : (q <= 0)%Q -> Tltb Tzero (round F q) = false.
Proof.
  intro Hq. destruct (round_monotone F HF q 0 Hq) as (H & _).
  rewrite (round_zero F HF) in H. exact H.
Qed.

(** A finite weight over a positive sum. *)
Lemma Tdiv_number (x : Q) (s : T) :
  Tltb Tzero s = true -> is_number (Tdiv F (Fin x) s).
Proof.
  destruct s as [y| | |]; try discriminate; intro Hs; unfold Tdiv;
    cbn [exact_div fl]; [|apply round_number].
  apply Tltb_Fin in Hs.
  destruct (Qeq_bool y 0) eqn:E; [apply Qeq_bool_iff in E; lra|].
  cbn [fl]. apply round_number.
Qed.

Lemma Tdiv_positive (x : Q) (s : T) :
  Tltb Tzero s = true -> Tltb Tzero (Tdiv F (Fin x) s) = true -> (0 < x)%Q.
Proof.
  destruct s as [y| | |]; try discriminate; intro Hs; unfold Tdiv;
    cbn [exact_div fl].
  - apply Tltb_Fin in Hs.
    destruct (Qeq_bool y 0) eqn:E; [apply Qeq_bool_iff in E; lra|].
    cbn [fl]. intro H. apply Qnot_le_lt. intro Hx.
    rewrite round_nonpositive in H; [discriminate H|].
    rewrite Qred_correct. unfold Qdiv.
    setoid_replace 0%Q with (0 * / y)%Q by ring.
    apply Qmult_le_compat_r; [exact Hx|].
    apply Qlt_le_weak, Qinv_lt_0_compat. exact Hs.
  - intro H. rewrite round_nonpositive in H; [discriminate H|].
    rewrite Qred_correct. lra.
Qed.

Lemma Tadd_fixed (a b : T) (y : Q) :
  Tadd F a b = Fin y -> round F (Qred y) = Fin y.
Proof.
  unfold Tadd. destruct (exact_add a b) as [q| | |]; try discriminate.
  cbn [fl]. apply (round_fixed F HF).
Qed.

Lemma cumulative_fixed (l : list T) (y : Q) :
  fold_left (Tadd F) l Tzero = Fin y -> round F (Qred y) = Fin y.
Proof.
  destruct l as [|w l] using rev_ind.
  - intro H. injection H as <-. exact (round_zero F HF).
  - rewrite fold_left_app. cbn [fold_left]. apply Tadd_fixed.
Qed.

(** The weight at which a running total first exceeds the value drawn is
    positive. *)
Lemma exceeding_weight_positive (r : Q) (t w : T) :
  (forall t0, t = Fin t0 -> round F (Qred t0) = Fin t0) ->
  Tltb (Fin r) t = false -> Tltb (Fin r) (Tadd F t w) = true ->
  Tltb Tzero w = true.
Proof.
  intros Hfix Hlow Hhigh.
  destruct t as [t0| | |]; [|discriminate Hlow
                            |destruct w; discriminate Hhigh
                            |destruct w; discriminate Hhigh].
  specialize (Hfix t0 eq_refl). apply Tltb_Fin_false in Hlow.
  destruct w as [w0| | |]; try reflexivity; try discriminate Hhigh.
  apply Tltb_Fin. apply Qnot_le_lt. intro Hw.
  unfold Tadd in Hhigh. cbn [exact_add fl] in Hhigh.
  assert (Hle : (Qred (t0 + w0) <= Qred t0)%Q) by (rewrite !Qred_correct; lra).
  destruct (round_monotone F HF _ _ Hle) as (H & N & _). rewrite Hfix in H.
  destruct (round F (Qred (t0 + w0))) as [z| | |]; try discriminate.
  apply Tltb_Fin_false in H. apply Tltb_Fin in Hhigh. lra.
Qed.

End RoundedSampler.

Lemma firstn_S_nth {A} (l : list A) (d : A) (p : nat) :
  p < length l -> firstn (S p) l = firstn p l ++ [nth p l d].
Proof.
  revert p. induction l as [|x l IH]; intros p Hp; simpl in Hp; [lia|].
  destruct p as [|p]; [reflexivity|].
  cbn [firstn nth app]. f_equal. apply IH. lia.
Qed.

(** With [T] [float] or [double], finite weights of positive sum and a
    value drawn that is not negative, the sampler never returns the index
    of a weight that is not positive: k-means++ does not pick again a
    sample that lies on a centroid already chosen. *)
Theorem SelectWeightedIndex_at_positive_weight
        (P : Platform) (weights : Vec) (r : Q) (i : nat)
        (HT : ieee P)
        (Hfin : Forall Tfinite weights)
        (Hpos : Tltb Tzero (sum P weights) = true)
        (Hr0 : (0 <= r)%Q)
        (H : SelectWeightedIndex_at P weights (Fin r) = Some i) :
  Tltb Tzero (nth i weights NaN) = true.
Proof.
  assert (HF := IEEEFacts.ieee_rounds_to_nearest P HT).
  unfold SelectWeightedIndex_at in H.
  set (nw := Vdiv P weights (sum P weights)) in *.
  assert (Hnum : Forall is_number nw).
  { unfold nw, Vdiv. apply Forall_forall. intros y Hy.
    apply in_map_iff in Hy. destruct Hy as (x & <- & Hx).
    rewrite Forall_forall in Hfin. specialize (Hfin x Hx).
    destruct x; try contradiction. apply Tdiv_number; assumption. }
  apply scan_weights_first in H.
  destruct H as (p & Hp & Hhigh & Hlow & ->).
  rewrite (firstn_S_nth _ NaN p Hp), fold_left_app in Hhigh.
  cbn [fold_left] in Hhigh.
  assert (Hw : Tltb Tzero (nth p (sort nw) NaN) = true).
  { apply (exceeding_weight_positive P HF r
             (fold_left (Tadd P) (firstn p (sort nw)) Tzero));
      [apply cumulative_fixed; exact HF | | exact Hhigh].
    destruct p as [|p]; [apply Tltb_Fin_false; exact Hr0|].
    apply Hlow. lia. }
  assert (Hin : In (nth p (sort nw) NaN) nw)
    by (apply (Permutation_in _ (sort_perm nw)), nth_In; exact Hp).
  destruct (map_at_last_index nw _ Hnum Hin) as (Hi & He & _).
  set (i := map_at (build_index_map nw) (nth p (sort nw) NaN)) in *.
  rewrite <- (Teqb_Tltb_r _ _ Tzero He) in Hw.
  assert (Hi' : i < length weights)
    by (unfold nw, Vdiv in Hi; rewrite length_map in Hi; exact Hi).
  unfold nw, Vdiv in Hw.
  rewrite (nth_indep _ NaN (Tdiv P NaN (sum P weights))) in Hw
    by (rewrite length_map; exact Hi').
  rewrite (map_nth (fun x => Tdiv P x (sum P weights))) in Hw.
  rewrite Forall_forall in Hfin.
  assert (Hx := Hfin _ (nth_In weights NaN Hi')).
  destruct (nth i weights NaN) as [x| | |]; try contradiction.
  apply Tltb_Fin. exact (Tdiv_positive P HF x _ Hpos Hw).
Qed.

Lemma SelectWeightedIndex_at_positive_weight_witness :
  SelectWeightedIndex_at Glibc.platform [Fin 3; Fin 0; Fin 1] (Fin (1 # 8)) = Some 2 /\
  Tltb Tzero (nth 2 [Fin 3; Fin 0; Fin 1] NaN) = true.
Proof.
  split; [vm_compute; reflexivity|].
  apply (SelectWeightedIndex_at_positive_weight Glibc.platform
           [Fin 3; Fin 0; Fin 1] (1 # 8) 2).
  - right. reflexivity.
  - repeat constructor.
  - vm_compute. reflexivity.
  - vm_compute. discriminate.
  - vm_compute. reflexivity.
Defined.

Lemma scan_weights_NaN (P : Platform) (r : T) (m : weights_map)
      (sorted : list T) :
  Forall (fun w => w = NaN) sorted ->
  forall runningTotal, scan_weights P r m runningTotal sorted = None.
Proof.
  induction 1 as [|w rest Hw _ IH]; intro runningTotal; simpl; [reflexivity|].
  subst w. rewrite Tadd_NaN_r.
  replace (Tltb r NaN) with false by (destruct r; reflexivity).
  apply IH.
Qed.

Lemma Qred_zero (q : Q) : (q == 0)%Q -> Qred q = 0%Q.
Proof. intro H. change 0%Q with (Qred 0). apply Qred_complete. exact H. Qed.

(** Weights that are all zero add up to zero. *)
Lemma sum_zero_weights (P : Platform) (weights : Vec) :
  round P 0 = Fin 0 ->
  Forall (fun w => Teqb w Tzero = true) weights ->
  sum P weights = Fin 0.
Proof.
  intros H0 Hz. unfold sum, Tzero.
  induction Hz as [|w weights Hw _ IH]; [reflexivity|].
  cbn [fold_left]. destruct w as [q| | |]; try discriminate Hw.
  apply Teqb_Fin in Hw.
  replace (Tadd P (Fin 0) (Fin q)) with (Fin 0); [exact IH|].
  unfold Tadd. cbn [exact_add fl]. rewrite Qred_zero, H0; [reflexivity|].
  rewrite Hw. reflexivity.
Qed.

(** Weights that are all zero are normalized to NaN. *)
Lemma normalized_zero_weights (P : Platform) (weights : Vec) :
  round P 0 = Fin 0 ->
  Forall (fun w => Teqb w Tzero = true) weights ->
  Forall (fun w => w = NaN) (Vdiv P weights (sum P weights)).
Proof.
  intros H0 Hz. rewrite (sum_zero_weights P weights H0 Hz).
  apply Forall_forall. intros y Hy. unfold Vdiv in Hy.
  apply in_map_iff in Hy. destruct Hy as (w & <- & Hw).
  rewrite Forall_forall in Hz. specialize (Hz w Hw).
  destruct w as [x| | |]; try discriminate Hz.
  apply Teqb_Fin in Hz. unfold Tdiv. cbn [exact_div].
  change (Qeq_bool 0 0) with true. cbv iota.
  unfold Qsign. symmetry in Hz. apply Qeq_alt in Hz. rewrite Hz. reflexivity.
Qed.

(** On weights that are all zero, and on an empty weight vector, the
    sampler reaches its end for every value drawn, in every format that
    has the value zero: the call draws one value and throws, leaving the
    engine as it was. *)
Theorem SelectWeightedIndex_zero_weights (P : Platform) (weights : Vec)
        (H0 : round P 0 = Fin 0)
        (Hz : Forall (fun w => Teqb w Tzero = true) weights) :
  (forall r, SelectWeightedIndex_at P weights r = None) /\
  (forall s, SelectWeightedIndex P weights s =
             Throw sampler_reached_end
                   (mkState (self s) (snd (drand48 (env s))))).
Proof.
  assert (Hat : forall r, SelectWeightedIndex_at P weights r = None).
  { intro r. unfold SelectWeightedIndex_at. apply scan_weights_NaN.
    apply (Permutation_Forall (Permutation_sym (sort_perm _))).
    apply normalized_zero_weights; assumption. }
  split; [exact Hat|].
  intro s. unfold SelectWeightedIndex, bind, draw.
  destruct (drand48 (env s)) as [r e]. rewrite Hat. reflexivity.
Qed.

Lemma SelectWeightedIndex_zero_weights_witness :
  SelectWeightedIndex_at Glibc.platform [Fin 0; Fin 0] (Fin (1 # 2)) = None.
Proof.
  apply (proj1 (SelectWeightedIndex_zero_weights Glibc.platform [Fin 0; Fin 0]
                  eq_refl ltac:(repeat constructor))).
Defined.

(** For example, [Fit] under KMEANSPP on two samples at the same place
    throws the error of the sampler when two clusters are asked. *)
Lemma Fit_KMeansPP_equal_samples :
  observed (Fit Glibc.platform 5 two_equal_samples 2
                (Glibc.start false KMEANSPP 0)) = inr sampler_reached_end.
Proof. vm_compute. reflexivity. Qed.

(** ** The rounds of the loop *)

Lemma T_of_nat_inj (a b : nat) : Teqb (T_of_nat a) (T_of_nat b) = true -> a = b.
Proof.
  unfold T_of_nat. intro H. apply Teqb_Fin in H.
  apply (proj1 (inject_Z_injective _ _)) in H. lia.
Qed.

Lemma Teqb_cluster_id (l : T) : cluster_id l -> Teqb l l = true.
Proof. intros (c & ->). apply Teqb_Fin. reflexivity. Qed.

Lemma CheckChanged_false_same (labels oldLabels : Vec) :
  Forall cluster_id labels -> Forall cluster_id oldLabels ->
  length labels = length oldLabels ->
  CheckChanged labels oldLabels = false -> labels = oldLabels.
Proof.
  unfold CheckChanged. intros Hl Ho Hlen H.
  apply (nth_ext _ _ NaN NaN Hlen). intros i Hi.
  assert (Hi' : i < length oldLabels) by (rewrite <- Hlen; exact Hi).
  rewrite Forall_forall in Hl, Ho.
  destruct (Hl (nth i labels NaN) (nth_In _ _ Hi)) as (a & Ha).
  destruct (Ho (nth i oldLabels NaN) (nth_In _ _ Hi')) as (b & Hb).
  destruct (Teqb (nth i labels NaN) (nth i oldLabels NaN)) eqn:E.
  - rewrite Ha, Hb in E |- *. f_equal. apply T_of_nat_inj. exact E.
  - exfalso.
    assert (Htrue : existsb (fun i => negb (Teqb (nth i labels NaN)
                                           (nth i oldLabels NaN)))
                      (seq 0 (length labels)) = true).
    { apply existsb_exists. exists i. split; [apply in_seq; lia|].
      rewrite E. reflexivity. }
    congruence.
Qed.

(** On label vectors that hold cluster numbers, [CheckChanged] answers
    [false] exactly when the two vectors are the same. *)
Theorem CheckChanged_cluster_ids (labels oldLabels : Vec)
        (Hl : Forall cluster_id labels) (Ho : Forall cluster_id oldLabels)
        (Hlen : length labels = length oldLabels) :
  CheckChanged labels oldLabels = false <-> labels = oldLabels.
Proof.
  split.
  - apply CheckChanged_false_same; assumption.
  - intros <-. unfold CheckChanged.
    destruct (existsb _ _) eqn:E; [|reflexivity].
    apply existsb_exists in E. destruct E as (i & Hi & E).
    apply in_seq in Hi. rewrite Forall_forall in Hl.
    assert (Hi' : i < length labels) by lia.
    rewrite (Teqb_cluster_id _ (Hl _ (nth_In _ NaN Hi'))) in E.
    discriminate E.
Qed.

Lemma CheckChanged_cluster_ids_witness :
  CheckChanged [T_of_nat 1; T_of_nat 0] [T_of_nat 1; T_of_nat 0] = false <->
  [T_of_nat 1; T_of_nat 0] = [T_of_nat 1; T_of_nat 0].
Proof.
  apply (CheckChanged_cluster_ids [T_of_nat 1; T_of_nat 0]
                                  [T_of_nat 1; T_of_nat 0]).
  - repeat constructor; eexists; reflexivity.
  - repeat constructor; eexists; reflexivity.
  - reflexivity.
Defined.

Section Rounds.

Variable P : Platform.
Variable input_data : Matrix T.

Lemma assigned_labels_cluster_ids (km : KMeans) :
  length (assigned_labels P km input_data) = cols input_data /\
  Forall cluster_id (assigned_labels P km input_data).
Proof.
  unfold assigned_labels. split.
  - rewrite length_map, length_seq. reflexivity.
  - apply Forall_forall. intros l Hl. apply in_map_iff in Hl.
    destruct Hl as (point & <- & _). eexists. reflexivity.
Qed.

(** A round of the loop returns when the sizes agree, and leaves the
    generators alone. *)
Lemma one_round_closed (km : KMeans) (e : Env) :
  cols (centers_ km) = K km ->
  length (Labels km) = cols input_data ->
  one_round P input_data (mkState km e) =
  Ok tt (mkState (lloyd_round P input_data km) e).
Proof.
  intros Hc Hl. unfold one_round.
  rewrite (bind_step _ _ _ _ _
             (AssignLabels_closed P input_data (mkState km e) Hl)).
  cbn [self env].
  exact (EstimateNewCenters_closed P input_data
           (mkState (with_Labels _ km) e) Hc).
Qed.

(** The update for given labels does not depend on the centroids it
    starts from, once these are themselves an update for the labels. *)
Lemma updated_centers_again (centers : Matrix T) (labels : Vec) (k : nat) :
  updated_centers P (updated_centers P centers labels input_data k)
                  labels input_data k =
  updated_centers P centers labels input_data k.
Proof.
  unfold updated_centers. cbn [rows]. f_equal.
  apply map_ext_in. intros c Hc. apply in_seq in Hc.
  unfold new_center.
  destruct (cols (GetPointsWithLabel input_data labels (T_of_nat c)) =? 0) eqn:E;
    [|reflexivity].
  unfold col at 1. cbn [columns].
  rewrite (nth_indep _ [] (new_center P centers labels input_data 0))
    by (rewrite length_map, length_seq; lia).
  rewrite map_nth, seq_nth by lia. cbn [Nat.add].
  unfold new_center. rewrite E. reflexivity.
Qed.

Lemma cols_updated_centers (centers : Matrix T) (labels : Vec) (k : nat) :
  cols (updated_centers P centers labels input_data k) = k.
Proof.
  unfold cols, updated_centers. cbn [columns].
  rewrite length_map, length_seq. reflexivity.
Qed.

(** A second update step with the labels unchanged changes nothing. *)
Theorem EstimateNewCenters_twice (s : State)
        (Hcols : cols (centers_ (self s)) = K (self s)) :
  exists s1,
    EstimateNewCenters P input_data s = Ok tt s1 /\
    EstimateNewCenters P input_data s1 = Ok tt s1.
Proof.
  eexists. split; [apply EstimateNewCenters_closed; exact Hcols|].
  rewrite EstimateNewCenters_closed
    by (cbn [self centers_ with_centers K]; unfold cols; cbn [columns];
        rewrite length_map, length_seq; reflexivity).
  cbn [self env centers_ with_centers K Labels rows].
  fold (updated_centers P (centers_ (self s)) (Labels (self s)) input_data
                        (K (self s))).
  change (mkMatrix (rows (centers_ (self s)))
            (map (new_center P
                    (updated_centers P (centers_ (self s)) (Labels (self s))
                                     input_data (K (self s)))
                    (Labels (self s)) input_data)
                 (seq 0 (K (self s)))))
    with (updated_centers P
            (updated_centers P (centers_ (self s)) (Labels (self s))
                             input_data (K (self s)))
            (Labels (self s)) input_data (K (self s))).
  rewrite updated_centers_again. reflexivity.
Qed.

(** When the labels of a round are those of the round before, the round
    has changed nothing and one more round changes nothing. *)
Lemma lloyd_round_settled (km : KMeans) (previous : Matrix T) :
  centers_ km = updated_centers P previous (Labels km) input_data (K km) ->
  assigned_labels P km input_data = Labels km ->
  lloyd_round P input_data km = km /\
  lloyd_round P input_data (lloyd_round P input_data km) =
  lloyd_round P input_data km.
Proof.
  intros Hc Hl.
  assert (H : lloyd_round P input_data km = km).
  { unfold lloyd_round. rewrite Hl. rewrite Hc at 1.
    rewrite updated_centers_again, <- Hc.
    destruct km. reflexivity. }
  split; [exact H|]. rewrite H. exact H.
Qed.

(** The loop from its head: the count returned is above the count at the
    head; when it is 1 every label is that of [oldLabels]; when it is 2 or
    more the engine returned is unchanged by a round. *)
Lemma Cluster_loop_settles (fuel : nat) :
  forall oldLabels iter km e r s',
    at_loop_head P input_data km oldLabels iter ->
    Cluster_loop P fuel input_data oldLabels iter (mkState km e) = Ok r s' ->
    iter < r /\
    cols (centers_ (self s')) = K (self s') /\
    length (Labels (self s')) = cols input_data /\
    (r = S iter -> Labels (self s') = oldLabels) /\
    (2 <= r -> lloyd_round P input_data (self s') = self s').
Proof.
  induction fuel as [|fuel IH];
    intros oldLabels iter km e r s' (Hc & Hl & Hol & Hids & Hprev) H.
  - discriminate H.
  - cbn [Cluster_loop] in H.
    assert (Hassoc :
      forall (k : M nat) s,
        bind (AssignLabels P input_data)
             (fun _ => bind (EstimateNewCenters P input_data) (fun _ => k)) s =
        bind (one_round P input_data) (fun _ => k) s).
    { intros k s. unfold one_round, bind.
      destruct (AssignLabels P input_data s); reflexivity. }
    rewrite Hassoc in H.
    rewrite (bind_step _ _ _ _ _ (one_round_closed km e Hc Hl)) in H.
    unfold bind, get in H. cbn [self] in H.
    destruct (assigned_labels_cluster_ids km) as [Hal Haids].
    assert (HL : Labels (lloyd_round P input_data km) =
                 assigned_labels P km input_data) by reflexivity.
    assert (HC : centers_ (lloyd_round P input_data km) =
                 updated_centers P (centers_ km) (assigned_labels P km input_data)
                                 input_data (K km)) by reflexivity.
    assert (HKr : K (lloyd_round P input_data km) = K km) by reflexivity.
    destruct (CheckChanged (Labels (lloyd_round P input_data km)) oldLabels) eqn:E.
    + apply IH in H.
      * destruct H as (H1 & H2 & H3 & H4 & H5).
        split; [lia|]. split; [exact H2|]. split; [exact H3|].
        split; [intro Hr; lia | exact H5].
      * unfold at_loop_head. rewrite HL, HC, HKr.
        split; [apply cols_updated_centers|].
        split; [exact Hal|]. split; [exact Hal|]. split; [exact Haids|].
        intros _. split; [reflexivity|]. exists (centers_ km). reflexivity.
    + injection H as <- <-. cbn [self].
      rewrite HL in E.
      apply CheckChanged_false_same in E;
        [|exact Haids | exact Hids | rewrite Hal, Hol; reflexivity].
      split; [lia|]. rewrite HC, HKr, HL.
      split; [apply cols_updated_centers|]. split; [exact Hal|].
      split; [intros _; exact E|].
      intro Hr. destruct (Hprev ltac:(lia)) as (Hlab & previous & Hcen).
      assert (Hround : lloyd_round P input_data km = km).
      { apply (lloyd_round_settled km previous).
        - rewrite Hlab. exact Hcen.
        - rewrite Hlab. exact E. }
      rewrite Hround. exact Hround.
Qed.

End Rounds.
(** ** What [Fit] returns *)

Lemma list_set_length {A} (l : list A) (i : nat) (x : A) (l' : list A) :
  list_set l i x = Some l' -> length l' = length l.
Proof.
  revert i l'. induction l as [|y l IH]; intros i l' H; simpl in H.
  - discriminate H.
  - destruct i as [|i].
    + injection H as <-. reflexivity.
    + destruct (list_set l i x) as [l''|] eqn:E; [|discriminate H].
      injection H as <-. simpl. rewrite (IH _ _ E). reflexivity.
Qed.

(** A write to a column keeps the number of columns. *)
Lemma keeps_cols_assign_center (i : nat) (v : Vec) :
  keeps (fun km => cols (centers_ km)) (assign_center i v).
Proof.
  intros s a s'. unfold assign_center, bind, get, set_col.
  destruct (list_set (columns (centers_ (self s))) i v) as [cs|] eqn:E;
    intro H; [|discriminate H].
  injection H as _ <-. cbn [self centers_ with_centers].
  unfold cols. cbn [columns]. exact (list_set_length _ _ _ _ E).
Qed.

Section KeepsWrites.

Variable P : Platform.

Context {X : Type} (F : KMeans -> X).

(** The parts of the engine that every write to a column leaves alone. *)
Hypothesis F_assign : forall i v, keeps F (assign_center i v).

Lemma kept_by_RandomInit (input_data : Matrix T) :
  keeps F (RandomInit P input_data).
Proof.
  unfold RandomInit. apply keeps_bind; [apply keeps_get|]. intro s0.
  apply keeps_for_each. intro i.
  apply keeps_bind; [apply keeps_random_coordinates|].
  intro v. apply F_assign.
Qed.

Lemma kept_by_KMeansPPInit (input_data : Matrix T) :
  keeps F (KMeansPPInit P input_data).
Proof.
  unfold KMeansPPInit. apply keeps_bind; [apply keeps_get|]. intro s0.
  destruct (rand (rand_seq P) (env s0)) as [r e].
  apply keeps_bind; [apply keeps_set_env|]. intros _.
  destruct (cols input_data =? 0); [apply keeps_throw|].
  apply keeps_bind; [apply F_assign|]. intros _.
  apply keeps_for_each. intro cluster.
  apply keeps_bind; [apply keeps_get|]. intro s1.
  apply keeps_bind; [apply keeps_SelectWeightedIndex|]. intro i.
  apply F_assign.
Qed.

Lemma kept_by_initialisation (input_data : Matrix T) (method : Z) :
  keeps F (if (method =? RANDOM)%Z then RandomInit P input_data
           else if (method =? KMEANSPP)%Z then KMeansPPInit P input_data
           else if (method =? MANUAL)%Z then ret tt
           else throw invalid_init_method).
Proof.
  destruct (method =? RANDOM)%Z; [apply kept_by_RandomInit|].
  destruct (method =? KMEANSPP)%Z; [apply kept_by_KMeansPPInit|].
  destruct (method =? MANUAL)%Z; [apply keeps_ret | apply keeps_throw].
Qed.

End KeepsWrites.
Section FitReturns.

Variable P : Platform.
Variable input_data : Matrix T.

Lemma Zero_cluster_ids (n : nat) : Forall cluster_id (Zero n).
Proof.
  unfold Zero. apply Forall_forall. intros l Hl.
  apply repeat_spec in Hl. subst l. exists 0. reflexivity.
Qed.

Lemma Cluster_settles (fuel : nat) (s : State) (r : nat) (s' : State) :
  cols (centers_ (self s)) = K (self s) ->
  Cluster P fuel input_data s = Ok r s' ->
  1 <= r /\
  cols (centers_ (self s')) = K (self s') /\
  length (Labels (self s')) = cols input_data /\
  (r = 1 -> Labels (self s') = Zero (cols input_data)) /\
  (2 <= r -> lloyd_round P input_data (self s') = self s').
Proof.
  intros Hc H. unfold Cluster in H.
  apply bind_Ok in H. destruct H as (s0 & s0' & HG & H).
  injection HG as <- <-.
  destruct (cols input_data <? K (self s)); [discriminate H|].
  apply bind_Ok in H. destruct H as ([] & s1 & Hseed & H).
  injection Hseed as <-.
  apply bind_Ok in H. destruct H as ([] & s2 & Hinit & H).
  apply bind_Ok in H. destruct H as ([] & s3 & Hres & H).
  apply resize_Labels_Ok in Hres. destruct Hres as (l & Hl & ->).
  assert (HK2 : K (self s2) = K (self s)).
  { exact (keeps_initialisation P K (fun _ _ => eq_refl) input_data
             (InitMethod (self s)) _ _ _ Hinit). }
  assert (HC2 : cols (centers_ (self s2)) = cols (centers_ (self s))).
  { exact (kept_by_initialisation P (fun km => cols (centers_ km))
             keeps_cols_assign_center input_data
             (InitMethod (self s)) _ _ _ Hinit). }
  destruct s2 as [km2 e2]. cbn [self env] in *.
  apply Cluster_loop_settles in H.
  - destruct H as (H1 & H2 & H3 & H4 & H5).
    split; [lia|]. split; [exact H2|]. split; [exact H3|].
    split; [intro Hr; apply H4; lia | exact H5].
  - unfold at_loop_head. cbn [self centers_ K Labels with_Labels].
    split; [rewrite HC2, HK2; exact Hc|].
    split; [exact Hl|].
    split; [apply repeat_length|].
    split; [apply Zero_cluster_ids|].
    intro Hiter. lia.
Qed.

(** When [Fit] returns, [centers_] was resized to [K] columns before
    [Cluster] ran. *)
Lemma Fit_Ok_Cluster (fuel : nat) (k : Z) (s : State) (iter : nat) (s' : State) :
  Fit P fuel input_data k s = Ok iter s' ->
  exists s1, cols (centers_ (self s1)) = K (self s1) /\
             Cluster P fuel input_data s1 = Ok iter s'.
Proof.
  rewrite Fit_steps. intro H.
  destruct (resize_matrix P (centers_ (self s)) (rows input_data)
              (Z.to_nat (k mod 2 ^ 32))) as [centers'|] eqn:E;
    [|discriminate H].
  eexists. split; [|exact H].
  cbn [self centers_ K with_centers with_K].
  apply (resize_matrix_size P _ _ _ _ E).
Qed.

(** When [Fit] returns after two iterations or more, the engine it leaves
    is at a fixed point: one more assignment and update return and change
    nothing, neither the labels nor the centroids. *)
Theorem Fit_result_is_stable
        (fuel : nat) (k : Z) (s : State) (iter : nat) (s' : State)
        (Hfit : Fit P fuel input_data k s = Ok iter s')
        (Hiter : 2 <= iter) :
  one_round P input_data s' = Ok tt s'.
Proof.
  apply Fit_Ok_Cluster in Hfit. destruct Hfit as (s1 & Hc1 & H).
  apply Cluster_settles in H; [|exact Hc1].
  destruct H as (_ & Hc & Hl & _ & Hround).
  destruct s' as [km e]. cbn [self] in *.
  rewrite (one_round_closed P input_data km e Hc Hl).
  rewrite (Hround Hiter). reflexivity.
Qed.

(** [Fit] returns a count of at least one iteration, and a count of one
    only with every label equal to zero: the first assignment is compared
    with the all-zero vector. *)
Theorem Fit_single_iteration
        (fuel : nat) (k : Z) (s : State) (iter : nat) (s' : State)
        (Hfit : Fit P fuel input_data k s = Ok iter s') :
  1 <= iter /\
  (iter = 1 -> GetLabels (self s') = Zero (cols input_data)).
Proof.
  apply Fit_Ok_Cluster in Hfit. destruct Hfit as (s1 & Hc1 & H).
  apply Cluster_settles in H; [|exact Hc1].
  destruct H as (H1 & _ & _ & H4 & _). split; assumption.
Qed.

End FitReturns.

Lemma Fit_result_is_stable_witness :
  let o := Fit Glibc.platform 5 two_samples 2 (Glibc.start false RANDOM 0) in
  o = Ok 2 (state_after o) /\
  one_round Glibc.platform two_samples (state_after o) = Ok tt (state_after o).
Proof.
  assert (H : Fit Glibc.platform 5 two_samples 2 (Glibc.start false RANDOM 0) =
              Ok 2 (state_after (Fit Glibc.platform 5 two_samples 2
                                     (Glibc.start false RANDOM 0))))
    by (vm_compute; reflexivity).
  split; [exact H|].
  apply (Fit_result_is_stable Glibc.platform two_samples 5 2
           (Glibc.start false RANDOM 0) 2 _ H).
  lia.
Defined.

Lemma Fit_single_iteration_witness :
  let o := Fit Glibc.platform 5 two_equal_samples 2 (Glibc.start false RANDOM 0) in
  o = Ok 1 (state_after o) /\
  GetLabels (self (state_after o)) = Zero (cols two_equal_samples).
Proof.
  assert (H : Fit Glibc.platform 5 two_equal_samples 2
                  (Glibc.start false RANDOM 0) =
              Ok 1 (state_after (Fit Glibc.platform 5 two_equal_samples 2
                                     (Glibc.start false RANDOM 0))))
    by (vm_compute; reflexivity).
  split; [exact H|].
  apply (proj2 (Fit_single_iteration Glibc.platform two_equal_samples 5 2
                  (Glibc.start false RANDOM 0) 1 _ H)).
  reflexivity.
Defined.

Lemma EstimateNewCenters_twice_witness :
  exists s1,
    EstimateNewCenters Glibc.platform two_samples before_update = Ok tt s1 /\
    EstimateNewCenters Glibc.platform two_samples s1 = Ok tt s1.
Proof.
  apply (EstimateNewCenters_twice Glibc.platform two_samples before_update).
  reflexivity.
Defined.

(** With a method that is none of RANDOM, KMEANSPP and MANUAL, and [k] at
    most the sample count, [Fit] throws the error of the method for every
    bound on the loop, once [centers_] is resized.  At the throw [drand48]
    has already been reseeded; [K] and [centers_] are set, the labels are
    not written. *)
Theorem Fit_invalid_init_method
        (P : Platform) (fuel : nat) (input_data : Matrix T) (k : Z) (s : State)
        (centers' : Matrix T)
        (Hmethod : (InitMethod (self s) < RANDOM \/ MANUAL < InitMethod (self s))%Z)
        (Hk : (0 <= k <= Z.of_nat (cols input_data))%Z)
        (Hint : (k <= INT_MAX)%Z)
        (Hresize : resize_matrix P (centers_ (self s)) (rows input_data)
                                 (Z.to_nat k) = Some centers') :
  Fit P fuel input_data k s =
  Throw invalid_init_method
        (mkState
           (with_centers centers' (with_K (Z.to_nat k) (self s)))
           (if Random (self s) then srand48 (clock (env s) mod 2 ^ 32) (env s)
            else srand48 0 (env s))).
Proof.
  unfold RANDOM, MANUAL in Hmethod.
  assert (Hmod : (k mod 2 ^ 32 = k)%Z) by (apply int_as_unsigned; lia).
  assert (Hlt : (cols input_data <? Z.to_nat k) = false)
    by (apply Nat.ltb_ge; lia).
  assert (H0 : (InitMethod (self s) =? RANDOM)%Z = false)
    by (apply Z.eqb_neq; unfold RANDOM; lia).
  assert (H1 : (InitMethod (self s) =? KMEANSPP)%Z = false)
    by (apply Z.eqb_neq; unfold KMEANSPP; lia).
  assert (H2 : (InitMethod (self s) =? MANUAL)%Z = false)
    by (apply Z.eqb_neq; unfold MANUAL; lia).
  rewrite Fit_steps, Hmod, Hresize.
  unfold Cluster, bind, set_self, set_env, get, throw.
  cbn [self env K InitMethod Random with_centers with_K].
  rewrite Hlt, H0, H1, H2. reflexivity.
Qed.

Lemma Fit_invalid_init_method_witness :
  observed (Fit Glibc.platform 5 two_samples 2 (Glibc.start false 7 0)) =
  inr invalid_init_method.
Proof.
  rewrite (Fit_invalid_init_method Glibc.platform 5 two_samples 2
             (Glibc.start false 7 0) (mkMatrix 1 [[Fin 0]; [Fin 0]])).
  - reflexivity.
  - right. reflexivity.
  - simpl. lia.
  - unfold INT_MAX. lia.
  - reflexivity.
Defined.

(** ** The index lists of the clusters *)

(** [GetIndicesWithLabel] returns, in ascending order and without
    repetition, exactly the indices of the label vector whose label is
    equal to the one given. *)
Theorem GetIndicesWithLabel_ascending (labels : Vec) (label : T) :
  StronglySorted lt (GetIndicesWithLabel labels label) /\
  forall i, In i (GetIndicesWithLabel labels label) <->
            i < length labels /\ Teqb (nth i labels NaN) label = true.
Proof.
  split; [apply filter_seq_ascending | apply In_GetIndicesWithLabel].
Qed.

(** When every label names one of [k] clusters, the index lists of the
    [k] clusters partition the samples: each sample is in the list of
    exactly one cluster. *)
Theorem GetIndicesWithLabel_partition (labels : Vec) (k : nat)
        (Hrange : Forall (label_in_range k) labels) (i : nat)
        (Hi : i < length labels) :
  exists c, (c < k /\ In i (GetIndicesWithLabel labels (T_of_nat c))) /\
            forall c', c' < k ->
                       In i (GetIndicesWithLabel labels (T_of_nat c')) -> c' = c.
Proof.
  rewrite Forall_forall in Hrange.
  destruct (Hrange (nth i labels NaN) (nth_In _ _ Hi)) as (c & Hc & Hlt).
  exists c. split.
  - split; [exact Hlt|]. unfold GetIndicesWithLabel.
    apply filter_In. split; [apply in_seq; lia|].
    rewrite Hc. apply Teqb_Fin. reflexivity.
  - intros c' _ Hin. unfold GetIndicesWithLabel in Hin.
    apply filter_In in Hin. destruct Hin as [_ Heq].
    rewrite Hc in Heq. symmetry. apply T_of_nat_inj. exact Heq.
Qed.

Lemma GetIndicesWithLabel_partition_witness :
  exists c, (c < 2 /\ In 1 (GetIndicesWithLabel [T_of_nat 1; T_of_nat 0]
                                                (T_of_nat c))) /\
            forall c', c' < 2 ->
                       In 1 (GetIndicesWithLabel [T_of_nat 1; T_of_nat 0]
                                                 (T_of_nat c')) -> c' = c.
Proof.
  apply (GetIndicesWithLabel_partition [T_of_nat 1; T_of_nat 0] 2).
  - repeat constructor; eexists; (split; [reflexivity | lia]).
  - simpl. lia.
Defined.

(** ** The nearest sample *)

Section ClosestPoint.

Variable P : Platform.
Variable input_data : Matrix T.
Variable queryPoint : Vec.

(** [ClosestPointIndex] returns the lowest index among the samples whose
    computed distance to the query point is the least, the samples whose
    computed distance is not below the largest finite value of [T] left
    aside; it returns 0 when none is left, and so on a dataset without
    sample, where 0 is the index of no sample. *)
Theorem ClosestPointIndex_minimum :
  lowest_nearest (fun j => euclidean P (col input_data j) queryPoint)
                 (Fin (T_max P)) (cols input_data)
                 (ClosestPointIndex P input_data queryPoint).
Proof.
  unfold ClosestPointIndex.
  apply (scan_invariant_lowest_nearest
           (distance P input_data queryPoint) (Fin (T_max P))).
  apply closest_scan_invariant.
Qed.

Lemma excluding_step_distance (excludedIds : list nat) (minDist : T) (i : nat) :
  excluding_step P input_data queryPoint excludedIds minDist i =
  if contains excludedIds i then minDist
  else if Tltb (distance P input_data queryPoint i) minDist
       then distance P input_data queryPoint i else minDist.
Proof.
  unfold excluding_step, distance. rewrite norm_Vsub. reflexivity.
Qed.

(** What holds of [minDist] after [n] turns of the loop. *)
Lemma excluding_scan (excludedIds : list nat) (n : nat) :
  let dist := distance P input_data queryPoint in
  let m := fold_left (excluding_step P input_data queryPoint excludedIds)
                     (seq 0 n) PInf in
  (forall j, j < n -> contains excludedIds j = false ->
             Tltb (dist j) m = false) /\
  (m = PInf \/
   exists i, i < n /\ contains excludedIds i = false /\ m = dist i).
Proof.
  intro dist. induction n as [|n IH].
  - split; [intros j Hj; lia | left; reflexivity].
  - rewrite seq_S, fold_left_app. cbn [fold_left Nat.add].
    cbv zeta in IH.
    set (m := fold_left (excluding_step P input_data queryPoint excludedIds)
                        (seq 0 n) PInf) in *.
    destruct IH as [Hall Hm].
    rewrite excluding_step_distance. fold (dist n).
    destruct (contains excludedIds n) eqn:En.
    + split.
      * intros j Hj Hex. destruct (Nat.eq_dec j n) as [->|Hne]; [congruence|].
        apply Hall; [lia | exact Hex].
      * destruct Hm as [Hm | (i & Hi & Hex & Hm)]; [left; exact Hm|].
        right. exists i. split; [lia|]. auto.
    + destruct (Tltb (dist n) m) eqn:E.
      * split.
        -- intros j Hj Hex. destruct (Nat.eq_dec j n) as [->|Hne];
             [apply Tltb_irrefl|].
           destruct (Tltb (dist j) (dist n)) eqn:Ej; [|reflexivity].
           specialize (Hall j ltac:(lia) Hex).
           rewrite (Tltb_trans _ _ _ Ej E) in Hall. discriminate Hall.
        -- right. exists n. split; [lia|]. auto.
      * split.
        -- intros j Hj Hex. destruct (Nat.eq_dec j n) as [->|Hne]; [exact E|].
           apply Hall; [lia | exact Hex].
        -- destruct Hm as [Hm | (i & Hi & Hex & Hm)]; [left; exact Hm|].
           right. exists i. split; [lia|]. auto.
Qed.

Lemma excluding_scan_all_excluded (excludedIds : list nat) (l : list nat) (m : T) :
  Forall (fun j => contains excludedIds j = true) l ->
  fold_left (excluding_step P input_data queryPoint excludedIds) l m = m.
Proof.
  intro H. revert m. induction H as [|j l Hj _ IH]; intro m; [reflexivity|].
  cbn [fold_left]. rewrite excluding_step_distance, Hj. apply IH.
Qed.

(** [ClosestPointDistanceExcludingIds] returns a value that no computed
    distance of a sample that is not excluded is below; this value is the
    computed distance of such a sample, or infinity, which it is when
    every sample is excluded. *)
Theorem ClosestPointDistanceExcludingIds_minimum (excludedIds : list nat) :
  let dist := fun j => euclidean P (col input_data j) queryPoint in
  let m := ClosestPointDistanceExcludingIds P input_data queryPoint excludedIds in
  (forall j, j < cols input_data -> contains excludedIds j = false ->
             Tltb (dist j) m = false) /\
  (m = PInf \/
   exists i, i < cols input_data /\ contains excludedIds i = false /\
             m = dist i) /\
  ((forall j, j < cols input_data -> contains excludedIds j = true) ->
   m = PInf).
Proof.
  intros dist m.
  destruct (excluding_scan excludedIds (cols input_data)) as [Hall Hm].
  split; [exact Hall|]. split; [exact Hm|].
  intro Hex. unfold m, ClosestPointDistanceExcludingIds.
  apply excluding_scan_all_excluded.
  apply Forall_forall. intros j Hj. apply in_seq in Hj. apply Hex. lia.
Qed.

End ClosestPoint.

(** ** The centroids of the random initialisation *)

Lemma minCoeff_scan (v : Vec) :
  Forall Tfinite v ->
  forall m0, exists a,
    fold_left (fun m y => if Tltb y m then y else m) v (Fin m0) = Fin a /\
    (a <= m0)%Q /\ In (Fin a) (Fin m0 :: v).
Proof.
  induction 1 as [|y v Hy _ IH]; intro m0; cbn [fold_left].
  - exists m0. split; [reflexivity|]. split; [apply Qle_refl | left; reflexivity].
  - destruct y as [y0| | |]; try contradiction.
    destruct (Tltb (Fin y0) (Fin m0)) eqn:E.
    + apply Tltb_Fin in E. destruct (IH y0) as (a & Ha & Hle & Hin).
      exists a. split; [exact Ha|]. split; [lra|]. right. exact Hin.
    + destruct (IH m0) as (a & Ha & Hle & Hin).
      exists a. split; [exact Ha|]. split; [exact Hle|].
      destruct Hin as [Hin|Hin]; [left; exact Hin | right; right; exact Hin].
Qed.

Lemma maxCoeff_scan (v : Vec) :
  Forall Tfinite v ->
  forall m0, exists b,
    fold_left (fun m y => if Tltb m y then y else m) v (Fin m0) = Fin b /\
    (m0 <= b)%Q /\ In (Fin b) (Fin m0 :: v).
Proof.
  induction 1 as [|y v Hy _ IH]; intro m0; cbn [fold_left].
  - exists m0. split; [reflexivity|]. split; [apply Qle_refl | left; reflexivity].
  - destruct y as [y0| | |]; try contradiction.
    destruct (Tltb (Fin m0) (Fin y0)) eqn:E.
    + apply Tltb_Fin in E. destruct (IH y0) as (b & Hb & Hle & Hin).
      exists b. split; [exact Hb|]. split; [lra|]. right. exact Hin.
    + destruct (IH m0) as (b & Hb & Hle & Hin).
      exists b. split; [exact Hb|]. split; [exact Hle|].
      destruct Hin as [Hin|Hin]; [left; exact Hin | right; right; exact Hin].
Qed.

(** The minimum and the maximum of a row of finite coefficients are
    coefficients of the row, and the minimum is at most the maximum. *)
Lemma minCoeff_le_maxCoeff (v : Vec) :
  v <> [] -> Forall Tfinite v ->
  exists lo hi, minCoeff v = Fin lo /\ maxCoeff v = Fin hi /\ (lo <= hi)%Q /\
                In (Fin lo) v /\ In (Fin hi) v.
Proof.
  intros Hne Hfin. destruct v as [|x v]; [contradiction|].
  inversion Hfin as [|? ? Hx Hv]; subst.
  unfold minCoeff, maxCoeff. destruct x as [x0| | |]; try contradiction.
  destruct (minCoeff_scan v Hv x0) as (a & Ha & Hle & Hina).
  destruct (maxCoeff_scan v Hv x0) as (b & Hb & Hge & Hinb).
  exists a, b. split; [exact Ha|]. split; [exact Hb|]. split; [lra|].
  split; assumption.
Qed.

Lemma value_of_finite (F : Format) (a : T) : value_of F a -> Tfinite a.
Proof. intros (q & -> & _). exact I. Qed.

Section DrawnCoordinates.

Variable F : Format.
Hypothesis HF : rounds_to_nearest F.
Hypothesis Hone : round F 1 = Fin 1.

(** The value drawn, once converted to [T], lies between 0 and 1. *)
Lemma drawn_value (x : Z) :
  exists rho, fl F (Fin (Qmake (rand48_step x) (2 ^ 48))) = Fin rho /\
              (0 <= rho <= 1)%Q.
Proof.
  assert (Hr : (0 <= rand48_step x < 2 ^ 48)%Z)
    by (unfold rand48_step, two48; apply Z.mod_pos_bound; reflexivity).
  set (r := Qmake (rand48_step x) (2 ^ 48)).
  assert (Hr0 : (0 <= Qred r)%Q) by (rewrite Qred_correct; unfold r, Qle; simpl; lia).
  assert (Hr1 : (Qred r <= 1)%Q) by (rewrite Qred_correct; unfold r, Qle; simpl; lia).
  cbn [fl].
  destruct (round_monotone F HF _ _ Hr0) as (L & _ & _).
  destruct (round_monotone F HF _ _ Hr1) as (U & N & _).
  rewrite (round_zero F HF) in L. rewrite Hone in U.
  destruct (round F (Qred r)) as [rho| | |]; try discriminate.
  exists rho. split; [reflexivity|].
  apply Tltb_Fin_false in L. apply Tltb_Fin_false in U. lra.
Qed.

(** A coordinate drawn between the bounds [lo <= hi], two values of [T]
    whose difference does not overflow: it is not below [lo] and not above
    [(hi - lo) + lo] as [T] computes it. *)
Lemma drawn_coordinate (lo hi rho : Q) :
  round F (Qred lo) = Fin lo -> (lo <= hi)%Q -> (0 <= rho <= 1)%Q ->
  Tfinite (Tsub F (Fin hi) (Fin lo)) ->
  let range := Tsub F (Fin hi) (Fin lo) in
  Tle (Fin lo) (Tadd F (Tmul F (Fin rho) range) (Fin lo)) /\
  Tle (Tadd F (Tmul F (Fin rho) range) (Fin lo)) (Tadd F range (Fin lo)).
Proof.
  intros Hlo Hle Hrho Hfin range.
  assert (Hd : (0 <= Qred (hi + - lo))%Q) by (rewrite Qred_correct; lra).
  destruct (round_monotone F HF _ _ Hd) as (D0 & _ & _).
  rewrite (round_zero F HF) in D0.
  unfold range, Tsub in *. cbn [Topp exact_add fl] in *.
  destruct (round F (Qred (hi + - lo))) as [d| | |] eqn:Ed; try contradiction.
  apply Tltb_Fin_false in D0.
  assert (Dfix := round_fixed F HF _ _ Ed).
  unfold Tmul. cbn [exact_mul fl].
  assert (M0 : (0 <= Qred (rho * d))%Q) by (rewrite Qred_correct; nra).
  assert (M1 : (Qred (rho * d) <= Qred d)%Q) by (rewrite !Qred_correct; nra).
  destruct (round_monotone F HF _ _ M0) as (L & _ & _).
  destruct (round_monotone F HF _ _ M1) as (U & N & _).
  rewrite (round_zero F HF) in L. rewrite Dfix in U.
  destruct (round F (Qred (rho * d))) as [m| | |]; try discriminate.
  apply Tltb_Fin_false in L. apply Tltb_Fin_false in U.
  unfold Tadd. cbn [exact_add fl].
  assert (A0 : (Qred lo <= Qred (m + lo))%Q) by (rewrite !Qred_correct; lra).
  assert (A1 : (Qred (m + lo) <= Qred (d + lo))%Q) by (rewrite !Qred_correct; lra).
  assert (G := round_monotone F HF _ _ A0). rewrite Hlo in G.
  split; [exact G | exact (round_monotone F HF _ _ A1)].
Qed.

(** Each coordinate that [GetRandomPointInBounds] draws. *)
Lemma coordinates_from_in_bounds (bounds : list (T * T)) :
  (forall f, f < length bounds ->
     exists lo hi, nth f bounds (NaN, NaN) = (Fin lo, Fin hi) /\
                   round F (Qred lo) = Fin lo /\ (lo <= hi)%Q /\
                   Tfinite (Tsub F (Fin hi) (Fin lo))) ->
  forall x f, f < length bounds ->
    let lo := fst (nth f bounds (NaN, NaN)) in
    let hi := snd (nth f bounds (NaN, NaN)) in
    Tle lo (nth f (fst (coordinates_from F bounds x)) NaN) /\
    Tle (nth f (fst (coordinates_from F bounds x)) NaN)
        (Tadd F (Tsub F hi lo) lo).
Proof.
  induction bounds as [|[lo hi] rest IH]; intros Hb x f Hf; simpl in Hf; [lia|].
  cbn [coordinates_from].
  destruct (coordinates_from F rest (rand48_step x)) as [v x2] eqn:E.
  destruct f as [|f].
  - destruct (Hb 0 ltac:(simpl; lia)) as (l & h & Heq & Hl & Hle & Hfin).
    simpl in Heq. injection Heq as -> ->. cbn [nth fst snd].
    destruct (drawn_value x) as (rho & -> & Hrho).
    exact (drawn_coordinate l h rho Hl Hle Hrho Hfin).
  - cbn [nth fst snd].
    specialize (IH (fun g Hg => Hb (S g) ltac:(simpl; lia)) (rand48_step x) f
                   ltac:(lia)).
    rewrite E in IH. exact IH.
Qed.

Lemma points_from_nth (bounds : list (T * T)) (n : nat) :
  forall x c, c < n ->
    exists x', nth c (fst (points_from F bounds n x)) [] =
               fst (coordinates_from F bounds x').
Proof.
  induction n as [|n IH]; intros x c Hc; [lia|].
  cbn [points_from].
  destruct (coordinates_from F bounds x) as [v x1] eqn:E.
  destruct (points_from F bounds n x1) as [vs x2] eqn:E'.
  destruct c as [|c].
  - exists x. rewrite E. reflexivity.
  - destruct (IH x1 c ltac:(lia)) as (x' & Hx'). rewrite E' in Hx'.
    exists x'. exact Hx'.
Qed.

End DrawnCoordinates.

(** With [T] [float] or [double], on a dataset with samples whose
    coefficients are finite values of [T] and whose range, in each
    feature, does not overflow, [RandomInit] returns and every coordinate
    of every centroid it writes is a number not below the minimum [lo] of
    its feature and not above [(hi - lo) + lo] as [T] computes it, [hi]
    being the maximum of the feature. *)
Theorem RandomInit_in_bounds (P : Platform) (input_data : Matrix T) (s : State)
        (HT : ieee P)
        (Hcols : cols (centers_ (self s)) = K (self s))
        (Hn : 0 < cols input_data)
        (Hval : forall f, f < rows input_data ->
                          Forall (value_of P) (row input_data f))
        (Hrange : forall f, f < rows input_data ->
                    Tfinite (Tsub P (maxCoeff (row input_data f))
                                    (minCoeff (row input_data f)))) :
  exists s',
    RandomInit P input_data s = Ok tt s' /\
    forall c f, c < K (self s) -> f < rows input_data ->
      let lo := minCoeff (row input_data f) in
      let hi := maxCoeff (row input_data f) in
      Tle lo (coeff (centers_ (self s')) f c) /\
      Tle (coeff (centers_ (self s')) f c) (Tadd P (Tsub P hi lo) lo).
Proof.
  assert (HF := IEEEFacts.ieee_rounds_to_nearest P HT).
  destruct (ieee_small_values P HT) as (_ & _ & Hone & _).
  destruct s as [km e]. cbn [self] in *.
  eexists. split; [apply RandomInit_closed; exact Hcols|].
  intros c f Hc Hf. cbn [self centers_ with_centers].
  unfold coeff, col. cbn [columns].
  destruct (points_from_nth P (bounding_box input_data) (K km) (xsubi e) c Hc)
    as (x' & Hx').
  unfold Vec in *. rewrite Hx'. clear Hx'.
  assert (Hlen : length (bounding_box input_data) = rows input_data).
  { unfold bounding_box, rowwise_minCoeff, rowwise_maxCoeff.
    rewrite length_combine, !length_map, length_seq. apply Nat.min_id. }
  assert (Hnth : forall g, g < rows input_data ->
            nth g (bounding_box input_data) (NaN, NaN) =
            (minCoeff (row input_data g), maxCoeff (row input_data g))).
  { intros g Hg. unfold bounding_box, rowwise_minCoeff, rowwise_maxCoeff.
    rewrite combine_nth by (rewrite !length_map; reflexivity).
    rewrite (nth_indep _ NaN (minCoeff (row input_data 0)))
      by (rewrite length_map, length_seq; exact Hg).
    rewrite (nth_indep (map (fun r => maxCoeff (row input_data r)) _) NaN
                       (maxCoeff (row input_data 0)))
      by (rewrite length_map, length_seq; exact Hg).
    rewrite (map_nth (fun r => minCoeff (row input_data r))).
    rewrite (map_nth (fun r => maxCoeff (row input_data r))).
    rewrite seq_nth by exact Hg. reflexivity. }
  assert (Hb : forall g, g < length (bounding_box input_data) ->
            exists lo hi, nth g (bounding_box input_data) (NaN, NaN) =
                          (Fin lo, Fin hi) /\
                          round P (Qred lo) = Fin lo /\ (lo <= hi)%Q /\
                          Tfinite (Tsub P (Fin hi) (Fin lo))).
  { intros g Hg. rewrite Hlen in Hg. rewrite (Hnth g Hg).
    assert (Hv := Hval g Hg). assert (Hr := Hrange g Hg).
    destruct (minCoeff_le_maxCoeff (row input_data g))
      as (lo & hi & H1 & H2 & H3 & H4 & _).
    - unfold row, cols in *. destruct (columns input_data);
        [simpl in Hn; lia | discriminate].
    - apply (Forall_impl _ (value_of_finite P)). exact Hv.
    - exists lo, hi. rewrite H1, H2 in *. split; [reflexivity|].
      rewrite Forall_forall in Hv. destruct (Hv _ H4) as (q & Hq & Hfix).
      injection Hq as <-. repeat split; assumption. }
  destruct (coordinates_from_in_bounds P HF Hone (bounding_box input_data) Hb x' f
              ltac:(rewrite Hlen; exact Hf)) as [H1 H2].
  rewrite (Hnth f Hf) in H1, H2. split; assumption.
Qed.

Lemma RandomInit_in_bounds_witness :
  exists s',
    RandomInit Glibc.platform two_samples before_assignment = Ok tt s' /\
    forall c f, c < K (self before_assignment) -> f < rows two_samples ->
      let lo := minCoeff (row two_samples f) in
      let hi := maxCoeff (row two_samples f) in
      Tle lo (coeff (centers_ (self s')) f c) /\
      Tle (coeff (centers_ (self s')) f c)
          (Tadd Glibc.platform (Tsub Glibc.platform hi lo) lo).
Proof.
  apply (RandomInit_in_bounds Glibc.platform two_samples before_assignment).
  - right. reflexivity.
  - reflexivity.
  - cbv. lia.
  - intros f Hf. destruct f as [|f]; [|cbv in Hf; lia].
    repeat constructor.
    + exists 0%Q. split; reflexivity.
    + exists 10%Q. split; [reflexivity | vm_compute; reflexivity].
  - intros f Hf. destruct f as [|f]; [|cbv in Hf; lia].
    vm_compute. exact I.
Defined.

(** ** The centroids of the k-means++ initialisation *)

Lemma list_set_nth {A} (l : list A) (i : nat) (x : A) (l' : list A) (d : A) :
  list_set l i x = Some l' ->
  i < length l /\
  forall c, nth c l' d = if c =? i then x else nth c l d.
Proof.
  revert i l'. induction l as [|y l IH]; intros i l' H; simpl in H.
  - discriminate H.
  - destruct i as [|i].
    + injection H as <-. split; [simpl; lia|]. intros [|c]; reflexivity.
    + destruct (list_set l i x) as [l''|] eqn:E; [|discriminate H].
      injection H as <-. destruct (IH _ _ E) as [Hlt Hnth].
      split; [simpl; lia|]. intros [|c]; [reflexivity|]. simpl. apply Hnth.
Qed.

(** A property established turn after turn by a counting loop. *)
Lemma for_each_seq_invariant (I : nat -> State -> Prop) (body : nat -> M unit)
      (n : nat) :
  forall a st st',
    (forall i s s', a <= i < a + n -> I i s -> body i s = Ok tt s' -> I (S i) s') ->
    I a st ->
    for_each (seq a n) body st = Ok tt st' ->
    I (a + n) st'.
Proof.
  induction n as [|n IH]; intros a st st' Hstep Ha H; simpl in H.
  - injection H as <-. rewrite Nat.add_0_r. exact Ha.
  - apply bind_Ok in H. destruct H as ([] & s1 & H1 & H2).
    replace (a + S n) with (S a + n) by lia.
    apply (IH (S a) s1 st').
    + intros i s s' Hi. apply Hstep. lia.
    + apply (Hstep a st s1); [lia | exact Ha | exact H1].
    + exact H2.
Qed.

(** The call of the sampler returns an index of the weight vector and
    leaves the engine alone. *)
Lemma SelectWeightedIndex_returns (P : Platform) (weights : Vec) (s : State)
      (i : nat) (s' : State) :
  SelectWeightedIndex P weights s = Ok i s' ->
  i < length weights /\ self s' = self s.
Proof.
  unfold SelectWeightedIndex, bind, draw.
  destruct (drand48 (env s)) as [r e].
  destruct (SelectWeightedIndex_at P weights (fl P r)) as [j|] eqn:E; intro H;
    [|discriminate H].
  injection H as <- <-. split; [|reflexivity].
  unfold SelectWeightedIndex_at in E.
  apply scan_weights_reads in E. destruct E as (w & Hin & ->).
  apply (Permutation_in w (sort_perm _)) in Hin.
  destruct (map_at_weight _ w Hin) as [Hlt _].
  unfold Vdiv in Hlt at 2. rewrite length_map in Hlt. exact Hlt.
Qed.

Lemma assign_center_column (i : nat) (v : Vec) (s s' : State) :
  assign_center i v s = Ok tt s' ->
  i < cols (centers_ (self s)) /\
  cols (centers_ (self s')) = cols (centers_ (self s)) /\
  forall c, col (centers_ (self s')) c =
            if c =? i then v else col (centers_ (self s)) c.
Proof.
  unfold assign_center, bind, get, set_col.
  destruct (list_set (columns (centers_ (self s))) i v) as [cs|] eqn:E;
    intro H; [|discriminate H].
  injection H as <-. cbn [self centers_ with_centers].
  destruct (list_set_nth _ _ _ _ [] E) as [Hlt Hnth].
  split; [exact Hlt|]. split.
  - unfold cols. cbn [columns]. exact (list_set_length _ _ _ _ E).
  - intro c. unfold col. cbn [columns]. apply Hnth.
Qed.

(** When [KMeansPPInit] returns, each of the [K] centroids is a sample of
    the dataset, and the first one is the sample numbered by [rand()]
    modulo the sample count. *)
Theorem KMeansPPInit_centroids_are_samples
        (P : Platform) (input_data : Matrix T) (s s' : State)
        (Hcols : cols (centers_ (self s)) = K (self s))
        (Hret : KMeansPPInit P input_data s = Ok tt s') :
  (forall c, c < K (self s) ->
             In (col (centers_ (self s')) c) (columns input_data)) /\
  col (centers_ (self s')) 0 =
  col input_data
      (Z.to_nat (Z.rem (rand_seq P (rand_calls (env s)))
                       (Z.of_nat (cols input_data)))).
Proof.
  unfold KMeansPPInit in Hret.
  apply bind_Ok in Hret. destruct Hret as (s0 & s0' & HG & H).
  injection HG as <- <-.
  unfold rand in H.
  apply bind_Ok in H. destruct H as ([] & s1 & Henv & H).
  injection Henv as <-.
  destruct (cols input_data =? 0) eqn:En; [discriminate H|].
  apply Nat.eqb_neq in En.
  set (randomId := Z.to_nat (Z.rem (rand_seq P (rand_calls (env s)))
                                   (Z.of_nat (cols input_data)))) in *.
  assert (Hid : randomId < cols input_data).
  { pose proof (Z.rem_bound_abs (rand_seq P (rand_calls (env s)))
                                (Z.of_nat (cols input_data)) ltac:(lia)).
    unfold randomId. lia. }
  apply bind_Ok in H. destruct H as ([] & s2 & Hfirst & H).
  apply assign_center_column in Hfirst.
  cbn [self] in Hfirst. destruct Hfirst as (H0 & Hc2 & Hcol2).
  set (I := fun (j : nat) (st : State) =>
              cols (centers_ (self st)) = K (self s) /\
              col (centers_ (self st)) 0 = col input_data randomId /\
              forall c, c < j ->
                        In (col (centers_ (self st)) c) (columns input_data)).
  assert (Hinv : I (1 + (K (self s) - 1)) s').
  { apply (fun Hstep Ha => for_each_seq_invariant I _ _ _ _ _ Hstep Ha H).
    - intros i st st' Hi (Hk & Hz & Hall) Hbody.
      apply bind_Ok in Hbody. destruct Hbody as (st0 & st0' & HG & Hbody).
      injection HG as <- <-.
      apply bind_Ok in Hbody. destruct Hbody as (sel & st1 & Hsel & Hbody).
      apply SelectWeightedIndex_returns in Hsel.
      destruct Hsel as [Hsel Hself].
      rewrite length_map, length_seq in Hsel.
      apply assign_center_column in Hbody. rewrite Hself in Hbody.
      destruct Hbody as (_ & Hc' & Hcol'). unfold I.
      split; [rewrite Hc'; exact Hk|]. split.
      + rewrite Hcol'. replace (0 =? i) with false
          by (symmetry; apply Nat.eqb_neq; lia). exact Hz.
      + intros c Hc. rewrite Hcol'. destruct (c =? i) eqn:Eci.
        * unfold col. apply nth_In. exact Hsel.
        * apply Hall. apply Nat.eqb_neq in Eci. lia.
    - unfold I. split; [rewrite Hc2; exact Hcols|]. split.
      + rewrite Hcol2. reflexivity.
      + intros c Hc. assert (c = 0) by lia. subst c.
        rewrite Hcol2. simpl. unfold col. apply nth_In. exact Hid. }
  destruct Hinv as (_ & Hz & Hall). split; [|exact Hz].
  intros c Hc. apply Hall. lia.
Qed.

Lemma KMeansPPInit_centroids_are_samples_witness :
  let o := KMeansPPInit Glibc.platform two_samples before_initialisation in
  exists s', o = Ok tt s' /\
  (forall c, c < 2 -> In (col (centers_ (self s')) c) (columns two_samples)) /\
  col (centers_ (self s')) 0 = col two_samples 1.
Proof.
  destruct (KMeansPPInit Glibc.platform two_samples before_initialisation)
    as [[] s'|e s'] eqn:H; [|vm_compute in H; discriminate H].
  exists s'. split; [reflexivity|].
  exact (KMeansPPInit_centroids_are_samples Glibc.platform two_samples
           before_initialisation s' eq_refl H).
Defined.

(** * Further properties of the matrix operations *)

Module CpuOperationsMore.
Import CpuOperations.

Lemma map_zip_with {A B C D E G} (g : C -> G) (f : A -> B -> C)
      (f' : D -> E -> G) (h : A -> D) (h' : B -> E) (u : list A) (v : list B) :
  (forall x y, g (f x y) = f' (h x) (h' y)) ->
  map g (zip_with f u v) = zip_with f' (map h u) (map h' v).
Proof.
  intro H. revert v. induction u as [|x u IH]; intros [|y v]; simpl;
    try reflexivity.
  rewrite H, IH. reflexivity.
Qed.

Lemma length_zip_with {A B C} (f : A -> B -> C) (u : list A) (v : list B) :
  List.length (zip_with f u v) = Nat.min (List.length u) (List.length v).
Proof.
  revert v. induction u as [|x u IH]; intros [|y v]; simpl; try reflexivity.
  rewrite IH. reflexivity.
Qed.

Lemma zip_with_nth {A B C} (f : A -> B -> C) (u : list A) (v : list B)
      (da : A) (db : B) (dc : C) (i : nat) :
  i < List.length u -> i < List.length v ->
  nth i (zip_with f u v) dc = f (nth i u da) (nth i v db).
Proof.
  revert v i. induction u as [|x u IH]; intros [|y v] i Hu Hv; simpl in *;
    try lia.
  destruct i as [|i]; [reflexivity|]. apply IH; lia.
Qed.

Lemma zip_with_comm {A C} (f : A -> A -> C) (u v : list A) :
  (forall x y, f x y = f y x) -> zip_with f u v = zip_with f v u.
Proof.
  intro H. revert v. induction u as [|x u IH]; intros [|y v]; simpl;
    try reflexivity.
  rewrite H, IH. reflexivity.
Qed.

Lemma map_nth_seq {A B} (g : A -> B) (l : list A) (d : A) :
  map (fun i => g (nth i l d)) (seq 0 (List.length l)) = map g l.
Proof.
  apply (nth_ext _ _ (g d) (g d)).
  - rewrite !length_map, length_seq. reflexivity.
  - intros i Hi. rewrite length_map, length_seq in Hi.
    rewrite (map_nth g).
    rewrite (nth_indep _ (g d) (g (nth 0 l d)))
      by (rewrite length_map, length_seq; exact Hi).
    rewrite (map_nth (fun i => g (nth i l d))), seq_nth by exact Hi.
    reflexivity.
Qed.

Lemma LogicalNot_returns (a : Matrix bool) :
  is_empty a = false ->
  LogicalNot a = Returns (mkMatrix (rows a) (map (map negb) (columns a))).
Proof.
  unfold is_empty, LogicalNot, cols. cbn [rows columns].
  rewrite length_map. intros ->. reflexivity.
Qed.

(** [LogicalNot] exits on an empty matrix; on any other matrix it returns,
    and applied to its result it returns the matrix it was given. *)
Theorem LogicalNot_involutive (a : Matrix bool) :
  (is_empty a = true -> is_exit (LogicalNot a) = true) /\
  (is_empty a = false ->
   exists b, LogicalNot a = Returns b /\ LogicalNot b = Returns a).
Proof.
  split; intro H.
  - unfold is_empty in H. unfold LogicalNot, cols. cbn [rows columns].
    rewrite length_map. unfold cols in H. rewrite H. reflexivity.
  - exists (mkMatrix (rows a) (map (map negb) (columns a))).
    split; [apply LogicalNot_returns; exact H|].
    rewrite LogicalNot_returns
      by (unfold is_empty, cols in *; cbn [rows columns];
          rewrite length_map; exact H).
    f_equal. destruct a as [r cs]. cbn [rows columns]. f_equal.
    rewrite map_map. rewrite <- (map_id cs) at 2.
    apply map_ext. intro c. rewrite map_map. rewrite <- (map_id c) at 2.
    apply map_ext. apply negb_involutive.
Qed.

Lemma LogicalNot_involutive_witness :
  exists b, LogicalNot (mkMatrix 1 [[true]; [false]]) = Returns b /\
            LogicalNot b = Returns (mkMatrix 1 [[true]; [false]]).
Proof.
  apply (proj2 (LogicalNot_involutive (mkMatrix 1 [[true]; [false]]))).
  reflexivity.
Defined.

Lemma LogicalOr_returns (a b : Matrix bool) :
  same_size a b = true -> is_empty a = false ->
  LogicalOr a b = Returns (elementwise orb a b).
Proof.
  unfold same_size, is_empty, LogicalOr. intros Hs He.
  apply andb_true_iff in Hs. destruct Hs as [Hr Hc]. rewrite Hr, Hc.
  apply Nat.eqb_eq in Hr. apply Nat.eqb_eq in Hc. rewrite <- Hr, <- Hc.
  apply orb_false_iff in He. destruct He as [-> ->]. reflexivity.
Qed.

Lemma elementwise_size {A} (f : A -> A -> A) (a b : Matrix A) :
  same_size a b = true ->
  rows (elementwise f a b) = rows a /\ cols (elementwise f a b) = cols a.
Proof.
  unfold same_size, elementwise, cols. cbn [rows columns]. intro Hs.
  apply andb_true_iff in Hs. destruct Hs as [_ Hc]. apply Nat.eqb_eq in Hc.
  split; [reflexivity|]. rewrite length_zip_with, Hc. apply Nat.min_id.
Qed.

(** De Morgan's laws on matrices of one size that are not empty: the
    negation of [LogicalAnd] is the [LogicalOr] of the negations, and the
    negation of [LogicalOr] is the [LogicalAnd] of the negations. *)
Theorem LogicalNot_LogicalAnd_LogicalOr (a b : Matrix bool)
        (Hsize : same_size a b = true) (Hne : is_empty a = false) :
  exists a_and_b a_or_b not_a not_b,
    LogicalAnd a b = Returns a_and_b /\
    LogicalOr a b = Returns a_or_b /\
    LogicalNot a = Returns not_a /\
    LogicalNot b = Returns not_b /\
    LogicalNot a_and_b = LogicalOr not_a not_b /\
    LogicalNot a_or_b = LogicalAnd not_a not_b.
Proof.
  assert (Hneb : is_empty b = false).
  { unfold same_size in Hsize. unfold is_empty in *.
    apply andb_true_iff in Hsize. destruct Hsize as [Hr Hc].
    apply Nat.eqb_eq in Hr. apply Nat.eqb_eq in Hc. rewrite <- Hr, <- Hc.
    exact Hne. }
  set (not_a := mkMatrix (rows a) (map (map negb) (columns a))).
  set (not_b := mkMatrix (rows b) (map (map negb) (columns b))).
  assert (Hsize' : same_size not_a not_b = true).
  { unfold same_size, cols, not_a, not_b in *. cbn [rows columns].
    rewrite !length_map. exact Hsize. }
  assert (Hne' : is_empty not_a = false).
  { unfold is_empty, cols, not_a in *. cbn [rows columns].
    rewrite length_map. exact Hne. }
  exists (elementwise andb a b), (elementwise orb a b), not_a, not_b.
  split; [apply CpuOperationsFacts.LogicalAnd_returns; exact Hsize|].
  split; [apply LogicalOr_returns; assumption|].
  split; [apply LogicalNot_returns; exact Hne|].
  split; [apply LogicalNot_returns; exact Hneb|].
  destruct (elementwise_size andb a b Hsize) as [Hr1 Hc1].
  destruct (elementwise_size orb a b Hsize) as [Hr2 Hc2].
  split.
  - rewrite LogicalNot_returns
      by (unfold is_empty in *; rewrite Hr1, Hc1; exact Hne).
    rewrite LogicalOr_returns by assumption.
    unfold elementwise, not_a, not_b. cbn [rows columns]. f_equal. f_equal.
    apply map_zip_with. intros x y. apply map_zip_with. apply negb_andb.
  - rewrite LogicalNot_returns
      by (unfold is_empty in *; rewrite Hr2, Hc2; exact Hne).
    rewrite CpuOperationsFacts.LogicalAnd_returns by assumption.
    unfold elementwise, not_a, not_b. cbn [rows columns]. f_equal. f_equal.
    apply map_zip_with. intros x y. apply map_zip_with. apply negb_orb.
Qed.

Lemma LogicalNot_LogicalAnd_LogicalOr_witness :
  exists a_and_b a_or_b not_a not_b,
    LogicalAnd (mkMatrix 1 [[true]; [false]]) (mkMatrix 1 [[true]; [true]])
    = Returns a_and_b /\
    LogicalOr (mkMatrix 1 [[true]; [false]]) (mkMatrix 1 [[true]; [true]])
    = Returns a_or_b /\
    LogicalNot (mkMatrix 1 [[true]; [false]]) = Returns not_a /\
    LogicalNot (mkMatrix 1 [[true]; [true]]) = Returns not_b /\
    LogicalNot a_and_b = LogicalOr not_a not_b /\
    LogicalNot a_or_b = LogicalAnd not_a not_b.
Proof.
  apply (LogicalNot_LogicalAnd_LogicalOr
           (mkMatrix 1 [[true]; [false]]) (mkMatrix 1 [[true]; [true]]));
    reflexivity.
Defined.

Lemma well_formed_nth {A} (m : Matrix A) (c : nat) :
  well_formed m -> c < cols m -> List.length (nth c (columns m) []) = rows m.
Proof.
  unfold well_formed, cols. intros Hwf Hc.
  rewrite Forall_forall in Hwf. apply Hwf. apply nth_In. exact Hc.
Qed.

(** [Subtract] exits exactly when the sizes differ or the operands are
    empty; when it returns, the result has the size of the operands and
    each coefficient is the difference of the coefficients. *)
Theorem Subtract_coefficients (F : Format) (a b : Matrix T)
        (Ha : well_formed a) (Hb : well_formed b) :
  is_exit (Subtract F a b) = negb (same_size a b) || is_empty a /\
  forall m, Subtract F a b = Returns m ->
    rows m = rows a /\ cols m = cols a /\
    forall r c, r < rows a -> c < cols a ->
      coeff m r c = Tsub F (coeff a r c) (coeff b r c).
Proof.
  unfold Subtract, same_size, is_empty.
  destruct (rows a =? rows b) eqn:Er; cbn [negb orb andb].
  2: { split; [reflexivity | intros m H; discriminate H]. }
  destruct (cols a =? cols b) eqn:Ec; cbn [negb orb andb].
  2: { split; [reflexivity | intros m H; discriminate H]. }
  apply Nat.eqb_eq in Er. apply Nat.eqb_eq in Ec. rewrite <- Er, <- Ec.
  destruct (rows a =? 0) eqn:Er0; cbn [orb].
  { split; [reflexivity | intros m H; discriminate H]. }
  destruct (cols a =? 0) eqn:Ec0; cbn [orb].
  { split; [reflexivity | intros m H; discriminate H]. }
  split; [reflexivity|]. intros m H. injection H as <-.
  assert (Hs : same_size a b = true)
    by (unfold same_size; rewrite Er, Ec, !Nat.eqb_refl; reflexivity).
  destruct (elementwise_size (Tsub F) a b Hs) as [H1 H2].
  split; [exact H1|]. split; [exact H2|].
  intros r c Hr Hc. unfold coeff, col, elementwise. cbn [columns].
  rewrite (zip_with_nth _ _ _ [] [] [])
    by (unfold cols in *; lia).
  apply zip_with_nth.
  - rewrite (well_formed_nth a c Ha Hc). exact Hr.
  - rewrite (well_formed_nth b c Hb) by lia. lia.
Qed.

Lemma Subtract_coefficients_witness :
  is_exit (Subtract IEEE.binary64 (mkMatrix 1 [[Fin 5]]) (mkMatrix 1 [[Fin 3]])) =
  negb (same_size (mkMatrix 1 [[Fin 5]]) (mkMatrix 1 [[Fin 3]]))
  || is_empty (mkMatrix 1 [[Fin 5]]) /\
  forall m, Subtract IEEE.binary64 (mkMatrix 1 [[Fin 5]]) (mkMatrix 1 [[Fin 3]]) = Returns m ->
    rows m = 1 /\ cols m = 1 /\
    forall r c, r < 1 -> c < 1 ->
      coeff m r c = Tsub IEEE.binary64 (coeff (mkMatrix 1 [[Fin 5]]) r c)
                         (coeff (mkMatrix 1 [[Fin 3]]) r c).
Proof.
  apply (Subtract_coefficients IEEE.binary64 (mkMatrix 1 [[Fin 5]]) (mkMatrix 1 [[Fin 3]]));
    repeat constructor.
Defined.

Lemma Tmul_comm (F : Format) (a b : T) : Tmul F a b = Tmul F b a.
Proof.
  unfold Tmul. f_equal.
  destruct a as [x| | |], b as [y| | |]; simpl; try reflexivity.
  f_equal. unfold Qmult. f_equal; [apply Z.mul_comm | apply Pos.mul_comm].
Qed.

(** [DotProduct] does not depend on the order of its operands, in the
    value it returns as in the error it reports. *)
Theorem DotProduct_comm (F : Format) (a b : Vec) :
  DotProduct F a b = DotProduct F b a.
Proof.
  unfold DotProduct. rewrite (Nat.eqb_sym (List.length b)).
  destruct (List.length a =? List.length b) eqn:E; [|reflexivity].
  apply Nat.eqb_eq in E. rewrite <- E. cbn [negb].
  destruct (List.length a =? 0); [reflexivity|].
  unfold dot. rewrite (zip_with_comm (Tmul F) a b (Tmul_comm F)). reflexivity.
Qed.

(** When [OuterProduct] returns a matrix, the matrix has one row per
    coefficient of the first vector and one column per coefficient of the
    second, and the outer product of the vectors in the other order is
    its transpose. *)
Theorem OuterProduct_Transpose (F : Format) (a b : Vec) (m : Matrix T)
        (H : OuterProduct F a b = Returns m) :
  rows m = List.length a /\ cols m = List.length b /\
  OuterProduct F b a = Returns (Transpose m).
Proof.
  unfold OuterProduct in *.
  destruct ((List.length a =? 0) || (List.length b =? 0)) eqn:E;
    [discriminate H|].
  rewrite orb_comm in E. rewrite E. injection H as <-.
  unfold cols, Transpose. cbn [rows columns]. rewrite length_map.
  split; [reflexivity|]. split; [reflexivity|].
  f_equal. f_equal; [unfold cols; cbn [columns]; rewrite length_map; reflexivity|].
  unfold row. cbn [columns].
  rewrite <- (map_nth_seq (fun aj => map (fun bi => Tmul F bi aj) b) a NaN).
  apply map_ext. intro r. rewrite map_map. apply map_ext. intro bj.
  rewrite Tmul_comm.
  exact (eq_sym (map_nth (fun ai => Tmul F ai bj) a NaN r)).
Qed.

Lemma OuterProduct_Transpose_witness :
  rows (mkMatrix 2 [[Fin 3; Fin 6]]) = 2 /\
  cols (mkMatrix 2 [[Fin 3; Fin 6]]) = 1 /\
  OuterProduct IEEE.binary64 [Fin 3] [Fin 1; Fin 2] =
  Returns (Transpose (mkMatrix 2 [[Fin 3; Fin 6]])).
Proof.
  apply (OuterProduct_Transpose IEEE.binary64 [Fin 1; Fin 2] [Fin 3]
           (mkMatrix 2 [[Fin 3; Fin 6]])).
  vm_compute. reflexivity.
Defined.

Lemma nth_row (m : Matrix T) (r c : nat) :
  c < cols m -> nth c (row m r) NaN = coeff m r c.
Proof.
  intro Hc. unfold row, coeff, col.
  rewrite (nth_indep _ NaN (nth r [] NaN)) by (rewrite length_map; exact Hc).
  exact (map_nth (fun cl : list T => nth r cl NaN) (columns m) [] c).
Qed.

Lemma coeff_Transpose (a : Matrix T) (r c : nat) :
  r < rows a -> c < cols a -> coeff (Transpose a) c r = coeff a r c.
Proof.
  intros Hr Hc. unfold coeff at 1. unfold col, Transpose. cbn [columns].
  rewrite (nth_indep _ [] (row a 0)) by (rewrite length_map, length_seq; exact Hr).
  rewrite (map_nth (row a)), seq_nth by exact Hr. cbn [Nat.add].
  apply nth_row. exact Hc.
Qed.

(** [Transpose] exchanges the numbers of rows and columns and the two
    indices of each coefficient; applied twice it gives back the matrix. *)
Theorem Transpose_involutive (a : Matrix T) (Hwf : well_formed a) :
  rows (Transpose a) = cols a /\ cols (Transpose a) = rows a /\
  (forall r c, r < rows a -> c < cols a ->
               coeff (Transpose a) c r = coeff a r c) /\
  Transpose (Transpose a) = a.
Proof.
  assert (Hcols : cols (Transpose a) = rows a)
    by (unfold cols, Transpose; cbn [columns];
        rewrite length_map, length_seq; reflexivity).
  assert (Hcoeff := coeff_Transpose a).
  split; [reflexivity|]. split; [exact Hcols|]. split; [exact Hcoeff|].
  unfold Transpose at 1. rewrite Hcols. cbn [rows].
  destruct a as [ra ca]. f_equal. cbn [rows columns] in *.
  unfold cols. cbn [columns].
  apply (nth_ext _ _ [] []).
  - rewrite length_map, length_seq. reflexivity.
  - intros c Hc. rewrite length_map, length_seq in Hc.
    rewrite (nth_indep _ [] (row (Transpose (mkMatrix ra ca)) 0))
      by (rewrite length_map, length_seq; exact Hc).
    rewrite (map_nth (row (Transpose (mkMatrix ra ca)))), seq_nth by exact Hc.
    cbn [Nat.add].
    assert (Hlen : List.length (nth c ca []) = ra)
      by (apply (well_formed_nth (mkMatrix ra ca) c Hwf); exact Hc).
    apply (nth_ext _ _ NaN NaN).
    + unfold row, Transpose. cbn [columns rows].
      rewrite !length_map, length_seq. symmetry. exact Hlen.
    + intros r Hr. unfold row, Transpose in Hr. cbn [columns rows] in Hr.
      rewrite !length_map, length_seq in Hr.
      rewrite nth_row by (rewrite Hcols; exact Hr).
      exact (Hcoeff r c Hr Hc).
Qed.

Lemma Transpose_involutive_witness :
  rows (Transpose (mkMatrix 2 [[Fin 3; Fin 6]])) = 1 /\
  cols (Transpose (mkMatrix 2 [[Fin 3; Fin 6]])) = 2 /\
  (forall r c, r < 2 -> c < 1 ->
               coeff (Transpose (mkMatrix 2 [[Fin 3; Fin 6]])) c r =
               coeff (mkMatrix 2 [[Fin 3; Fin 6]]) r c) /\
  Transpose (Transpose (mkMatrix 2 [[Fin 3; Fin 6]])) =
  mkMatrix 2 [[Fin 3; Fin 6]].
Proof.
  apply (Transpose_involutive (mkMatrix 2 [[Fin 3; Fin 6]])).
  repeat constructor.
Defined.

(** On a vector that is not empty, [LogicalNot] returns a vector that it
    turns back into the first one, and [LogicalOr] of a vector and its
    negation is true everywhere; on the empty vector both exit. *)
Theorem LogicalNot_vector_involutive (a : list bool) :
  (a = [] -> is_exit (LogicalNot_vector a) = true /\
             is_exit (LogicalOr_vector a a) = true) /\
  (a <> [] ->
   exists b, LogicalNot_vector a = Returns b /\
             LogicalNot_vector b = Returns a /\
             LogicalOr_vector a b = Returns (repeat true (List.length a))).
Proof.
  split.
  - intros ->. split; reflexivity.
  - intro Hne. exists (map negb a).
    assert (Hlen : (List.length a =? 0) = false)
      by (destruct a; [contradiction | reflexivity]).
    unfold LogicalNot_vector, LogicalOr_vector.
    rewrite !length_map, Nat.eqb_refl, Hlen. cbn [negb orb].
    split; [reflexivity|]. split.
    + f_equal. rewrite map_map. rewrite <- (map_id a) at 2.
      apply map_ext. apply negb_involutive.
    + f_equal. clear. induction a as [|x a IH]; simpl; [reflexivity|].
      rewrite IH, orb_negb_r. reflexivity.
Qed.

Lemma LogicalNot_vector_involutive_witness :
  exists b, LogicalNot_vector [true; false] = Returns b /\
            LogicalNot_vector b = Returns [true; false] /\
            LogicalOr_vector [true; false] b = Returns (repeat true 2).
Proof.
  apply (proj2 (LogicalNot_vector_involutive [true; false])).
  discriminate.
Defined.

(** [Trace] gives one value on a matrix and on its transpose. *)
Theorem Trace_Transpose (F : Format) (a : Matrix T) :
  Trace F (Transpose a) = Trace F a.
Proof.
  unfold Trace, trace. f_equal.
  assert (Hcols : cols (Transpose a) = rows a)
    by (unfold cols, Transpose; cbn [columns];
        rewrite length_map, length_seq; reflexivity).
  rewrite Hcols. change (rows (Transpose a)) with (cols a).
  rewrite (Nat.min_comm (cols a)).
  apply map_ext_in. intros i Hi. apply in_seq in Hi.
  apply coeff_Transpose; lia.
Qed.

Lemma Tadd_comm (F : Format) (a b : T) : Tadd F a b = Tadd F b a.
Proof.
  unfold Tadd. f_equal.
  destruct a as [x| | |], b as [y| | |]; simpl; try reflexivity.
  f_equal. unfold Qplus. f_equal; [apply Z.add_comm | apply Pos.mul_comm].
Qed.

(** [Add] does not depend on the order of its operands, in the matrix it
    returns as in the error it reports. *)
Theorem Add_comm (F : Format) (a b : Matrix T) : Add F a b = Add F b a.
Proof.
  unfold Add. rewrite (Nat.eqb_sym (rows b)), (Nat.eqb_sym (cols b)).
  destruct (rows a =? rows b) eqn:Er; [|reflexivity].
  destruct (cols a =? cols b) eqn:Ec; [|reflexivity].
  apply Nat.eqb_eq in Er. rewrite <- Er. cbn [negb orb].
  destruct (rows a =? 0); [reflexivity|].
  unfold elementwise. rewrite <- Er. do 2 f_equal.
  apply zip_with_comm. intros u v. apply zip_with_comm. apply Tadd_comm.
Qed.

Lemma zip_with_repeat {A} (f : A -> A -> A) (l : list A) (s : A) :
  zip_with f l (repeat s (List.length l)) = map (fun x => f x s) l.
Proof.
  induction l as [|x l IH]; simpl; [reflexivity|]. rewrite IH. reflexivity.
Qed.

Lemma elementwise_Constant (f : T -> T -> T) (a : Matrix T) (s : T) :
  well_formed a ->
  elementwise f a (Constant (rows a) (cols a) s) =
  mkMatrix (rows a) (map (map (fun x => f x s)) (columns a)).
Proof.
  unfold well_formed, elementwise, Constant, cols. cbn [rows columns].
  intro Hwf. f_equal. induction Hwf as [|c cs Hc Hwf IH]; simpl;
    [reflexivity|].
  rewrite IH, <- Hc, zip_with_repeat. reflexivity.
Qed.

(** Adding a scalar to a matrix is adding the matrix all of whose
    coefficients are the scalar, in the matrix returned as in the error
    reported. *)
Theorem Add_scalar_as_Add (F : Format) (a : Matrix T) (s : T)
        (Hwf : well_formed a) :
  Add_scalar F a s = Add F a (Constant (rows a) (cols a) s).
Proof.
  unfold Add_scalar, Add.
  assert (Hc : cols (Constant (rows a) (cols a) s) = cols a)
    by (unfold cols, Constant; cbn [columns]; apply repeat_length).
  rewrite Hc. change (rows (Constant (rows a) (cols a) s)) with (rows a).
  rewrite !Nat.eqb_refl. cbn [negb orb].
  destruct (rows a =? 0); [reflexivity|].
  rewrite (elementwise_Constant (Tadd F) a s Hwf). reflexivity.
Qed.

Lemma Add_scalar_as_Add_witness :
  Add_scalar IEEE.binary64 (mkMatrix 2 [[Fin 3; Fin 6]]) (Fin 1) =
  Add IEEE.binary64 (mkMatrix 2 [[Fin 3; Fin 6]]) (Constant 2 1 (Fin 1)).
Proof.
  apply (Add_scalar_as_Add IEEE.binary64 (mkMatrix 2 [[Fin 3; Fin 6]]) (Fin 1)).
  repeat constructor.
Defined.

(** Subtracting a scalar from a matrix exits exactly on an empty matrix,
    as subtracting the matrix all of whose coefficients are the scalar
    does, and returns what that subtraction returns. *)
Theorem Subtract_scalar_as_Subtract (F : Format) (a : Matrix T) (s : T)
        (Hwf : well_formed a) :
  is_exit (Subtract_scalar F a s) = is_empty a /\
  is_exit (Subtract F a (Constant (rows a) (cols a) s)) = is_empty a /\
  forall m, Subtract_scalar F a s = Returns m ->
            Subtract F a (Constant (rows a) (cols a) s) = Returns m.
Proof.
  unfold Subtract_scalar, Subtract, is_empty.
  assert (Hc : cols (Constant (rows a) (cols a) s) = cols a)
    by (unfold cols, Constant; cbn [columns]; apply repeat_length).
  rewrite Hc. change (rows (Constant (rows a) (cols a) s)) with (rows a).
  rewrite !Nat.eqb_refl. cbn [negb orb].
  destruct (rows a =? 0); cbn [orb].
  { repeat split; try reflexivity. intros m H. discriminate H. }
  destruct (cols a =? 0); cbn [orb].
  { repeat split; try reflexivity. intros m H. discriminate H. }
  repeat split; try reflexivity. intros m H. injection H as <-.
  rewrite (elementwise_Constant (Tsub F) a s Hwf). reflexivity.
Qed.

Lemma Subtract_scalar_as_Subtract_witness :
  is_exit (Subtract_scalar IEEE.binary64 (mkMatrix 2 [[Fin 3; Fin 6]]) (Fin 1)) =
  is_empty (mkMatrix 2 [[Fin 3; Fin 6]]) /\
  is_exit (Subtract IEEE.binary64 (mkMatrix 2 [[Fin 3; Fin 6]]) (Constant 2 1 (Fin 1))) =
  is_empty (mkMatrix 2 [[Fin 3; Fin 6]]) /\
  forall m, Subtract_scalar IEEE.binary64 (mkMatrix 2 [[Fin 3; Fin 6]]) (Fin 1) = Returns m ->
            Subtract IEEE.binary64 (mkMatrix 2 [[Fin 3; Fin 6]]) (Constant 2 1 (Fin 1)) =
            Returns m.
Proof.
  apply (Subtract_scalar_as_Subtract IEEE.binary64 (mkMatrix 2 [[Fin 3; Fin 6]]) (Fin 1)).
  repeat constructor.
Defined.

End CpuOperationsMore.
